(** * OCRify: naming core (server/aiNaming.js) and statistics store
      (server/database.js)

    A shallow embedding of the two server modules that carry decision logic,
    and the properties of the specification stated over it.

    Strings.  A JavaScript string is a sequence of UTF-16 code units.  The
    embedding works with 8-bit code units ([list ascii], the Latin-1 range
    U+0000..U+00FF); every literal, character class and case mapping of the
    source lies in that range, where [toLowerCase] maps one unit to one unit.

    Regular expressions.  The source's regular expressions are kept as syntax
    trees ([regex]) run by a backtracking matcher that follows the ECMAScript
    semantics (leftmost start, ordered alternation, greedy quantifiers, the
    [i] and [g] flags, [\b], [^] and [$]).  Every quantifier of the source
    applies to a single character or class, so the matcher recurses on the
    input and needs no fuel: it is total. *)

From Stdlib Require Import Ascii String DecimalString DecimalNat.
From Stdlib Require Import List ZArith Lia Bool Arith PeanoNat.
Import ListNotations.
Local Open Scope string_scope.
Local Open Scope list_scope.
Local Open Scope nat_scope.

(** A string of the source: a list of code units. *)
Definition str := list ascii.

(** String literals of the source. *)
Definition lit (s : string) : str := list_ascii_of_string s.

Module Char.

Definition code (c : ascii) : N := N_of_ascii c.

Definition between (lo hi : N) (c : ascii) : bool :=
  (lo <=? code c)%N && (code c <=? hi)%N.

(** [a-z] *)
Definition is_lower : ascii -> bool := between 97 122.
(** [A-Z] *)
Definition is_upper : ascii -> bool := between 65 90.
(** [0-9], the class [\d] *)
Definition is_digit : ascii -> bool := between 48 57.
(** [A-Za-z] *)
Definition is_alpha (c : ascii) : bool := is_lower c || is_upper c.

Definition is_char (x : ascii) (c : ascii) : bool := Ascii.eqb x c.

Definition underscore : ascii := "_"%char.
Definition hyphen : ascii := "-"%char.
Definition space : ascii := " "%char.
Definition newline : ascii := "010"%char.

(** [\w]: the word characters that [\b] looks at. *)
Definition is_word (c : ascii) : bool :=
  is_lower c || is_upper c || is_digit c || is_char underscore c.

(** [\s], and what [trim] strips: the WhiteSpace and LineTerminator code
    points below U+0100 are TAB, LF, VT, FF, CR, SP and NBSP. *)
Definition is_space (c : ascii) : bool :=
  between 9 13 c || is_char space c || (code c =? 160)%N.

(** ASCII case mapping, the one the [i] flag of a regular expression
    applies to the members of the source's classes. *)
Definition lower (c : ascii) : ascii :=
  if is_upper c then ascii_of_N (code c + 32) else c.
Definition upper (c : ascii) : ascii :=
  if is_lower c then ascii_of_N (code c - 32) else c.

(** [String.prototype.toLowerCase] on one code unit below U+0100: A-Z and
    the accented capitals U+00C0..U+00DE (without the sign U+00D7). *)
Definition toLowerCase (c : ascii) : ascii :=
  if is_upper c || (between 192 222 c && negb (code c =? 215)%N)
  then ascii_of_N (code c + 32) else c.

End Char.

Arguments Char.is_char : simpl never.
Arguments Char.between : simpl never.
Arguments Char.is_lower : simpl never.
Arguments Char.is_upper : simpl never.
Arguments Char.is_digit : simpl never.
Arguments Char.is_alpha : simpl never.
Arguments Char.is_word : simpl never.
Arguments Char.is_space : simpl never.
Arguments Char.toLowerCase : simpl never.

(** ** Library functions of JavaScript strings and arrays *)

Definition toLowerCase (s : str) : str := map Char.toLowerCase s.

(** [s.substring(0, n)] *)
Definition substring0 (n : nat) (s : str) : str := firstn n s.

Fixpoint trimStart (s : str) : str :=
  match s with
  | c :: s' => if Char.is_space c then trimStart s' else s
  | [] => []
  end.

Definition trimEnd (s : str) : str := rev (trimStart (rev s)).

(** [s.trim()] *)
Definition trim (s : str) : str := trimEnd (trimStart s).

(** [s.split(sep)] for a one-character separator: never an empty array. *)
Fixpoint split (sep : ascii) (s : str) : list str :=
  match s with
  | [] => [[]]
  | c :: s' =>
      if Ascii.eqb c sep then [] :: split sep s'
      else match split sep s' with
           | w :: ws => (c :: w) :: ws
           | [] => [[c]]
           end
  end.

(** [parts.join(sep)] *)
Fixpoint join (sep : str) (parts : list str) : str :=
  match parts with
  | [] => []
  | [p] => p
  | p :: ps => p ++ sep ++ join sep ps
  end.

(** Truthiness of a string value: the empty string is falsy. *)
Definition nonempty (s : str) : bool :=
  match s with [] => false | _ :: _ => true end.

(** ** Regular expressions of the source *)

Module Regex.

(** The syntax the source's expressions use.  A class is the predicate of
    its members; a quantifier applies to one class. *)
Inductive regex : Type :=
| Eps                                              (* empty pattern *)
| Chr (cls : ascii -> bool)                        (* [..], \d, \s, a literal *)
| NChr (cls : ascii -> bool)                       (* [^..] *)
| Seq (r1 r2 : regex)                              (* r1 r2 *)
| Alt (r1 r2 : regex)                              (* r1 | r2 *)
| Rep (lo : nat) (hi : option nat) (cls : ascii -> bool)
                                                   (* c{lo,hi}, c*, c+, c?: greedy *)
| WordB                                            (* \b *)
| Bol                                              (* ^ *)
| Eol                                              (* $ *)
| Cap (r : regex).                                 (* ( r ), group 1 *)

(** A literal string. *)
Fixpoint Lit (s : str) : regex :=
  match s with
  | [] => Eps
  | [c] => Chr (Char.is_char c)
  | c :: s' => Seq (Chr (Char.is_char c)) (Lit s')
  end.

(** [a1|a2|...|an] *)
Fixpoint Alts (rs : list regex) : regex :=
  match rs with
  | [] => Eps
  | [r] => r
  | r :: rs' => Alt r (Alts rs')
  end.

Definition Star := Rep 0 None.
Definition Plus := Rep 1 None.
Definition Opt := Rep 0 (Some 1).
Definition Times (lo hi : nat) := Rep lo (Some hi).

(** The matcher's position: the unit before it (for [\b]), the input that
    is left, the index, and the extent of group 1 once it has closed. *)
Record mstate : Type := MState {
  prev : option ascii;
  rest : str;
  pos : nat;
  cap : option (nat * nat)
}.

(** Membership under the [i] flag: the unit and a member have the same
    canonical form. *)
Definition member (ci : bool) (cls : ascii -> bool) (c : ascii) : bool :=
  if ci then cls c || cls (Char.upper c) || cls (Char.lower c) else cls c.

Definition word_at (o : option ascii) : bool :=
  match o with Some c => Char.is_word c | None => false end.

Definition next (s : str) : option ascii :=
  match s with c :: _ => Some c | [] => None end.

Definition may_take (hi : option nat) : bool :=
  match hi with Some 0 => false | _ => true end.

Definition Cont := mstate -> option mstate.

(** Greedy repetition of a class: take one more unit when the bound allows
    and the unit is a member, fall back to the continuation when the lower
    bound is met. *)
Fixpoint rep (t : ascii -> bool) (k : Cont) (s : str) (lo : nat)
         (hi : option nat) (p : option ascii) (i : nat)
         (cp : option (nat * nat)) : option mstate :=
  let stop := if (lo =? 0)%nat then k (MState p s i cp) else None in
  match s with
  | c :: s' =>
      if may_take hi && t c
      then match rep t k s' (Nat.pred lo) (option_map Nat.pred hi)
                     (Some c) (S i) cp with
           | Some r => Some r
           | None => stop
           end
      else stop
  | [] => stop
  end.

(** The backtracking matcher, in continuation style. *)
Fixpoint run (ci : bool) (r : regex) (k : Cont) (x : mstate)
  : option mstate :=
  match r with
  | Eps => k x
  | Chr cls =>
      match rest x with
      | c :: s' =>
          if member ci cls c then k (MState (Some c) s' (S (pos x)) (cap x))
          else None
      | [] => None
      end
  | NChr cls =>
    match rest x with
    | c :: s' =>
        if member ci cls c then None
        else k (MState (Some c) s' (S (pos x)) (cap x))
    | [] => None
    end
| Seq r1 r2 => run ci r1 (run ci r2 k) x
  | Alt r1 r2 =>
      match run ci r1 k x with
      | Some y => Some y
      | None => run ci r2 k x
      end
  | Rep lo hi cls =>
      rep (member ci cls) k (rest x) lo hi (prev x) (pos x) (cap x)
  | WordB =>
      if xorb (word_at (prev x)) (word_at (next (rest x))) then k x
      else None
  | Bol => match prev x with None => k x | Some _ => None end
  | Eol => match rest x with [] => k x | _ :: _ => None end
  | Cap r' =>
      run ci r' (fun y => k (MState (prev y) (rest y) (pos y)
                                    (Some (pos x, pos y)))) x
  end.

(** One attempt at a given index. *)
Definition attempt (ci : bool) (r : regex) (p : option ascii) (s : str)
           (i : nat) : option mstate :=
  run ci r (fun y => Some y) (MState p s i None).

(** The leftmost match: its start index and the final position. *)
Fixpoint search (ci : bool) (r : regex) (p : option ascii) (s : str)
         (i : nat) : option (nat * mstate) :=
  match attempt ci r p s i with
  | Some y => Some (i, y)
  | None =>
      match s with
      | c :: s' => search ci r (Some c) s' (S i)
      | [] => None
      end
  end.

Definition exec (ci : bool) (r : regex) (s : str) : option (nat * mstate) :=
  search ci r None s 0.

(** [s.slice(i, j)] *)
Definition slice (i j : nat) (s : str) : str := firstn (j - i) (skipn i s).

(** [s.match(r)] used as a condition. *)
Definition test (ci : bool) (r : regex) (s : str) : bool :=
  match exec ci r s with Some _ => true | None => false end.

(** [s.match(r)[1]]: the text of group 1 of the leftmost match. *)
Definition group1 (ci : bool) (r : regex) (s : str) : option str :=
  match exec ci r s with
  | Some (_, y) =>
      match cap y with
      | Some (i, j) => Some (slice i j s)
      | None => None
      end
  | None => None
  end.

(** [s.match(r)] with the [g] flag: all the matches from left to right.
    After a match the scan resumes at its end; [skip] counts the units of
    the last match still to pass.  An empty match moves on by one unit. *)
Fixpoint scan (ci : bool) (r : regex) (p : option ascii) (s : str)
         (i : nat) (skip : nat) : list (nat * nat) :=
  match skip with
  | S n =>
      match s with
      | c :: s' => scan ci r (Some c) s' (S i) n
      | [] => []
      end
  | O =>
      match attempt ci r p s i with
      | Some y =>
          (i, pos y) ::
          match s with
          | c :: s' => scan ci r (Some c) s' (S i) (Nat.pred (pos y - i))
          | [] => []
          end
      | None =>
          match s with
          | c :: s' => scan ci r (Some c) s' (S i) 0
          | [] => []
          end
      end
  end.

Definition match_all (ci : bool) (r : regex) (s : str) : list str :=
  map (fun ij => slice (fst ij) (snd ij) s) (scan ci r None s 0 0).

(** [s.replace(r, repl)] with the [g] flag and a replacement without [$]: the
    same scan, which copies the units between the matches and puts [repl] in
    the place of each match. *)
Fixpoint replace_scan (ci : bool) (r : regex) (repl : str) (p : option ascii)
         (s : str) (i : nat) (skip : nat) : str :=
  match skip with
  | S n =>
      match s with
      | c :: s' => replace_scan ci r repl (Some c) s' (S i) n
      | [] => []
      end
  | O =>
      match attempt ci r p s i with
      | Some y =>
          repl ++
          match s with
          | c :: s' =>
              if pos y =? i
              then c :: replace_scan ci r repl (Some c) s' (S i) 0
              else replace_scan ci r repl (Some c) s' (S i) (Nat.pred (pos y - i))
          | [] => []
          end
      | None =>
          match s with
          | c :: s' => c :: replace_scan ci r repl (Some c) s' (S i) 0
          | [] => []
          end
      end
  end.

Definition replace_all (ci : bool) (r : regex) (repl : str) (s : str) : str :=
  replace_scan ci r repl None s 0 0.

End Regex.

Import Regex.

(** ** sanitizeFileName (aiNaming.js, 243-249) *)

Module Sanitize.

(** [/[^a-z0-9_\-]/gi] *)
Definition re_invalid : regex :=
  NChr (fun c => Char.is_lower c || Char.is_digit c
                 || Char.is_char Char.underscore c
                 || Char.is_char Char.hyphen c).

(** [/_+/g] *)
Definition re_underscores : regex := Plus (Char.is_char Char.underscore).

(** [/^_|_$/g] *)
Definition re_ends : regex :=
  Alt (Seq Bol (Chr (Char.is_char Char.underscore)))
      (Seq (Chr (Char.is_char Char.underscore)) Eol).

(** The name before the cut at 50 characters. *)
Definition cleaned (name : str) : str :=
  replace_all false re_ends []
    (replace_all false re_underscores (lit "_")
       (replace_all true re_invalid (lit "_") name)).

End Sanitize.

Definition sanitizeFileName (name : str) : str :=
  let r := substring0 50 (Sanitize.cleaned name) in
  if nonempty r then r else lit "unnamed".

(** [r1 r2 ... rn] *)
Fixpoint Seqs (rs : list regex) : regex :=
  match rs with
  | [] => Eps
  | [r] => r
  | r :: rs' => Seq r (Seqs rs')
  end.

(** [\b(w1|w2|...)\b] *)
Definition words_re (ws : list string) : regex :=
  Seqs [WordB; Cap (Alts (map (fun w => Lit (lit w)) ws)); WordB].

Definition any_of (cs : string) (c : ascii) : bool :=
  existsb (fun x => Ascii.eqb x c) (lit cs).

Fixpoint str_eqb (a b : str) : bool :=
  match a, b with
  | [], [] => true
  | x :: a', y :: b' => Ascii.eqb x y && str_eqb a' b'
  | _, _ => false
  end.

(** ** detectDocumentType (aiNaming.js, 132-186) *)

Inductive docType : Type :=
| invoice | receipt | contract | letter | report | certificate
| form | memo | id_doc | ticket | document.

(** The string the source returns for each type. *)
Definition label (d : docType) : str :=
  lit match d with
      | invoice => "invoice" | receipt => "receipt" | contract => "contract"
      | letter => "letter" | report => "report"
      | certificate => "certificate" | form => "form" | memo => "memo"
      | id_doc => "id" | ticket => "ticket" | document => "document"
      end.

Module Patterns.

Definition re_invoice := words_re
  ["invoice"; "bill"; "billing"; "payment due"; "amount due";
   "total amount"; "subtotal"].
Definition re_receipt := words_re
  ["receipt"; "paid"; "transaction"; "purchase"; "sale"].
(** [/\$\d+|\d+\.\d{2}/] *)
Definition re_money :=
  Alt (Seq (Chr (Char.is_char "$")) (Plus Char.is_digit))
      (Seqs [Plus Char.is_digit; Chr (Char.is_char ".");
             Times 2 2 Char.is_digit]).
Definition re_contract := words_re
  ["contract"; "agreement"; "terms and conditions"; "hereby agree";
   "party"; "parties"].
Definition re_letter := words_re
  ["dear "; "sincerely"; "regards"; "yours truly"; "subject:"].
Definition re_report := words_re
  ["report"; "summary"; "analysis"; "findings"; "conclusion";
   "executive summary"].
Definition re_certificate := words_re
  ["certificate"; "certify"; "awarded"; "completion"; "achievement"].
Definition re_form := words_re
  ["form"; "application"; "questionnaire"; "survey"].
Definition re_fields := words_re ["name"; "address"; "date"; "signature"].
Definition re_memo := words_re
  ["memo"; "memorandum"; "note"; "to:"; "from:"; "re:"].
Definition re_id := words_re
  ["passport"; "identification"; "id card"; "driver license"; "permit"].
Definition re_ticket := words_re
  ["ticket"; "boarding pass"; "admission"; "entry"].

End Patterns.

Definition detectDocumentType (textLower : str) : docType :=
  if test false Patterns.re_invoice textLower then invoice
  else if test false Patterns.re_receipt textLower
          && test false Patterns.re_money textLower then receipt
  else if test false Patterns.re_contract textLower then contract
  else if test false Patterns.re_letter textLower then letter
  else if test false Patterns.re_report textLower then report
  else if test false Patterns.re_certificate textLower then certificate
  else if test false Patterns.re_form textLower
          && test false Patterns.re_fields textLower then form
  else if test false Patterns.re_memo textLower then memo
  else if test false Patterns.re_id textLower then id_doc
  else if test false Patterns.re_ticket textLower then ticket
  else document.

(** ** extractContext (aiNaming.js, 195-236) *)

Record context : Type := Context {
  company : option str;
  subject : option str;
  date : option str;
  amount : option str
}.

Module Fields.

(** [/(?:from|company|vendor)[\s:]+([A-Z][A-Za-z\s&,\.]{2,30})/i] *)
Definition re_company :=
  Seqs [Alts [Lit (lit "from"); Lit (lit "company"); Lit (lit "vendor")];
        Plus (fun c => Char.is_space c || Char.is_char ":" c);
        Cap (Seq (Chr Char.is_upper)
                 (Times 2 30 (fun c => Char.is_alpha c || Char.is_space c
                                       || any_of "&,." c)))].

(** [/(?:subject|re)[\s:]+([A-Za-z\s]{3,40})/i] *)
Definition re_subject :=
  Seqs [Alt (Lit (lit "subject")) (Lit (lit "re"));
        Plus (fun c => Char.is_space c || Char.is_char ":" c);
        Cap (Times 3 40 (fun c => Char.is_alpha c || Char.is_space c))].

Definition sep := Chr (any_of "/-").
Definition digits (lo hi : nat) := Times lo hi Char.is_digit.

(** [/\b(\d{1,2}[\/\-]\d{1,2}[\/\-]\d{2,4}|\d{4}[\/\-]\d{1,2}[\/\-]\d{1,2}|(?:Jan|...|Dec)[a-z]*\s+\d{1,2},?\s+\d{4})\b/i] *)
Definition re_date :=
  Seqs [WordB;
        Cap (Alts
          [Seqs [digits 1 2; sep; digits 1 2; sep; digits 2 4];
           Seqs [digits 4 4; sep; digits 1 2; sep; digits 1 2];
           Seqs [Alts (map (fun m => Lit (lit m))
                        ["Jan"; "Feb"; "Mar"; "Apr"; "May"; "Jun";
                         "Jul"; "Aug"; "Sep"; "Oct"; "Nov"; "Dec"]);
                 Star Char.is_lower; Plus Char.is_space; digits 1 2;
                 Opt (Char.is_char ","); Plus Char.is_space; digits 4 4]]);
        WordB].

(** [/(?:total|amount|sum)[\s:$]*(\d+[\.,]\d{2})/i] *)
Definition re_amount :=
  Seqs [Alts [Lit (lit "total"); Lit (lit "amount"); Lit (lit "sum")];
        Star (fun c => Char.is_space c || any_of ":$" c);
        Cap (Seqs [Plus Char.is_digit; Chr (any_of ".,");
                   Times 2 2 Char.is_digit])].

(** [.replace(/[\/\s,]/g, '-')] *)
Definition dashes (s : str) : str :=
  replace_all false
    (Chr (fun c => Char.is_char "/" c || Char.is_space c
                   || Char.is_char "," c))
    (lit "-") s.

(** [.replace(',', '')]: a string pattern replaces the first occurrence. *)
Fixpoint drop_comma (s : str) : str :=
  match s with
  | c :: s' => if Char.is_char "," c then s' else c :: drop_comma s'
  | [] => []
  end.

End Fields.

(** Truthiness of a field that may be unset. *)
Definition truthy (f : option str) : bool :=
  match f with Some s => nonempty s | None => false end.

Definition extractContext (text textLower : str) (docType : docType)
  : context :=
  let company :=
    match group1 true Fields.re_company text with
    | Some g => Some (substring0 20 (sanitizeFileName (trim g)))
    | None => None
    end in
  let subject :=
    match group1 true Fields.re_subject text with
    | Some g => Some (substring0 20 (sanitizeFileName (trim g)))
    | None => None
    end in
  let date :=
    match group1 true Fields.re_date text with
    | Some g => Some (Fields.dashes g)
    | None => None
    end in
  let amount :=
    match docType with
    | invoice | receipt =>
        match group1 true Fields.re_amount text with
        | Some g => Some (Fields.drop_comma g)
        | None => None
        end
    | _ => None
    end in
  let subject :=
    if negb (truthy subject) && negb (truthy company) then
      match filter (fun l => 3 <? length (trim l))
                   (split Char.newline text) with
      | l :: _ =>
          let firstLine := trim l in
          if (length firstLine <? 50) && (3 <? length firstLine)
          then Some (substring0 30 (sanitizeFileName firstLine))
          else subject
      | [] => subject
      end
    else subject in
  Context company subject date amount.

(** ** extractKeywords (aiNaming.js, 37-66) *)

Module Keywords.

Definition stopWords : list str := map lit
  ["the"; "is"; "at"; "which"; "on"; "a"; "an"; "and"; "or"; "but";
   "in"; "with"; "to"; "for"; "of"; "as"; "by"; "that"; "this";
   "it"; "from"; "be"; "are"; "was"; "were"; "been"; "have"; "has";
   "had"; "do"; "does"; "did"; "will"; "would"; "could"; "should";
   "may"; "might"; "can"; "so"; "if"; "than"; "all"; "any"; "some"].

(** [stopWords.has(word)] *)
Definition is_stop (w : str) : bool := existsb (str_eqb w) stopWords.

(** [/\b[a-z]+\b/g] *)
Definition re_word := Seqs [WordB; Plus Char.is_lower; WordB].

(** [word.length > 3 && !stopWords.has(word)] *)
Definition keep (w : str) : bool := (3 <? length w) && negb (is_stop w).

(** A value found under a key of [wordCount]: a number, the function that
    a fresh object inherits from [Object.prototype], or a string that is
    not the text of a number. *)
Inductive value : Type :=
| Num (n : nat)
| Fn
| Txt.

(** The object [wordCount]: its own properties, in insertion order (the
    keys are alphabetic, so [Object.entries] lists them in that order). *)
Definition object := list (str * value).

(** The names [Object.prototype] answers for.  Among them only
    [constructor] is made of lower-case letters, which is all that a word
    can be. *)
Definition inherited (w : str) : option value :=
  if str_eqb w (lit "constructor") then Some Fn else None.

Fixpoint own (o : object) (w : str) : option value :=
  match o with
  | (k, v) :: o' => if str_eqb k w then Some v else own o' w
  | [] => None
  end.

(** [wordCount[word]] *)
Definition get (o : object) (w : str) : option value :=
  match own o w with
  | Some v => Some v
  | None => inherited w
  end.

(** [(v || 0) + 1]: a number is incremented ([undefined] and [0] count as
    0); a function or a string is concatenated with ["1"]. *)
Definition bump (v : option value) : value :=
  match v with
  | None => Num 1
  | Some (Num n) => Num (n + 1)
  | Some Fn => Txt
  | Some Txt => Txt
  end.

(** [wordCount[word] = v]: an own property keeps its place, a new one goes
    last. *)
Fixpoint set (o : object) (w : str) (v : value) : object :=
  match o with
  | (k, u) :: o' =>
      if str_eqb k w then (k, v) :: o' else (k, u) :: set o' w v
  | [] => [(w, v)]
  end.

(** The body of the [forEach]. *)
Definition count_word (o : object) (w : str) : object :=
  if keep w then set o w (bump (get o w)) else o.

(** The comparator [(a, b) => b[1] - a[1]] says that [a] goes after [b]
    when the difference is positive; a difference that is not a number
    (one operand is a string) counts as zero. *)
Definition goes_after (a b : str * value) : bool :=
  match snd a, snd b with
  | Num x, Num y => x <? y
  | _, _ => false
  end.

(** [Array.prototype.sort] is stable: an element passes only those that
    the comparator puts strictly before it.  When all the counts are
    numbers the comparator is consistent and every stable sort gives this
    order.  When a count is not a number (the word [constructor]) the
    comparator is not consistent and the language leaves the order to the
    engine: the order below is then one the language allows, not
    necessarily the one the engine gives. *)
Fixpoint insert (a : str * value) (l : list (str * value))
  : list (str * value) :=
  match l with
  | b :: l' => if goes_after a b then b :: insert a l' else a :: l
  | [] => [a]
  end.

Fixpoint sort (l : list (str * value)) : list (str * value) :=
  match l with
  | a :: l' => insert a (sort l')
  | [] => []
  end.

End Keywords.

Definition extractKeywords (text : str) : list str :=
  let words := match_all false Keywords.re_word (toLowerCase text) in
  let wordCount := fold_left Keywords.count_word words [] in
  map fst (firstn 5 (Keywords.sort wordCount)).

(** ** identifyTopic (aiNaming.js, 74-125) *)

Definition part (f : option str) : list str :=
  match f with
  | Some s => if nonempty s then [s] else []
  | None => []
  end.

Definition identifyTopic (keywords : list str) (text : str) : str :=
  let textLower := toLowerCase text in
  let docType := detectDocumentType textLower in
  let context := extractContext text textLower docType in
  let nameParts :=
    (match docType with document => [] | _ => [label docType] end)
    ++ part (company context) ++ part (subject context)
    ++ part (date context) ++ part (amount context) in
  if 0 <? length nameParts then
    join (lit "_") (firstn 4 nameParts)
  else if 0 <? length keywords then
    join (lit "_") (firstn 3 keywords)
  else
    let firstWords :=
      join (lit "_")
           (firstn 3 (filter (fun word => 3 <? length word)
                             (split Char.space text))) in
    if nonempty firstWords then toLowerCase firstWords else lit "document".

(** ** generateAIFileName (aiNaming.js, 10-30) *)

(** [.replace(/\n/g, ' ').replace(/\s+/g, ' ').trim()] *)
Definition cleanText (extractedText : str) : str :=
  trim (replace_all false (Plus Char.is_space) (lit " ")
          (replace_all false (Chr (Char.is_char Char.newline)) (lit " ")
             extractedText)).

(** The name before the caller's suffix: what [generateAIFileName] puts in
    front of the underscore, the time stamp and the extension. *)
Definition classifyAndName (extractedText : str) : str :=
  if negb (nonempty extractedText) || (length (trim extractedText) =? 0)
  then lit "empty_document"
  else
    let clean := cleanText extractedText in
    let keywords := extractKeywords clean in
    let topic := identifyTopic keywords clean in
    sanitizeFileName topic.

(** The clock is an input: [now] is the text of [Date.now()] and [iso] that
    of [new Date().toISOString()]. *)
Definition generateAIFileName (extractedText originalExtension : str)
           (now iso : str) : str :=
  if negb (nonempty extractedText) || (length (trim extractedText) =? 0)
  then lit "empty_document_" ++ now ++ originalExtension
  else
    let timestamp :=
      substring0 19 (replace_all false (Chr (any_of ":.")) (lit "-") iso) in
    classifyAndName extractedText ++ lit "_" ++ timestamp
    ++ originalExtension.


(** * The statistics store (server/database.js)

    The SQLite tables are lists of rows in insertion order, with the
    AUTOINCREMENT sequences beside them.  Each helper is the state
    transformer of its SQL statements on the path where the storage layer
    reports no error.  [datetime('now')] is an input [now], in seconds; the
    difference of two [julianday]s times 86400, a REAL, is the difference of
    the two times.  Integers and REALs are unbounded. *)

Module Db.

Definition time := Z.

Module User.
(** A row of [dbt2_user]. *)
Record t : Type := Make {
  id : nat;
  user_queue_position : str;
  total_files_uploaded : Z;
  total_files_treated : Z;
  total_files_not_treated : Z;
  extraction_start_timestamp : option time;
  extraction_end_timestamp : option time;
  total_processing_time : Z
}.
End User.

Module File.
(** A row of [dbt3_file]. *)
Record t : Type := Make {
  id : nat;
  file_name : str;
  user_queue_position : str;
  ai_file_name : str;
  file_type : str;
  output_file_type : str;
  detected_language : option str;
  extraction_start_timestamp : option time;
  extraction_end_timestamp : option time;
  file_processing_time : option Z;
  extraction_state : str
}.
End File.

(** The counters of the one row of [dbt1_developer]. *)
Record developer : Type := Developer {
  total_number_of_users : Z;
  total_files_uploaded : Z
}.

Record t : Type := Make {
  dbt1_developer : developer;
  dbt2_user : list User.t;
  dbt2_seq : nat;
  dbt3_file : list File.t;
  dbt3_seq : nat
}.

(** The tables after [initializeTables] on a new database file. *)
Definition empty : t := Make (Developer 0 0) [] 0 [] 0.

Definition is_user (userPosition : str) (u : User.t) : bool :=
  str_eqb (User.user_queue_position u) userPosition.

(** [UPDATE dbt2_user SET ... WHERE user_queue_position = ?] *)
Definition update_user (userPosition : str) (f : User.t -> User.t) (d : t)
  : t :=
  Make (dbt1_developer d)
       (map (fun u => if is_user userPosition u then f u else u)
            (dbt2_user d))
       (dbt2_seq d) (dbt3_file d) (dbt3_seq d).

(** [UPDATE dbt3_file SET ... WHERE id = ?] *)
Definition update_file (fileId : nat) (f : File.t -> File.t) (d : t) : t :=
  Make (dbt1_developer d) (dbt2_user d) (dbt2_seq d)
       (map (fun r => if File.id r =? fileId then f r else r)
            (dbt3_file d))
       (dbt3_seq d).

(** The decimal text of a number, as string concatenation prints it. *)
Definition decimal (n : nat) : str :=
  lit (NilEmpty.string_of_uint (Nat.to_uint n)).

(** [getNextUserPosition]: ['user' + (row.count + 1)]. *)
Definition getNextUserPosition (d : t) : str :=
  lit "user" ++ decimal (length (dbt2_user d) + 1).

(** [createUser]: the column is UNIQUE, so a position that is already
    there is refused; otherwise the row gets the defaults of the schema
    and the callback the new row id. *)
Definition createUser (userPosition : str) (d : t) : t * option nat :=
  if existsb (is_user userPosition) (dbt2_user d) then (d, None)
  else
    let i := S (dbt2_seq d) in
    (Make (dbt1_developer d)
          (dbt2_user d ++ [User.Make i userPosition 0 0 0 None None 0])
          i (dbt3_file d) (dbt3_seq d),
     Some i).

(** The argument of [addFile]. *)
Record fileData : Type := FileData {
  fd_file_name : str;
  fd_user_queue_position : str;
  fd_ai_file_name : str;
  fd_file_type : str;
  fd_output_file_type : str
}.

(** [addFile]: the INSERT names the state ['processing'] and the start
    time; the other columns are NULL.  Foreign keys are not enforced (the
    pragma is never set). *)
Definition addFile (fd : fileData) (now : time) (d : t) : t * nat :=
  let i := S (dbt3_seq d) in
  (Make (dbt1_developer d) (dbt2_user d) (dbt2_seq d)
        (dbt3_file d ++
         [File.Make i (fd_file_name fd) (fd_user_queue_position fd)
                    (fd_ai_file_name fd) (fd_file_type fd)
                    (fd_output_file_type fd) None (Some now) None None
                    (lit "processing")])
        i,
   i).

(** The SET clause of [updateFileAfterOCR]. *)
Definition complete (detectedLanguage state : str) (now : time)
           (r : File.t) : File.t :=
  File.Make (File.id r) (File.file_name r) (File.user_queue_position r)
            (File.ai_file_name r) (File.file_type r)
            (File.output_file_type r)
            (Some detectedLanguage)
            (File.extraction_start_timestamp r)
            (Some now)
            (option_map (fun start => now - start)%Z
                        (File.extraction_start_timestamp r))
            state.

Definition updateFileAfterOCR (fileId : nat) (detectedLanguage state : str)
           (now : time) (d : t) : t :=
  update_file fileId (complete detectedLanguage state now) d.

Definition set_uploaded (v : Z) (u : User.t) : User.t :=
  User.Make (User.id u) (User.user_queue_position u) v
            (User.total_files_treated u) (User.total_files_not_treated u)
            (User.extraction_start_timestamp u)
            (User.extraction_end_timestamp u)
            (User.total_processing_time u).

(** [updateUserStats] *)
Definition updateUserStats (userPosition : str) (d : t) : t :=
  update_user userPosition
    (fun u => set_uploaded (User.total_files_uploaded u + 1) u) d.

(** [updateUserExtractionStart] *)
Definition updateUserExtractionStart (userPosition : str) (now : time)
           (d : t) : t :=
  update_user userPosition
    (fun u =>
       User.Make (User.id u) (User.user_queue_position u)
                 (User.total_files_uploaded u) (User.total_files_treated u)
                 (User.total_files_not_treated u) (Some now)
                 (User.extraction_end_timestamp u)
                 (User.total_processing_time u)) d.

(** The SET clause shared by [updateUserExtractionEnd] and its bulk
    variant. *)
Definition record_end (treated notTreated : Z) (now : time) (u : User.t)
  : User.t :=
  User.Make (User.id u) (User.user_queue_position u)
            (User.total_files_uploaded u)
            (User.total_files_treated u + treated)
            (User.total_files_not_treated u + notTreated)
            (User.extraction_start_timestamp u) (Some now)
            (User.total_processing_time u).

(** [SELECT COALESCE(SUM(file_processing_time), 0) FROM dbt3_file
     WHERE user_queue_position = ? AND extraction_state = 'success']:
    SUM skips NULL. *)
Definition is_success_of (userPosition : str) (r : File.t) : bool :=
  str_eqb (File.user_queue_position r) userPosition
  && str_eqb (File.extraction_state r) (lit "success").

Definition duration (r : File.t) : Z :=
  match File.file_processing_time r with Some v => v | None => 0 end.

Definition sum_success (userPosition : str) (d : t) : Z :=
  fold_right Z.add 0%Z
    (map duration (filter (is_success_of userPosition) (dbt3_file d))).

(** [updateUserTotalProcessingTime] *)
Definition updateUserTotalProcessingTime (userPosition : str) (d : t) : t :=
  let total := sum_success userPosition d in
  update_user userPosition
    (fun u =>
       User.Make (User.id u) (User.user_queue_position u)
                 (User.total_files_uploaded u) (User.total_files_treated u)
                 (User.total_files_not_treated u)
                 (User.extraction_start_timestamp u)
                 (User.extraction_end_timestamp u) total) d.

(** [updateUserExtractionEnd] *)
Definition updateUserExtractionEnd (userPosition : str) (success : bool)
           (now : time) (d : t) : t :=
  let treated := if success then 1%Z else 0%Z in
  let notTreated := if success then 0%Z else 1%Z in
  updateUserTotalProcessingTime userPosition
    (update_user userPosition (record_end treated notTreated now) d).

(** [updateUserExtractionEndBulk] *)
Definition updateUserExtractionEndBulk (userPosition : str)
           (successCount failCount : Z) (now : time) (d : t) : t :=
  updateUserTotalProcessingTime userPosition
    (update_user userPosition (record_end successCount failCount now) d).

Definition update_developer (f : developer -> developer) (d : t) : t :=
  Make (f (dbt1_developer d)) (dbt2_user d) (dbt2_seq d) (dbt3_file d)
       (dbt3_seq d).

(** [incrementFileCount] *)
Definition incrementFileCount : t -> t :=
  update_developer
    (fun v => Developer (total_number_of_users v)
                        (total_files_uploaded v + 1)).

(** [incrementUserCount] *)
Definition incrementUserCount : t -> t :=
  update_developer
    (fun v => Developer (total_number_of_users v + 1)
                        (total_files_uploaded v)).

(** [ORDER BY id DESC]: a row goes after those of greater id. *)
Fixpoint place (r : File.t) (l : list File.t) : list File.t :=
  match l with
  | x :: l' => if File.id r <? File.id x then x :: place r l' else r :: l
  | [] => [r]
  end.

Fixpoint by_id_desc (l : list File.t) : list File.t :=
  match l with
  | r :: l' => place r (by_id_desc l')
  | [] => []
  end.

(** [getUserFiles]: [SELECT * FROM dbt3_file WHERE user_queue_position = ?
    ORDER BY id DESC]. *)
Definition getUserFiles (userPosition : str) (d : t) : list File.t :=
  by_id_desc
    (filter (fun r => str_eqb (File.user_queue_position r) userPosition)
            (dbt3_file d)).

(** Reading a row back. *)
Definition user_of (userPosition : str) (d : t) : option User.t :=
  find (is_user userPosition) (dbt2_user d).

Definition file_of (fileId : nat) (d : t) : option File.t :=
  find (fun r => File.id r =? fileId) (dbt3_file d).

End Db.

(** * The callers of the store (server/server.js)

    The route handlers issue the helpers' statements one after the other on
    one connection; the store runs them in that order. *)

Module Server.
Import Db.

(** [UPDATE dbt3_file SET ai_file_name = ? WHERE id = ?] *)
Definition setAiFileName (fileId : nat) (aiFileName : str) : Db.t -> Db.t :=
  update_file fileId
    (fun r =>
       File.Make (File.id r) (File.file_name r) (File.user_queue_position r)
                 aiFileName (File.file_type r) (File.output_file_type r)
                 (File.detected_language r)
                 (File.extraction_start_timestamp r)
                 (File.extraction_end_timestamp r)
                 (File.file_processing_time r) (File.extraction_state r)).

(** POST /api/get-user-session, one request served alone: the position is
    read, then inserted. *)
Definition getUserSession (d : Db.t) : Db.t * option str :=
  let userPosition := getNextUserPosition d in
  match createUser userPosition d with
  | (d', Some _) => (incrementUserCount d', Some userPosition)
  | (d', None) => (d', None)
  end.

(** [n] session requests served one after the other: the store at the end
    and the positions handed out. *)
Fixpoint sessions (n : nat) (d : Db.t) : Db.t * list (option str) :=
  match n with
  | O => (d, [])
  | S n' =>
      let (d1, r) := getUserSession d in
      let (d2, rs) := sessions n' d1 in
      (d2, r :: rs)
  end.

(** Session requests that overlap.  Each request does two things to the
    store, with the event loop free to run other callbacks in between:
    it reads the next position, and later it inserts it. *)
Inductive event : Type :=
| Read (caller : nat)
| Insert (caller : nat).

Record pool : Type := Pool {
  store : Db.t;
  (** the position each caller got from [getNextUserPosition] *)
  allocated : list (nat * str)
}.

Definition held (caller : nat) (p : pool) : option str :=
  match find (fun e => fst e =? caller) (allocated p) with
  | Some e => Some (snd e)
  | None => None
  end.

Definition step (p : pool) (e : event) : pool :=
  match e with
  | Read caller =>
      Pool (store p)
           (allocated p ++ [(caller, getNextUserPosition (store p))])
  | Insert caller =>
      match held caller p with
      | Some userPosition =>
          Pool (match createUser userPosition (store p) with
                | (d', Some _) => incrementUserCount d'
                | (d', None) => d'
                end)
               (allocated p)
      | None => p
      end
  end.

Definition schedule (es : list event) (d : Db.t) : pool :=
  fold_left step es (Pool d []).

(** The tokens [getNextUserPosition] returned, in the order of the calls. *)
Definition tokens (p : pool) : list str := map snd (allocated p).

(** POST /api/upload for one file, after the checks of the request.  The
    record is created, the counters and the window are stamped, then the
    outcome is recorded.  The engine either throws ([ocr] is [None]) or
    gives a text; with a text the three success statements are issued and
    the handler goes on, in the same [try], to write the output file and
    to remove the upload ([fs.writeFileSync], [fs.unlinkSync]); [written]
    says that this went through.  When it throws instead (the output
    directory of the position is not there, say) the [catch] of the engine
    runs as well, after the success statements: the record is completed
    again, as failed, and a failure is counted on top of the success.

    The statements of one tick read the same clock; the clock readings are
    inputs.  [updateUserExtractionEnd] issues its recomputation of the
    total from a callback, that is after the statements of the [catch];
    the total it leaves is the one computed last, on the file table as the
    [catch] left it, which is what the sequence below computes last too.
    A stream that fails after the handler has returned (the PDF branch)
    ends the process and is outside this model. *)
Definition upload (fd : fileData) (fileExtension : str)
           (ocr : option str) (written : bool) (t0 t1 : time)
           (now iso : str) (d : Db.t)
  : Db.t * nat :=
  let userPosition := fd_user_queue_position fd in
  let (d1, fileId) := addFile fd t0 d in
  let d2 := updateUserExtractionStart userPosition t0
              (incrementFileCount (updateUserStats userPosition d1)) in
  let caught (x : Db.t) :=
    updateUserExtractionEnd userPosition false t1
      (updateFileAfterOCR fileId (lit "unknown") (lit "failed") t1 x) in
  match ocr with
  | Some extractedText =>
      let detectedLanguage :=
        if nonempty extractedText then lit "eng" else lit "unknown" in
      let aiFileName :=
        generateAIFileName extractedText fileExtension now iso in
      let d3 :=
        updateUserExtractionEnd userPosition true t1
          (setAiFileName fileId aiFileName
             (updateFileAfterOCR fileId detectedLanguage (lit "success") t1
                                 d2)) in
      (if written then d3 else caught d3, fileId)
  | None => (caught d2, fileId)
  end.

End Server.

(** ** The aggregator's operations on one queue entry *)

Module Aggregator.
Import Db.

Inductive op : Type :=
| Uploaded                                   (* updateUserStats *)
| Started (now : time)                       (* updateUserExtractionStart *)
| Ended (success : bool) (now : time)        (* updateUserExtractionEnd *)
| EndedBulk (successCount failCount : Z) (now : time).
                                             (* updateUserExtractionEndBulk *)

Definition apply (userPosition : str) (d : Db.t) (o : op) : Db.t :=
  match o with
  | Uploaded => updateUserStats userPosition d
  | Started now => updateUserExtractionStart userPosition now d
  | Ended success now => updateUserExtractionEnd userPosition success now d
  | EndedBulk s f now => updateUserExtractionEndBulk userPosition s f now d
  end.

Definition run (userPosition : str) (ops : list op) (d : Db.t) : Db.t :=
  fold_left (apply userPosition) ops d.

End Aggregator.

(** ** The helpers as calls

    A call of one helper of [dbHelpers], or the statement that the upload
    handlers issue on their own, with its arguments. *)

Module Calls.
Import Db.

Inductive call : Type :=
| CreateUser (userPosition : str)
| AddFile (fd : fileData) (now : time)
| UpdateFileAfterOCR (fileId : nat) (detectedLanguage state : str)
                     (now : time)
| SetAiFileName (fileId : nat) (aiFileName : str)
| UpdateUserStats (userPosition : str)
| UpdateUserExtractionStart (userPosition : str) (now : time)
| UpdateUserExtractionEnd (userPosition : str) (success : bool) (now : time)
| UpdateUserExtractionEndBulk (userPosition : str)
                              (successCount failCount : Z) (now : time)
| UpdateUserTotalProcessingTime (userPosition : str)
| IncrementFileCount
| IncrementUserCount.

Definition issue (d : Db.t) (c : call) : Db.t :=
  match c with
  | CreateUser p => fst (createUser p d)
  | AddFile fd now => fst (addFile fd now d)
  | UpdateFileAfterOCR i l s now => updateFileAfterOCR i l s now d
  | SetAiFileName i n => Server.setAiFileName i n d
  | UpdateUserStats p => updateUserStats p d
  | UpdateUserExtractionStart p now => updateUserExtractionStart p now d
  | UpdateUserExtractionEnd p b now => updateUserExtractionEnd p b now d
  | UpdateUserExtractionEndBulk p s f now =>
      updateUserExtractionEndBulk p s f now d
  | UpdateUserTotalProcessingTime p => updateUserTotalProcessingTime p d
  | IncrementFileCount => incrementFileCount d
  | IncrementUserCount => incrementUserCount d
  end.

Definition issue_all (cs : list call) (d : Db.t) : Db.t :=
  fold_left issue cs d.

End Calls.

(** ** The upload routes (server/server.js) *)

Module Routes.
Import Db Server.

(** [/jpeg|jpg|png|gif|bmp|tiff|pdf/] *)
Definition allowedTypes : regex :=
  Alts (map (fun w => Lit (lit w))
            ["jpeg"; "jpg"; "png"; "gif"; "bmp"; "tiff"; "pdf"]).

(** The [fileFilter] of the upload: [extension] is what [path.extname]
    gives for the original name. *)
Definition fileFilter (extension mimetype : str) : bool :=
  let extname := test false allowedTypes (toLowerCase extension) in
  let mimetype := test false allowedTypes mimetype in
  mimetype && extname.

(** One file of a bulk request, with what the handler reads for it: the
    names derived from the original name, the outcome of the OCR engine,
    whether the output file could then be written and the upload removed,
    and the clock readings. *)
Record job : Type := Job {
  originalName : str;
  fileType : str;
  fileExtension : str;
  tempAIFileName : str;
  ocr : option str;
  written : bool;
  t0 : time;
  t1 : time;
  now : str;
  iso : str
}.

(** The [fileData] of both handlers; a format that is missing or empty
    becomes ['TXT']. *)
Definition fileData_of (userPosition outputFormat : str) (j : job)
  : fileData :=
  FileData (originalName j) userPosition (tempAIFileName j) (fileType j)
           (if nonempty outputFormat then outputFormat else lit "TXT").

(** The body of the loop of POST /api/upload-bulk for one file: the store
    and whether the file succeeded.  The [catch] of the loop takes a throw
    of the engine and a throw of the writes that follow the two success
    statements alike: it completes the record as failed and reports a
    failure. *)
Definition bulk_file (userPosition outputFormat : str) (d : Db.t) (j : job)
  : Db.t * bool :=
  let (d1, fileId) := addFile (fileData_of userPosition outputFormat j)
                              (t0 j) d in
  let d2 := incrementFileCount (updateUserStats userPosition d1) in
  let caught (x : Db.t) :=
    updateFileAfterOCR fileId (lit "unknown") (lit "failed") (t1 j) x in
  match ocr j with
  | Some extractedText =>
      let detectedLanguage :=
        if nonempty extractedText then lit "eng" else lit "unknown" in
      let aiFileName :=
        generateAIFileName extractedText (fileExtension j) (now j) (iso j) in
      let d3 :=
        setAiFileName fileId aiFileName
          (updateFileAfterOCR fileId detectedLanguage (lit "success") (t1 j)
                              d2) in
      if written j then (d3, true) else (caught d3, false)
  | None => (caught d2, false)
  end.

Fixpoint bulk_loop (userPosition outputFormat : str) (d : Db.t)
         (jobs : list job) : Db.t * list bool :=
  match jobs with
  | j :: jobs' =>
      let (d1, success) := bulk_file userPosition outputFormat d j in
      let (d2, results) := bulk_loop userPosition outputFormat d1 jobs' in
      (d2, success :: results)
  | [] => (d, [])
  end.

(** POST /api/upload-bulk: a request with more than ten files does not
    get past [upload.array('files', 10)], and one without files, or without
    a user position, is answered 400 before any statement; otherwise the
    window is opened, the files are handled in turn and the counts of the
    batch are recorded. *)
Definition uploadBulk (userPosition outputFormat : str) (jobs : list job)
           (start finish : time) (d : Db.t) : Db.t * option (list bool) :=
  if (10 <? length jobs) || (length jobs =? 0)
     || negb (nonempty userPosition) then (d, None)
  else
    let d0 := updateUserExtractionStart userPosition start d in
    let (d1, results) := bulk_loop userPosition outputFormat d0 jobs in
    let successCount := length (filter (fun r => r) results) in
    let failCount := length results - successCount in
    (updateUserExtractionEndBulk userPosition (Z.of_nat successCount)
                                 (Z.of_nat failCount) finish d1,
     Some results).

(** POST /api/upload for the same file, served alone. *)
Definition uploadSingle (userPosition outputFormat : str) (d : Db.t)
           (j : job) : Db.t :=
  fst (upload (fileData_of userPosition outputFormat j) (fileExtension j)
              (ocr j) (written j) (t0 j) (t1 j) (now j) (iso j) d).

(** A request to one of the three routes that write to the store.  The
    single upload is answered 400 when the user position is missing. *)
Inductive request : Type :=
| GetUserSession
| Upload (userPosition outputFormat : str) (j : job)
| UploadBulk (userPosition outputFormat : str) (jobs : list job)
             (start finish : time).

Definition handle (d : Db.t) (r : request) : Db.t :=
  match r with
  | GetUserSession => fst (getUserSession d)
  | Upload userPosition outputFormat j =>
      if nonempty userPosition then uploadSingle userPosition outputFormat d j
      else d
  | UploadBulk userPosition outputFormat jobs start finish =>
      fst (uploadBulk userPosition outputFormat jobs start finish d)
  end.

(** Requests served one after the other. *)
Definition serve (rs : list request) (d : Db.t) : Db.t :=
  fold_left handle rs d.

End Routes.
(** * Predicates of the specification *)

(** ** The steps of the sanitizer, on lists *)

Module Cleaning.

(** The characters that the class [[^a-z0-9_\-]] with the flag [i] leaves
    alone: the ASCII letters of either case, the digits, [_] and [-]. *)
Definition allowed (c : ascii) : bool :=
  Char.is_lower c || Char.is_upper c || Char.is_digit c
  || Char.is_char Char.underscore c || Char.is_char Char.hyphen c.

(** Every other character becomes an underscore. *)
Definition replace_invalid (s : str) : str :=
  map (fun c => if allowed c then c else Char.underscore) s.

(** Every maximal run of underscores becomes one underscore. *)
Fixpoint collapse (s : str) : str :=
  match s with
  | c :: s' =>
      if Char.is_char Char.underscore c
      then match s' with
           | d :: _ => if Char.is_char Char.underscore d then collapse s'
                       else c :: collapse s'
           | [] => [c]
           end
      else c :: collapse s'
  | [] => []
  end.

(** An underscore at the start goes, then one at the end of what is
    left. *)
Definition strip_leading (s : str) : str :=
  match s with
  | c :: s' => if Char.is_char Char.underscore c then s' else s
  | [] => []
  end.

Fixpoint strip_trailing (s : str) : str :=
  match s with
  | [] => []
  | [c] => if Char.is_char Char.underscore c then [] else [c]
  | c :: s' => c :: strip_trailing s'
  end.

Definition strip_ends (s : str) : str := strip_trailing (strip_leading s).

End Cleaning.

(** ** Shape of a sanitized name *)

Module Shape.
Import Cleaning.

(** Two underscores in a row somewhere in the string. *)
Fixpoint doubled (s : str) : bool :=
  match s with
  | c :: s' =>
      match s' with
      | d :: _ =>
          (Char.is_char Char.underscore c && Char.is_char Char.underscore d)
          || doubled s'
      | [] => false
      end
  | [] => false
  end.

(** A name of the shape [^[A-Za-z0-9_-]{1,50}$]. *)
Definition well_formed (s : str) : Prop :=
  s <> [] /\ length s <= 50 /\ Forall (fun c => allowed c = true) s.



(** An input of 51 characters that the first three steps leave alone. *)
Definition long_name : str := repeat "a"%char 49 ++ lit "_b".

End Shape.


(** ** The classifier's rules, as the specification lists them *)

Module Classifier.

Definition rule : Type := docType * (str -> bool).

Definition rules : list rule :=
  [ (invoice, test false Patterns.re_invoice);
    (receipt, fun t => test false Patterns.re_receipt t
                       && test false Patterns.re_money t);
    (contract, test false Patterns.re_contract);
    (letter, test false Patterns.re_letter);
    (report, test false Patterns.re_report);
    (certificate, test false Patterns.re_certificate);
    (form, fun t => test false Patterns.re_form t
                    && test false Patterns.re_fields t);
    (memo, test false Patterns.re_memo);
    (id_doc, test false Patterns.re_id);
    (ticket, test false Patterns.re_ticket) ].

(** The label of the first rule that matches, [document] when none. *)
Fixpoint first_match (rs : list rule) (textLower : str) : docType :=
  match rs with
  | (d, matches) :: rs' =>
      if matches textLower then d else first_match rs' textLower
  | [] => document
  end.

End Classifier.

(** ** The invoice scenario *)

Module Scenario.

(** ["INVOICE\nFrom: Acme Corp\nTotal: $123.45\n01/02/2023"] *)
Definition text : str :=
  lit "INVOICE" ++ [Char.newline] ++ lit "From: Acme Corp"
  ++ [Char.newline] ++ lit "Total: $123.45" ++ [Char.newline]
  ++ lit "01/02/2023".

End Scenario.

(** ** Queue entries and file records *)

Module Ledger.
Import Db Aggregator.

(** What a list of operations records: uploads, successes, failures. *)
Definition uploads (ops : list op) : Z :=
  fold_right (fun o n => match o with Uploaded => n + 1 | _ => n end)%Z
             0%Z ops.

Definition successes (ops : list op) : Z :=
  fold_right (fun o n => match o with
                         | Ended true _ => n + 1
                         | EndedBulk s _ _ => n + s
                         | _ => n
                         end)%Z 0%Z ops.

Definition failures (ops : list op) : Z :=
  fold_right (fun o n => match o with
                         | Ended false _ => n + 1
                         | EndedBulk _ f _ => n + f
                         | _ => n
                         end)%Z 0%Z ops.

(** The outcomes of a batch, one file at a time. *)
Definition outcomes (now : time) (results : list bool) : list op :=
  map (fun success => Ended success now) results.



(** The identifiers of the file table come from its sequence. *)
Definition ids_ok (d : Db.t) : Prop :=
  Forall (fun r => File.id r <= dbt3_seq d) (dbt3_file d).

(** The position that the [i]-th session gets. *)
Definition token (i : nat) : str := lit "user" ++ decimal i.

(** The user table holds the positions user1, user2, ... in this order. *)
Definition positions_ok (d : Db.t) : Prop :=
  map User.user_queue_position (dbt2_user d) =
  map token (seq 1 (length (dbt2_user d))).

(** A store with one queue entry and nothing else. *)
Definition one_user : Db.t := fst (createUser (lit "user1") Db.empty).

Definition a_file : fileData :=
  FileData (lit "scan.png") (lit "user1") (lit "processing_1700000000000.png")
           (lit "PNG") (lit "TXT").

(** A store with a success of 7 seconds and a failure. *)
Definition two_files : Db.t :=
  let d1 := fst (Server.upload Ledger.a_file (lit ".png")
                   (Some (lit "Hello World")) true 0%Z 7%Z
                   (lit "1700000000000")
                   (lit "2023-11-14T22:13:20.000Z") Ledger.one_user) in
  fst (Server.upload Ledger.a_file (lit ".png") None true 10%Z 12%Z
         (lit "1700000010000") (lit "2023-11-14T22:13:30.000Z") d1).

(** What holds of the callers of a schedule: the table is in order and a
    position that a caller holds is at most one beyond the table. *)
Definition pool_ok (p : Server.pool) : Prop :=
  positions_ok (Server.store p) /\
  Forall (fun e => exists i,
              1 <= i <= length (dbt2_user (Server.store p)) + 1 /\
              snd e = token i) (Server.allocated p).

End Ledger.

(** ** Tokens and their ranking *)

Module Ranking.

(** The longest prefix of characters of a class, and what follows it. *)
Fixpoint leading (P : ascii -> bool) (s : str) : str :=
  match s with
  | c :: s' => if P c then c :: leading P s' else []
  | [] => []
  end.

Fixpoint after (P : ascii -> bool) (s : str) : str :=
  match s with
  | c :: s' => if P c then after P s' else s
  | [] => []
  end.

(** The maximal runs of characters of a class, from left to right. *)
Fixpoint runs (P : ascii -> bool) (s : str) : list str :=
  match s with
  | [] => []
  | c :: s' =>
      if P c then
        match s' with
        | d :: _ =>
            if P d then
              match runs P s' with
              | w :: ws => (c :: w) :: ws
              | [] => [[c]]
              end
            else [c] :: runs P s'
        | [] => [[c]]
        end
      else runs P s'
  end.

(** The alphabetic runs of a lower-cased text. *)
Definition alpha_runs (s : str) : list str := runs Char.is_lower s.

(** The runs of word characters (letters, digits, underscore) that are
    made of lower-case letters only: an alphabetic run counts when no
    digit, underscore or capital touches it. *)
Definition bounded_words (s : str) : list str :=
  filter (forallb Char.is_lower) (runs Char.is_word s).

(** The words of a list, each once, in the order of first occurrence. *)
Fixpoint distinct (ws : list str) : list str :=
  match ws with
  | w :: ws' => w :: filter (fun v => negb (str_eqb v w)) (distinct ws')
  | [] => []
  end.

Definition frequency (w : str) (ws : list str) : nat :=
  length (filter (str_eqb w) ws).

Definition tally (ws : list str) : list (str * nat) :=
  map (fun w => (w, frequency w ws)) (distinct ws).

(** The entry of greatest count, the first of them when several have it,
    and the list without that entry. *)
Fixpoint best (l : list (str * nat)) : option (str * nat) :=
  match l with
  | a :: l' =>
      match best l' with
      | Some b => if snd a <? snd b then Some b else Some a
      | None => Some a
      end
  | [] => None
  end.

Fixpoint rest_of (l : list (str * nat)) : list (str * nat) :=
  match l with
  | a :: l' =>
      match best l' with
      | Some b => if snd a <? snd b then a :: rest_of l' else l'
      | None => l'
      end
  | [] => []
  end.

(** The first [n] entries by descending count, ties by first occurrence. *)
Fixpoint top (n : nat) (l : list (str * nat)) : list (str * nat) :=
  match n with
  | S n' =>
      match best l with
      | Some b => b :: top n' (rest_of l)
      | None => []
      end
  | O => []
  end.

(** What [top] leaves: the list without its [n] best entries. *)
Fixpoint left_over (n : nat) (l : list (str * nat)) : list (str * nat) :=
  match n with
  | S n' =>
      match best l with
      | Some _ => left_over n' (rest_of l)
      | None => []
      end
  | O => l
  end.

(** [a] comes before [b] in [l]. *)
Definition before (l : list (str * nat)) (a b : str * nat) : Prop :=
  exists l1 l2 l3, l = l1 ++ a :: l2 ++ b :: l3.

(** The keywords of a list of tokens: drop the short ones and the stop
    words, count, keep the five most frequent. *)
Definition keywords_of (tokens : list str) : list str :=
  map fst (top 5 (tally (filter Keywords.keep tokens))).

(** The operation as the specification words it: the tokens are the
    alphabetic runs of the lower-cased text. *)
Definition stated (text : str) : list str :=
  keywords_of (alpha_runs (toLowerCase text)).

(** Insertion sort on counted entries, as [Keywords.sort] does it on
    entries whose values are numbers. *)
Fixpoint insert (a : str * nat) (l : list (str * nat)) : list (str * nat) :=
  match l with
  | b :: l' => if snd a <? snd b then b :: insert a l' else a :: l
  | [] => [a]
  end.

Fixpoint sort (l : list (str * nat)) : list (str * nat) :=
  match l with
  | a :: l' => insert a (sort l')
  | [] => []
  end.

Definition entry (e : str * nat) : str * Keywords.value :=
  (fst e, Keywords.Num (snd e)).

(** The continuation of [\b] at the end of the pattern. *)
Definition at_boundary : Regex.Cont :=
  Regex.run false Regex.WordB (fun y => Some y).

(** The texts of a list of matches. *)
Definition texts (s0 : str) (l : list (nat * nat)) : list str :=
  map (fun ij => Regex.slice (fst ij) (snd ij) s0) l.

(** Membership of a word in a list. *)
Definition mem (w : str) (ws : list str) : bool := existsb (str_eqb w) ws.

(** The object that holds the counts [f] of the keys [K]. *)
Definition counted (f : str -> nat) (K : list str) : Keywords.object :=
  map (fun v => (v, Keywords.Num (f v))) K.

End Ranking.

(** ** Further predicates *)

Module Text.

(** [w] occurs in [s]. *)
Definition occurs (w s : str) : Prop :=
  exists pre post, s = pre ++ w ++ post.

(** Every maximal run of characters of a class becomes [r]. *)
Fixpoint squeeze (P : ascii -> bool) (r : ascii) (s : str) : str :=
  match s with
  | c :: s' =>
      if P c
      then match s' with
           | d :: _ => if P d then squeeze P r s' else r :: squeeze P r s'
           | [] => [r]
           end
      else c :: squeeze P r s'
  | [] => []
  end.

(** Two characters of a class in a row somewhere in the string. *)
Fixpoint paired (P : ascii -> bool) (s : str) : bool :=
  match s with
  | c :: s' =>
      match s' with
      | d :: _ => (P c && P d) || paired P s'
      | [] => false
      end
  | [] => false
  end.

(** The characters that are not white space, in order. *)
Definition ink (s : str) : str :=
  filter (fun c => negb (Char.is_space c)) s.

(** A string that does not begin with an underscore. *)
Definition headed (s : str) : Prop :=
  forall rest, s <> Char.underscore :: rest.

(** The keys of [wordCount] are kept words of the text, each once. *)
Definition keys_ok (words : list str) (o : Keywords.object) : Prop :=
  NoDup (map fst o) /\
  Forall (fun k => Keywords.keep k = true /\ In k words) (map fst o).

(** The steps of [cleanText] before the trim, on lists. *)
Definition spread (t : str) : str :=
  squeeze Char.is_space Char.space
    (map (fun c => if Char.is_char Char.newline c then Char.space else c) t).

(** A non-empty name of at most [n] letters, digits, underscores and
    hyphens. *)
Definition name_within (n : nat) (s : str) : Prop :=
  s <> [] /\ length s <= n /\ Forall (fun c => Cleaning.allowed c = true) s.

(** What holds of a field that may be unset. *)
Definition when_set (P : str -> Prop) (f : option str) : Prop :=
  match f with Some s => P s | None => True end.

(** The parts of the name that [identifyTopic] collects. *)
Definition nameParts (text : str) : list str :=
  let textLower := toLowerCase text in
  let docType := detectDocumentType textLower in
  let context := extractContext text textLower docType in
  (match docType with document => [] | _ => [label docType] end)
  ++ part (company context) ++ part (subject context)
  ++ part (date context) ++ part (amount context).

End Text.

(** ** The words of the rules *)

Module Vocabulary.

(** [w] is at the start of [s]. *)
Fixpoint starts (w s : str) : bool :=
  match w, s with
  | [], _ => true
  | c :: w', d :: s' => Ascii.eqb c d && starts w' s'
  | _ :: _, [] => false
  end.

(** The words of the first pattern of each rule. *)
Definition words (d : docType) : list string :=
  match d with
  | invoice => ["invoice"; "bill"; "billing"; "payment due"; "amount due";
                "total amount"; "subtotal"]
  | receipt => ["receipt"; "paid"; "transaction"; "purchase"; "sale"]
  | contract => ["contract"; "agreement"; "terms and conditions";
                 "hereby agree"; "party"; "parties"]
  | letter => ["dear "; "sincerely"; "regards"; "yours truly"; "subject:"]
  | report => ["report"; "summary"; "analysis"; "findings"; "conclusion";
               "executive summary"]
  | certificate => ["certificate"; "certify"; "awarded"; "completion";
                    "achievement"]
  | form => ["form"; "application"; "questionnaire"; "survey"]
  | memo => ["memo"; "memorandum"; "note"; "to:"; "from:"; "re:"]
  | id_doc => ["passport"; "identification"; "id card"; "driver license";
               "permit"]
  | ticket => ["ticket"; "boarding pass"; "admission"; "entry"]
  | document => []
  end.

(** The words of the second pattern of the form rule. *)
Definition fields : list string := ["name"; "address"; "date"; "signature"].

(** The names of the upload filter. *)
Definition types : list string :=
  ["jpeg"; "jpg"; "png"; "gif"; "bmp"; "tiff"; "pdf"].

(** One of the words occurs in the text. *)
Definition has_one (ws : list string) (s : str) : Prop :=
  exists w, In w ws /\ Text.occurs (lit w) s.

End Vocabulary.

(** ** What the rules of the classifier read in a text *)

Module Reading.
Import Vocabulary.

(** The last unit of a string. *)
Fixpoint final (s : str) : option ascii :=
  match s with
  | [] => None
  | [c] => Some c
  | _ :: s' => final s'
  end.

(** The first unit of a string. *)
Definition first (s : str) : option ascii :=
  match s with c :: _ => Some c | [] => None end.

(** The unit before the position that follows [s], [p] being the unit
    before [s]. *)
Definition after (p : option ascii) (s : str) : option ascii :=
  match final s with Some c => Some c | None => p end.

Definition wordy (o : option ascii) : bool :=
  match o with Some c => Char.is_word c | None => false end.

(** A word boundary lies between two neighbours of which exactly one is a
    letter, a digit or an underscore; the ends of the text count as none
    of these. *)
Definition edge (before behind : option ascii) : bool :=
  xorb (wordy before) (wordy behind).

(** [w] stands in [s] with a word boundary on either side. *)
Definition whole (w s : str) : Prop :=
  exists pre post,
    s = pre ++ w ++ post /\
    edge (final pre) (first (w ++ post)) = true /\
    edge (final (pre ++ w)) (first post) = true.

(** One of the words stands in the text as a whole. *)
Definition has_whole (ws : list string) (s : str) : Prop :=
  exists w, In w ws /\ whole (lit w) s.

(** An amount of money: a dollar sign and a digit, or a digit, a point and
    two digits. *)
Definition money (s : str) : Prop :=
  (exists pre d post,
      s = pre ++ "$"%char :: d :: post /\ Char.is_digit d = true) \/
  (exists pre a b c post,
      s = pre ++ a :: "."%char :: b :: c :: post /\
      Char.is_digit a = true /\ Char.is_digit b = true /\
      Char.is_digit c = true).

(** The text has what the rule of the type asks for. *)
Definition fits (d : docType) (s : str) : Prop :=
  match d with
  | receipt => has_whole (words receipt) s /\ money s
  | form => has_whole (words form) s /\ has_whole fields s
  | document => True
  | _ => has_whole (words d) s
  end.

(** The place of a type in the order of the rules. *)
Definition rank (d : docType) : nat :=
  match d with
  | invoice => 0 | receipt => 1 | contract => 2 | letter => 3
  | report => 4 | certificate => 5 | form => 6 | memo => 7
  | id_doc => 8 | ticket => 9 | document => 10
  end.

End Reading.

(** ** The shape of the store *)

Module Store.
Import Db.

(** The numbers grow, from above [lo]. *)
Fixpoint rising (lo : nat) (l : list nat) : Prop :=
  match l with
  | x :: l' => lo < x /\ rising x l'
  | [] => True
  end.

(** The keys of the two tables: positions are not repeated, and the ids of
    each table grow with insertion and stay within the table's sequence. *)
Definition sound (d : Db.t) : Prop :=
  NoDup (map User.user_queue_position (dbt2_user d)) /\
  rising 0 (map User.id (dbt2_user d)) /\
  Forall (fun u => User.id u <= dbt2_seq d) (dbt2_user d) /\
  rising 0 (map File.id (dbt3_file d)) /\
  Forall (fun r => File.id r <= dbt3_seq d) (dbt3_file d).

(** The columns of a queue entry other than the two stamps of the
    window. *)
Definition counters (u : User.t) : nat * str * Z * Z * Z * Z :=
  (User.id u, User.user_queue_position u, User.total_files_uploaded u,
   User.total_files_treated u, User.total_files_not_treated u,
   User.total_processing_time u).

(** The record that [addFile] inserts. *)
Definition inserted (fd : fileData) (now : time) (d : Db.t) : File.t :=
  File.Make (S (dbt3_seq d)) (fd_file_name fd) (fd_user_queue_position fd)
            (fd_ai_file_name fd) (fd_file_type fd) (fd_output_file_type fd)
            None (Some now) None None (lit "processing").

(** The engine gave a text for the file. *)
Definition read (j : Routes.job) : bool :=
  match Routes.ocr j with Some _ => true | None => false end.

(** The file went through: a text, and the output written. *)
Definition won (j : Routes.job) : bool := read j && Routes.written j.

(** The engine gave a text and the output could not be written. *)
Definition spoilt (j : Routes.job) : bool :=
  read j && negb (Routes.written j).

(** The outcomes of a batch, as the bulk handler reports them. *)
Definition succeeded (jobs : list Routes.job) : list bool := map won jobs.

(** The same files sent one request each. *)
Definition one_by_one (userPosition outputFormat : str)
           (jobs : list Routes.job) (d : Db.t) : Db.t :=
  fold_left (Routes.uploadSingle userPosition outputFormat) jobs d.

(** The columns of the store that the file statements write. *)
Definition files_side (d : Db.t) : developer * list File.t * nat :=
  (dbt1_developer d, dbt3_file d, dbt3_seq d).

(** A queue entry after [n] uploads, [k] successes and [m] failures, with
    the window and the total it is left with. *)
Definition served (n k m : Z) (start finish : option time) (total : Z)
           (u : User.t) : User.t :=
  User.Make (User.id u) (User.user_queue_position u)
            (User.total_files_uploaded u + n)
            (User.total_files_treated u + k)
            (User.total_files_not_treated u + m)
            start finish total.

Definition wins (jobs : list Routes.job) : Z :=
  Z.of_nat (length (filter (fun r => r) (succeeded jobs))).

Definition losses (jobs : list Routes.job) : Z :=
  Z.of_nat (length (filter negb (succeeded jobs))).

(** The files of a batch for which the engine gave a text. *)
Definition reads (jobs : list Routes.job) : Z :=
  Z.of_nat (length (filter read jobs)).

(** The files of a batch that were read and then not written. *)
Definition spoils (jobs : list Routes.job) : Z :=
  Z.of_nat (length (filter spoilt jobs)).

(** A batch of three files: the first goes through, the engine throws on
    the second, the third is read and its output cannot be written. *)
Definition a_batch : list Routes.job :=
  [Routes.Job (lit "a.png") (lit "PNG") (lit ".png")
              (lit "processing_1.png") (Some (lit "Invoice 12")) true
              1%Z 4%Z (lit "1") (lit "2024-01-02T03:04:05.000Z");
   Routes.Job (lit "b.png") (lit "PNG") (lit ".png")
              (lit "processing_2.png") None true
              5%Z 6%Z (lit "2") (lit "2024-01-02T03:04:09.000Z");
   Routes.Job (lit "c.png") (lit "PNG") (lit ".png")
              (lit "processing_3.png") (Some (lit "Dear John")) false
              7%Z 9%Z (lit "3") (lit "2024-01-02T03:04:12.000Z")].

(** The counters of the developer row are the sizes of the tables. *)
Definition sized (d : Db.t) : Prop :=
  total_number_of_users (dbt1_developer d)
    = Z.of_nat (length (dbt2_user d)) /\
  Db.total_files_uploaded (dbt1_developer d)
    = Z.of_nat (length (dbt3_file d)).

(** Every queue entry has an outcome for each of its uploads, and at most
    a success and a failure for one upload. *)
Definition bounded (d : Db.t) : Prop :=
  sized d /\
  Forall (fun u => (0 <= User.total_files_treated u
                    <= User.total_files_uploaded u)%Z /\
                   (0 <= User.total_files_not_treated u
                    <= User.total_files_uploaded u)%Z /\
                   (User.total_files_uploaded u
                    <= User.total_files_treated u
                       + User.total_files_not_treated u)%Z) (dbt2_user d).

(** Every queue entry has one outcome for each of its uploads. *)
Definition balanced (d : Db.t) : Prop :=
  sized d /\
  Forall (fun u => (User.total_files_treated u
                    + User.total_files_not_treated u
                    = User.total_files_uploaded u)%Z) (dbt2_user d).

(** A request none of whose single uploads is read and then not
    written. *)
Definition clean (r : Routes.request) : bool :=
  match r with
  | Routes.Upload _ _ j => negb (spoilt j)
  | _ => true
  end.

(** A session, then an upload whose output cannot be written. *)
Definition a_spoilt_upload : list Routes.request :=
  [Routes.GetUserSession;
   Routes.Upload (lit "user1") (lit "TXT")
     (Routes.Job (lit "c.png") (lit "PNG") (lit ".png")
                 (lit "processing_3.png") (Some (lit "Dear John")) false
                 7%Z 9%Z (lit "3") (lit "2024-01-02T03:04:12.000Z"))].

End Store.

(** * Properties of the naming core *)

(** ** The replacements of the sanitizer *)

Module ReplaceFacts.
Import Cleaning Ranking.

Lemma is_char_eq (x c : ascii) : Char.is_char x c = true <-> c = x.
Proof.
  unfold Char.is_char. rewrite Ascii.eqb_eq. split; congruence.
Qed.

(** Under the flag [i] the class [[a-z0-9_\-]] has the members [allowed]. *)
Lemma member_allowed (c : ascii) :
  member true (fun c => Char.is_lower c || Char.is_digit c
                        || Char.is_char Char.underscore c
                        || Char.is_char Char.hyphen c) c
  = allowed c.
Proof.
  destruct c as [[] [] [] [] [] [] [] []]; vm_compute; reflexivity.
Qed.

Lemma step_past (i : nat) :
  (S i =? i) = false /\ Nat.pred (S i - i) = 0.
Proof.
  split; [apply Nat.eqb_neq; lia | lia].
Qed.

(** [.replace(/[^a-z0-9_\-]/gi, '_')] *)
Lemma replace_invalid_scan (s : str) :
  forall p i,
    replace_scan true Sanitize.re_invalid (lit "_") p s i 0
    = replace_invalid s.
Proof.
  induction s as [|c s IH]; intros p i; [reflexivity|].
  unfold Sanitize.re_invalid, attempt.
  cbn [replace_scan attempt run rest pos cap prev].
  rewrite member_allowed. unfold replace_invalid. cbn [map].
  destruct (allowed c).
  - f_equal. apply IH.
  - cbn [pos]. destruct (step_past i) as [-> ->].
    cbn [app lit list_ascii_of_string]. f_equal. apply IH.
Qed.

(** A greedy run with nothing after it takes every member it meets. *)
Lemma rep_all (t : ascii -> bool) (s : str) :
  forall lo p i cp,
    (lo <= length (leading t s) ->
     exists q, rep t (fun y => Some y) s lo None p i cp
               = Some (MState q (after t s) (i + length (leading t s)) cp))
    /\
    (length (leading t s) < lo ->
     rep t (fun y => Some y) s lo None p i cp = None).
Proof.
  induction s as [|c s IH]; intros lo p i cp.
  - cbn [rep leading after length]. split; intros H.
    + assert (lo = 0) by lia. subst lo. cbn [Nat.eqb].
      exists p. rewrite Nat.add_0_r. reflexivity.
    + destruct lo as [|lo]; [lia | reflexivity].
  - cbn [rep leading after may_take andb option_map].
    destruct (t c) eqn:Et.
    + cbn [length]. destruct (IH (Nat.pred lo) (Some c) (S i) cp)
        as [H1 H2].
      split; intros H.
      * destruct H1 as [q Hq]; [lia|]. rewrite Hq. exists q.
        f_equal. f_equal. lia.
      * rewrite H2 by lia. destruct lo as [|lo]; [lia | reflexivity].
    + cbn [length]. split; intros H.
      * assert (lo = 0) by lia. subst lo. cbn [Nat.eqb].
        exists p. rewrite Nat.add_0_r. reflexivity.
      * destruct lo as [|lo]; [lia | reflexivity].
Qed.

Lemma attempt_underscores (p : option ascii) (s : str) (i : nat) :
  match s with
  | c :: s' =>
      if Char.is_char Char.underscore c
      then exists q,
          attempt false Sanitize.re_underscores p s i
          = Some (MState q (after (Char.is_char Char.underscore) s')
                         (S i + length
                                  (leading (Char.is_char Char.underscore) s'))
                         None)
      else attempt false Sanitize.re_underscores p s i = None
  | [] => attempt false Sanitize.re_underscores p s i = None
  end.
Proof.
  pose proof (rep_all (Char.is_char Char.underscore) s 1 p i None) as H.
  change (attempt false Sanitize.re_underscores p s i)
    with (rep (Char.is_char Char.underscore) (fun y => Some y) s 1 None
              p i None).
  destruct s as [|c s']; [reflexivity|].
  cbn [leading after length] in H.
  destruct (Char.is_char Char.underscore c).
  - destruct H as [[q Hq] _]; [cbn [length]; lia|].
    exists q. rewrite Hq. cbn [length]. f_equal. f_equal. lia.
  - apply H. cbn [length]. lia.
Qed.

Lemma collapse_run (s : str) :
  forall c,
    Char.is_char Char.underscore c = true ->
    collapse (c :: s)
    = c :: collapse (after (Char.is_char Char.underscore) s).
Proof.
  induction s as [|d s IH]; intros c Hc.
  - cbn [collapse after]. rewrite Hc. reflexivity.
  - change (collapse (c :: d :: s))
      with (if Char.is_char Char.underscore c
            then if Char.is_char Char.underscore d then collapse (d :: s)
                 else c :: collapse (d :: s)
            else c :: collapse (d :: s)).
    rewrite Hc. cbn [after].
    destruct (Char.is_char Char.underscore d) eqn:Ed; [|reflexivity].
    rewrite (IH d Ed). apply is_char_eq in Hc, Ed. congruence.
Qed.

Lemma collapse_other (c : ascii) (s : str) :
  Char.is_char Char.underscore c = false ->
  collapse (c :: s) = c :: collapse s.
Proof. intros H. cbn [collapse]. rewrite H. reflexivity. Qed.

Lemma replace_skip (ci : bool) (r : regex) (repl : str) (p : option ascii)
      (c : ascii) (s : str) (i n : nat) :
  replace_scan ci r repl p (c :: s) i (S n)
  = replace_scan ci r repl (Some c) s (S i) n.
Proof. reflexivity. Qed.

Lemma replace_none (ci : bool) (r : regex) (repl : str) (p : option ascii)
      (c : ascii) (s : str) (i : nat) :
  attempt ci r p (c :: s) i = None ->
  replace_scan ci r repl p (c :: s) i 0
  = c :: replace_scan ci r repl (Some c) s (S i) 0.
Proof. intros H. cbn [replace_scan]. rewrite H. reflexivity. Qed.

Lemma replace_some (ci : bool) (r : regex) (repl : str) (p : option ascii)
      (c : ascii) (s : str) (i n : nat) (y : mstate) :
  attempt ci r p (c :: s) i = Some y -> pos y = S i + n ->
  replace_scan ci r repl p (c :: s) i 0
  = repl ++ replace_scan ci r repl (Some c) s (S i) n.
Proof.
  intros H Hy. cbn [replace_scan]. rewrite H, Hy.
  replace (S i + n =? i) with false by (symmetry; apply Nat.eqb_neq; lia).
  replace (Nat.pred (S i + n - i)) with n by lia. reflexivity.
Qed.

Lemma replace_nil (ci : bool) (r : regex) (repl : str) (p : option ascii)
      (i : nat) :
  attempt ci r p [] i = None -> replace_scan ci r repl p [] i 0 = [].
Proof. intros H. cbn [replace_scan]. rewrite H. reflexivity. Qed.

(** [.replace(/_+/g, '_')] *)
Lemma collapse_scan (s : str) :
  (forall p i,
      replace_scan false Sanitize.re_underscores (lit "_") p s i 0
      = collapse s) /\
  (forall p i,
      replace_scan false Sanitize.re_underscores (lit "_") p s i
                   (length (leading (Char.is_char Char.underscore) s))
      = collapse (after (Char.is_char Char.underscore) s)).
Proof.
  induction s as [|c s [IH1 IH2]].
  - split; intros p i; apply replace_nil, (attempt_underscores p [] i).
  - assert (H1 : forall p i,
               replace_scan false Sanitize.re_underscores (lit "_") p
                            (c :: s) i 0
               = collapse (c :: s)).
    { intros p i. pose proof (attempt_underscores p (c :: s) i) as Ha.
      cbn beta iota in Ha.
      destruct (Char.is_char Char.underscore c) eqn:Ec.
      - destruct Ha as [q Ha].
        rewrite (replace_some _ _ _ _ _ _ _ _ _ Ha eq_refl), IH2.
        rewrite (collapse_run s c Ec). apply is_char_eq in Ec. subst c.
        reflexivity.
      - rewrite (replace_none _ _ _ _ _ _ _ Ha), IH1.
        symmetry. apply collapse_other, Ec. }
    split; [exact H1|]. intros p i. cbn [leading after].
    destruct (Char.is_char Char.underscore c) eqn:Ec.
    + cbn [length]. rewrite replace_skip. apply IH2.
    + apply H1.
Qed.

Lemma attempt_ends (p : option ascii) (s : str) (i : nat) :
  attempt false Sanitize.re_ends p s i =
  match s with
  | c :: s' =>
      if Char.is_char Char.underscore c
         && match p, s' with
            | None, _ => true
            | Some _, [] => true
            | Some _, _ :: _ => false
            end
      then Some (MState (Some c) s' (S i) None)
      else None
  | [] => None
  end.
Proof.
  unfold attempt, Sanitize.re_ends.
  cbn [run prev rest pos cap member].
  destruct s as [|c s']; [destruct p; reflexivity|].
  destruct (Char.is_char Char.underscore c), p, s'; reflexivity.
Qed.

Lemma strip_trailing_other (c : ascii) (s : str) :
  Char.is_char Char.underscore c = false \/ s <> [] ->
  strip_trailing (c :: s) = c :: strip_trailing s.
Proof.
  destruct s as [|d s]; [|reflexivity].
  intros [H | H]; [|contradiction]. cbn [strip_trailing]. rewrite H.
  reflexivity.
Qed.

(** [.replace(/^_|_$/g, '')] *)
Lemma strip_scan (s : str) :
  (forall q i,
      replace_scan false Sanitize.re_ends [] (Some q) s i 0
      = strip_trailing s) /\
  (forall i,
      replace_scan false Sanitize.re_ends [] None s i 0 = strip_ends s).
Proof.
  induction s as [|c s [IH1 IH2]].
  - split; intros; apply replace_nil, attempt_ends.
  - assert (H1 : forall q i,
               replace_scan false Sanitize.re_ends [] (Some q) (c :: s) i 0
               = strip_trailing (c :: s)).
    { intros q i. pose proof (attempt_ends (Some q) (c :: s) i) as Ha.
      cbn beta iota in Ha.
      destruct (Char.is_char Char.underscore c) eqn:Ec; destruct s as [|d s].
      - cbn [andb] in Ha.
        rewrite (replace_some _ _ _ _ _ _ _ 0 _ Ha)
          by (cbn [pos]; lia).
        rewrite IH1. cbn [strip_trailing app]. rewrite Ec. reflexivity.
      - cbn [andb] in Ha. rewrite (replace_none _ _ _ _ _ _ _ Ha), IH1.
        symmetry. apply strip_trailing_other. right. discriminate.
      - cbn [andb] in Ha. rewrite (replace_none _ _ _ _ _ _ _ Ha), IH1.
        symmetry. apply strip_trailing_other. left. exact Ec.
      - cbn [andb] in Ha. rewrite (replace_none _ _ _ _ _ _ _ Ha), IH1.
        symmetry. apply strip_trailing_other. left. exact Ec. }
    split; [exact H1|]. intros i.
    pose proof (attempt_ends None (c :: s) i) as Ha. cbn beta iota in Ha.
    unfold strip_ends. cbn [strip_leading].
    destruct (Char.is_char Char.underscore c) eqn:Ec.
    + cbn [andb] in Ha.
      rewrite (replace_some _ _ _ _ _ _ _ 0 _ Ha) by (cbn [pos]; lia).
      rewrite IH1. reflexivity.
    + cbn [andb] in Ha. rewrite (replace_none _ _ _ _ _ _ _ Ha), IH1.
      symmetry. apply strip_trailing_other. left. exact Ec.
Qed.

(** The three replacements of [sanitizeFileName], on lists. *)
Lemma cleaned_eq (name : str) :
  Sanitize.cleaned name = strip_ends (collapse (replace_invalid name)).
Proof.
  unfold Sanitize.cleaned, replace_all.
  rewrite replace_invalid_scan.
  rewrite (proj1 (collapse_scan _)).
  apply (proj2 (strip_scan _)).
Qed.

End ReplaceFacts.
(** ** sanitizeFileName *)

Module SanitizeFacts.
Import Cleaning Shape.

Lemma allowed_underscore : allowed Char.underscore = true.
Proof. reflexivity. Qed.

Lemma replace_invalid_allowed (s : str) :
  Forall (fun c => allowed c = true) (replace_invalid s).
Proof.
  unfold replace_invalid. apply Forall_forall. intros c Hc.
  apply in_map_iff in Hc. destruct Hc as [x [Hx _]].
  destruct (allowed x) eqn:E; subst; auto.
Qed.

Lemma collapse_incl (s : str) : incl (collapse s) s.
Proof.
  induction s as [|c s IH]; simpl; [apply incl_refl|].
  destruct (Char.is_char Char.underscore c).
  - destruct s as [|d s'].
    + apply incl_refl.
    + destruct (Char.is_char Char.underscore d).
      * apply incl_tl, IH.
      * apply incl_cons; [left; reflexivity | apply incl_tl, IH].
  - apply incl_cons; [left; reflexivity | apply incl_tl, IH].
Qed.

Lemma strip_leading_incl (s : str) : incl (strip_leading s) s.
Proof.
  destruct s as [|c s]; simpl; [apply incl_refl|].
  destruct (Char.is_char Char.underscore c);
    [apply incl_tl, incl_refl | apply incl_refl].
Qed.

(** What [strip_trailing] returns is a prefix of its argument. *)
Lemma strip_trailing_prefix (s : str) :
  exists t, s = strip_trailing s ++ t.
Proof.
  induction s as [|c s IH]; [exists []; reflexivity|].
  destruct s as [|d s'].
  - simpl. destruct (Char.is_char Char.underscore c);
      [exists [c] | exists []]; reflexivity.
  - destruct IH as [t Ht]. exists t.
    change (strip_trailing (c :: d :: s'))
      with (c :: strip_trailing (d :: s')).
    rewrite <- app_comm_cons. f_equal. exact Ht.
Qed.

Lemma strip_trailing_incl (s : str) : incl (strip_trailing s) s.
Proof.
  destruct (strip_trailing_prefix s) as [t Ht].
  intros x Hx. rewrite Ht. apply in_or_app. left. exact Hx.
Qed.

Lemma firstn_incl (n : nat) (s : str) : incl (firstn n s) s.
Proof.
  intros x Hx. rewrite <- (firstn_skipn n s). apply in_or_app. now left.
Qed.

Lemma doubled_prefix (s t : str) :
  doubled (s ++ t) = false -> doubled s = false.
Proof.
  induction s as [|c s IH]; [reflexivity|].
  destruct s as [|d s']; [reflexivity|].
  change (doubled ((c :: d :: s') ++ t))
    with ((Char.is_char Char.underscore c && Char.is_char Char.underscore d)
          || doubled ((d :: s') ++ t)).
  change (doubled (c :: d :: s'))
    with ((Char.is_char Char.underscore c && Char.is_char Char.underscore d)
          || doubled (d :: s')).
  intros H. apply orb_false_iff in H. destruct H as [H1 H2].
  rewrite H1. simpl. apply IH, H2.
Qed.

Lemma doubled_tail (c : ascii) (s : str) :
  doubled (c :: s) = false -> doubled s = false.
Proof.
  destruct s as [|d s']; [reflexivity|].
  change (doubled (c :: d :: s'))
    with ((Char.is_char Char.underscore c && Char.is_char Char.underscore d)
          || doubled (d :: s')).
  intros H. apply orb_false_iff in H. apply H.
Qed.

(** [collapse] keeps the first character. *)
Lemma collapse_head (s : str) : hd_error (collapse s) = hd_error s.
Proof.
  induction s as [|c s IH]; [reflexivity|]. simpl.
  destruct (Char.is_char Char.underscore c) eqn:Ec; [|reflexivity].
  destruct s as [|d s']; [reflexivity|].
  destruct (Char.is_char Char.underscore d) eqn:Ed; [|reflexivity].
  rewrite IH. simpl.
  apply ReplaceFacts.is_char_eq in Ec. apply ReplaceFacts.is_char_eq in Ed. congruence.
Qed.

Lemma collapse_not_doubled (s : str) : doubled (collapse s) = false.
Proof.
  induction s as [|c s IH]; [reflexivity|].
  assert (Hcons : forall d s',
             s = d :: s' -> Char.is_char Char.underscore c
                            && Char.is_char Char.underscore d = false ->
             doubled (c :: collapse s) = false).
  { intros d s' -> Hcd.
    pose proof (collapse_head (d :: s')) as Hh.
    destruct (collapse (d :: s')) as [|e r] eqn:E; [discriminate|].
    simpl in Hh. injection Hh as ->.
    change (doubled (c :: d :: r))
      with ((Char.is_char Char.underscore c
             && Char.is_char Char.underscore d) || doubled (d :: r)).
    rewrite Hcd, IH. reflexivity. }
  simpl. destruct (Char.is_char Char.underscore c) eqn:Ec.
  - destruct s as [|d s']; [reflexivity|].
    destruct (Char.is_char Char.underscore d) eqn:Ed; [exact IH|].
    apply (Hcons d s' eq_refl). exact Ed.
  - destruct s as [|d s']; [reflexivity|].
    apply (Hcons d s' eq_refl). reflexivity.
Qed.

Lemma strip_ends_not_doubled (s : str) :
  doubled s = false -> doubled (strip_ends s) = false.
Proof.
  intros H. unfold strip_ends.
  assert (H1 : doubled (strip_leading s) = false).
  { destruct s as [|c s]; [reflexivity|]. simpl.
    destruct (Char.is_char Char.underscore c);
      [eapply doubled_tail; eauto | exact H]. }
  destruct (strip_trailing_prefix (strip_leading s)) as [t Ht].
  rewrite Ht in H1. eapply doubled_prefix; eauto.
Qed.

Lemma firstn_not_doubled (n : nat) (s : str) :
  doubled s = false -> doubled (firstn n s) = false.
Proof.
  intros H. rewrite <- (firstn_skipn n s) in H.
  eapply doubled_prefix; eauto.
Qed.

(** [doubled] says what it should: the string contains ["__"]. *)
Lemma doubled_spec (s : str) :
  doubled s = true <->
  exists a b, s = a ++ [Char.underscore; Char.underscore] ++ b.
Proof.
  induction s as [|c s IH].
  - split; [discriminate|]. intros [a [b H]]. destruct a; discriminate.
  - destruct s as [|d s'].
    + split; [discriminate|]. intros [a [b H]].
      destruct a as [|x [|y a]]; discriminate.
    + change (doubled (c :: d :: s'))
        with ((Char.is_char Char.underscore c
               && Char.is_char Char.underscore d) || doubled (d :: s')).
      rewrite orb_true_iff, andb_true_iff, !ReplaceFacts.is_char_eq, IH. split.
      * intros [[-> ->] | [a [b H]]].
        -- exists [], s'. reflexivity.
        -- exists (c :: a), b. rewrite H. reflexivity.
      * intros [a [b H]]. destruct a as [|x a].
        -- simpl in H. injection H as -> -> _. left. split; reflexivity.
        -- simpl in H. injection H as -> H. right. exists a, b. exact H.
Qed.

Lemma sanitize_cases (name : str) :
  sanitizeFileName name = lit "unnamed" \/
  (firstn 50 (strip_ends (collapse (replace_invalid name))) <> [] /\
   sanitizeFileName name =
     firstn 50 (strip_ends (collapse (replace_invalid name)))).
Proof.
  unfold sanitizeFileName, substring0. rewrite ReplaceFacts.cleaned_eq.
  destruct (firstn 50 (strip_ends (collapse (replace_invalid name))))
    as [|c r] eqn:E; simpl; [left; reflexivity|].
  right. split; [discriminate | reflexivity].
Qed.

Lemma incl_Forall_allowed (s t : str) :
  incl s t -> Forall (fun c => allowed c = true) t ->
  Forall (fun c => allowed c = true) s.
Proof.
  intros Hi Ht. rewrite Forall_forall in *. auto.
Qed.

Lemma sanitize_well_formed (name : str) :
  well_formed (sanitizeFileName name).
Proof.
  destruct (sanitize_cases name) as [-> | [Hne ->]].
  - unfold well_formed. split; [|split].
    + intros E. cbv in E. discriminate E.
    + simpl. lia.
    + unfold lit. simpl. repeat constructor.
  - unfold well_formed. split; [|split].
    + exact Hne.
    + rewrite length_firstn. lia.
    + eapply incl_Forall_allowed; [apply firstn_incl|].
      eapply incl_Forall_allowed; [apply strip_trailing_incl|].
      eapply incl_Forall_allowed; [apply strip_leading_incl|].
      eapply incl_Forall_allowed; [apply collapse_incl|].
      apply replace_invalid_allowed.
Qed.

Lemma sanitize_not_doubled (name : str) :
  doubled (sanitizeFileName name) = false.
Proof.
  destruct (sanitize_cases name) as [-> | [_ ->]]; [reflexivity|].
  apply firstn_not_doubled, strip_ends_not_doubled, collapse_not_doubled.
Qed.

Lemma replace_invalid_id (s : str) :
  Forall (fun c => allowed c = true) s -> replace_invalid s = s.
Proof.
  induction 1 as [|c s Hc _ IH]; [reflexivity|].
  unfold replace_invalid in *. simpl. rewrite Hc, IH. reflexivity.
Qed.




Lemma strip_trailing_empty (s : str) :
  strip_trailing s = [] -> s = [] \/ s = [Char.underscore].
Proof.
  destruct s as [|c [|d s']]; [left; reflexivity | | discriminate].
  simpl. destruct (Char.is_char Char.underscore c) eqn:E; [|discriminate].
  apply ReplaceFacts.is_char_eq in E. subst. right. reflexivity.
Qed.

(** After the trim a string without doubled underscores does not end with
    an underscore. *)
Lemma strip_trailing_end (s : str) :
  doubled s = false ->
  forall pre, strip_trailing s <> pre ++ [Char.underscore].
Proof.
  induction s as [|c s IH]; intros Hd pre.
  - simpl. apply app_cons_not_nil.
  - destruct s as [|d s'].
    + simpl. destruct (Char.is_char Char.underscore c) eqn:E.
      * apply app_cons_not_nil.
      * intros H. destruct pre as [|x [|y pre]]; try discriminate H.
        simpl in H. injection H as ->.
        rewrite (proj2 (ReplaceFacts.is_char_eq _ _) eq_refl) in E. discriminate E.
    + change (strip_trailing (c :: d :: s'))
        with (c :: strip_trailing (d :: s')).
      intros H. destruct pre as [|x pre].
      * change ([] ++ [Char.underscore]) with [Char.underscore] in H.
        injection H as -> H.
        apply (strip_trailing_empty (d :: s')) in H. destruct H as [H | H];
          [discriminate H|].
        rewrite H in Hd. discriminate Hd.
      * change ((x :: pre) ++ [Char.underscore])
          with (x :: (pre ++ [Char.underscore])) in H.
        injection H as _ H.
        exact (IH (doubled_tail _ _ Hd) pre H).
Qed.


End SanitizeFacts.



(** ** The name before the suffix *)



(** ** What a pattern of words finds *)

Module MatchFacts.
Import Text Vocabulary.

Lemma starts_spec (w s : str) :
  starts w s = true <-> exists post, s = w ++ post.
Proof.
  revert s. induction w as [|c w IH]; intros s.
  - split; [intros _; exists s; reflexivity | reflexivity].
  - destruct s as [|d s]; simpl.
    + split; [discriminate | intros [post H]; discriminate H].
    + rewrite andb_true_iff, Ascii.eqb_eq, IH. split.
      * intros [-> [post ->]]. exists post. reflexivity.
      * intros [post H]. injection H as -> ->. split; [reflexivity|].
        exists post. reflexivity.
Qed.

Lemma run_chr (c : ascii) (k : Cont) (x : mstate) :
  run false (Chr (Char.is_char c)) k x =
  match rest x with
  | d :: s' =>
      if Ascii.eqb c d then k (MState (Some d) s' (S (pos x)) (cap x))
      else None
  | [] => None
  end.
Proof. reflexivity. Qed.

Lemma Lit_cons (c d : ascii) (w : str) :
  Lit (c :: d :: w) = Seq (Chr (Char.is_char c)) (Lit (d :: w)).
Proof. reflexivity. Qed.

(** A literal matches where the input starts with it, and only there. *)
Lemma run_Lit (w : str) :
  forall (k : Cont) (x : mstate),
    if starts w (rest x)
    then exists x', run false (Lit w) k x = k x' /\
                    rest x = w ++ rest x'
    else run false (Lit w) k x = None.
Proof.
  induction w as [|c w IH]; intros k x.
  - simpl. exists x. split; reflexivity.
  - destruct w as [|d w'].
    + change (Lit [c]) with (Chr (Char.is_char c)). rewrite run_chr.
      destruct (rest x) as [|e s'] eqn:E; [reflexivity|].
      simpl. destruct (Ascii.eqb c e) eqn:Ece; [|reflexivity].
      simpl. apply Ascii.eqb_eq in Ece. subst e.
      eexists. split; [reflexivity | reflexivity].
    + rewrite Lit_cons.
      change (run false (Seq (Chr (Char.is_char c)) (Lit (d :: w'))) k x)
        with (run false (Chr (Char.is_char c))
                  (run false (Lit (d :: w')) k) x).
      rewrite run_chr.
      destruct (rest x) as [|e s'] eqn:E; [reflexivity|].
      change (starts (c :: d :: w') (e :: s'))
        with (Ascii.eqb c e && starts (d :: w') s').
      destruct (Ascii.eqb c e) eqn:Ece; [|reflexivity].
      cbn [andb]. apply Ascii.eqb_eq in Ece. subst e.
      specialize (IH k (MState (Some c) s' (S (pos x)) (cap x))).
      cbn [rest] in IH.
      destruct (starts (d :: w') s'); [|exact IH].
      destruct IH as [x' [H1 H2]]. exists x'. split; [exact H1|].
      rewrite H2. reflexivity.
Qed.

Lemma run_Alts_sound (ws : list string) :
  forall (k : Cont) (x : mstate) (y : mstate),
    run false (Alts (map (fun w => Lit (lit w)) ws)) k x = Some y ->
    ws = [] \/
    exists w, In w ws /\ starts (lit w) (rest x) = true.
Proof.
  induction ws as [|w ws IH]; intros k x y H; [left; reflexivity|].
  right. destruct ws as [|w2 ws'].
  - cbn [map Alts] in H. pose proof (run_Lit (lit w) k x) as HL.
    destruct (starts (lit w) (rest x)) eqn:E.
    + exists w. split; [left; reflexivity | exact E].
    + rewrite HL in H. discriminate H.
  - change (Alts (map (fun w => Lit (lit w)) (w :: w2 :: ws')))
      with (Alt (Lit (lit w))
                (Alts (map (fun w => Lit (lit w)) (w2 :: ws')))) in H.
    cbn [run] in H.
    pose proof (run_Lit (lit w) k x) as HL.
    destruct (starts (lit w) (rest x)) eqn:E.
    + exists w. split; [left; reflexivity | exact E].
    + rewrite HL in H.
      destruct (IH k x y H) as [Hnil | [w' [Hin Hs]]]; [discriminate Hnil|].
      exists w'. split; [right; exact Hin | exact Hs].
Qed.

Lemma run_Alts_complete (ws : list string) (w : string) :
  In w ws ->
  forall x : mstate,
    starts (lit w) (rest x) = true ->
    run false (Alts (map (fun w => Lit (lit w)) ws)) (fun y => Some y) x
    <> None.
Proof.
  induction ws as [|w1 ws IH]; intros Hin x Hs; [destruct Hin|].
  destruct ws as [|w2 ws'].
  - destruct Hin as [-> | []]. cbn [map Alts].
    pose proof (run_Lit (lit w) (fun y => Some y) x) as HL.
    rewrite Hs in HL. destruct HL as [x' [-> _]]. discriminate.
  - change (Alts (map (fun w => Lit (lit w)) (w1 :: w2 :: ws')))
      with (Alt (Lit (lit w1))
                (Alts (map (fun w => Lit (lit w)) (w2 :: ws')))).
    cbn [run].
    destruct (run false (Lit (lit w1)) (fun y => Some y) x) eqn:E1;
      [discriminate|].
    destruct Hin as [-> | Hin].
    + pose proof (run_Lit (lit w) (fun y => Some y) x) as HL.
      rewrite Hs in HL. destruct HL as [x' [HL _]]. congruence.
    + apply IH; assumption.
Qed.

(** The leftmost match starts somewhere in the input. *)
Lemma search_sound (ci : bool) (r : regex) (s : str) :
  forall p i j y,
    search ci r p s i = Some (j, y) ->
    exists pre s' p', s = pre ++ s' /\ attempt ci r p' s' j = Some y.
Proof.
  induction s as [|c s IH]; intros p i j y H.
  - cbn [search] in H. destruct (attempt ci r p [] i) eqn:E;
      [|discriminate H].
    injection H as <- <-. exists [], [], p. split; [reflexivity | exact E].
  - cbn [search] in H. destruct (attempt ci r p (c :: s) i) eqn:E.
    + injection H as <- <-. exists [], (c :: s), p.
      split; [reflexivity | exact E].
    + destruct (IH _ _ _ _ H) as [pre [s' [p' [Hs Ha]]]].
      exists (c :: pre), s', p'. split; [rewrite Hs; reflexivity | exact Ha].
Qed.

Lemma search_complete (ci : bool) (r : regex) (pre s : str) :
  (forall p i, attempt ci r p s i <> None) ->
  forall p i, search ci r p (pre ++ s) i <> None.
Proof.
  intros Ha. induction pre as [|c pre IH]; intros p i.
  - simpl. destruct s as [|d s'].
    + cbn [search]. specialize (Ha p i).
      destruct (attempt ci r p [] i); [discriminate | contradiction].
    + cbn [search]. specialize (Ha p i).
      destruct (attempt ci r p (d :: s') i); [discriminate | contradiction].
  - rewrite <- app_comm_cons. cbn [search].
    destruct (attempt ci r p (c :: pre ++ s) i); [discriminate | apply IH].
Qed.

Lemma occurs_of_starts (w pre s : str) :
  starts w s = true -> occurs w (pre ++ s).
Proof.
  intros H. apply starts_spec in H. destruct H as [post ->].
  exists pre, post. reflexivity.
Qed.

(** A pattern [\b(w1|...|wn)\b] matches only a text in which one of its
    words occurs. *)
Lemma test_words_sound (ws : list string) (s : str) :
  ws <> [] -> test false (words_re ws) s = true -> has_one ws s.
Proof.
  intros Hne. unfold test, exec. destruct (search false (words_re ws) None s 0)
    as [[j y]|] eqn:E; [intros _ | discriminate].
  destruct (search_sound _ _ _ _ _ _ _ E) as [pre [s' [p' [Hs Ha]]]].
  unfold attempt, words_re in Ha. cbn [Seqs run prev rest] in Ha.
  destruct (xorb (word_at p') (word_at (next s'))); [|discriminate Ha].
  destruct (run_Alts_sound ws _ _ _ Ha) as [Hnil | [w [Hin Hst]]];
    [contradiction|].
  exists w. split; [exact Hin|]. rewrite Hs.
  apply occurs_of_starts. exact Hst.
Qed.

(** An alternation of words, searched for anywhere, finds exactly the
    texts in which one of the words occurs. *)
Lemma test_alts (ws : list string) (s : str) :
  ws <> [] ->
  test false (Alts (map (fun w => Lit (lit w)) ws)) s = true <->
  has_one ws s.
Proof.
  intros Hne. unfold test, exec. split.
  - destruct (search false (Alts (map (fun w => Lit (lit w)) ws)) None s 0)
      as [[j y]|] eqn:E; [intros _ | discriminate].
    destruct (search_sound _ _ _ _ _ _ _ E) as [pre [s' [p' [Hs Ha]]]].
    unfold attempt in Ha.
    destruct (run_Alts_sound ws _ _ _ Ha) as [Hnil | [w [Hin Hst]]];
      [contradiction|].
    exists w. split; [exact Hin|]. rewrite Hs.
    apply occurs_of_starts. exact Hst.
  - intros [w [Hin [pre [post Hs]]]]. rewrite Hs.
    pose proof (search_complete false
                  (Alts (map (fun w => Lit (lit w)) ws)) pre
                  (lit w ++ post)) as Hc.
    destruct (search false (Alts (map (fun w => Lit (lit w)) ws)) None
                     (pre ++ lit w ++ post) 0) eqn:E; [reflexivity|].
    exfalso. revert E. apply Hc. intros p i. unfold attempt.
    apply (run_Alts_complete ws w Hin). cbn [rest].
    apply starts_spec. exists post. reflexivity.
Qed.

(** One or more units of a class need a first one. *)
Lemma rep_plus_head (t : ascii -> bool) (k : Cont) (s : str)
      (p : option ascii) (i : nat) (cp : option (nat * nat)) (y : mstate) :
  rep t k s 1 None p i cp = Some y ->
  exists c s', s = c :: s' /\ t c = true.
Proof.
  destruct s as [|c s']; cbn [rep Nat.eqb]; [discriminate|].
  cbn [may_take andb]. destruct (t c) eqn:E; [|discriminate].
  intros _. exists c, s'. split; [reflexivity | exact E].
Qed.

(** The pattern of an amount of money needs a digit. *)
Lemma test_money (s : str) :
  test false Patterns.re_money s = true ->
  exists c, In c s /\ Char.is_digit c = true.
Proof.
  unfold test, exec.
  destruct (search false Patterns.re_money None s 0) as [[j y]|] eqn:E;
    [intros _ | discriminate].
  destruct (search_sound _ _ _ _ _ _ _ E) as [pre [s' [p' [Hs Ha]]]].
  subst s. unfold attempt, Patterns.re_money in Ha.
  cbn [run Seqs] in Ha.
  match type of Ha with
  | match ?a with _ => _ end = _ => destruct a eqn:E1
  end.
  - clear Ha. cbn [rest] in E1. destruct s' as [|c s'']; [discriminate E1|].
    destruct (member false (Char.is_char "$") c); [|discriminate E1].
    unfold Plus in E1. cbn [run rest prev pos cap] in E1.
    apply rep_plus_head in E1. destruct E1 as [e [s3 [-> He]]].
    exists e. split; [|exact He].
    apply in_or_app. right. right. left. reflexivity.
  - unfold Plus in Ha. cbn [run rest prev pos cap] in Ha.
    apply rep_plus_head in Ha. destruct Ha as [e [s3 [-> He]]].
    exists e. split; [|exact He].
    apply in_or_app. right. left. reflexivity.
Qed.

(** The rule of a type other than the default has matched. *)
Lemma detectDocumentType_rule (t : str) (d : docType) :
  detectDocumentType t = d -> d <> document ->
  test false (words_re (words d)) t = true /\
  (d = receipt -> test false Patterns.re_money t = true) /\
  (d = form -> test false Patterns.re_fields t = true).
Proof.
  unfold detectDocumentType. intros H Hn.
  repeat match type of H with
         | (if ?b && ?c then _ else _) = _ =>
             destruct b eqn:?, c eqn:?; cbn [andb] in H
         | (if ?b then _ else _) = _ => destruct b eqn:?
         end;
    subst d; try (contradiction Hn; reflexivity);
    repeat split; try discriminate; try assumption; intros _; assumption.
Qed.

End MatchFacts.

(** ** What a pattern of whole words reads in a text *)

Module WholeFacts.
Import Text Vocabulary Reading.

Lemma final_cons (c d : ascii) (s : str) :
  final (c :: d :: s) = final (d :: s).
Proof. reflexivity. Qed.

Lemma final_some (c : ascii) (s : str) : exists e, final (c :: s) = Some e.
Proof.
  revert c. induction s as [|d s IH]; intros c.
  - exists c. reflexivity.
  - rewrite final_cons. apply IH.
Qed.

Lemma final_app (pre w : str) : w <> [] -> final (pre ++ w) = final w.
Proof.
  intros Hw. induction pre as [|c pre IH]; [reflexivity|].
  destruct (pre ++ w) as [|d r] eqn:E.
  - destruct pre; [simpl in E; contradiction | discriminate E].
  - change ((c :: pre) ++ w) with (c :: (pre ++ w)). rewrite E.
    rewrite final_cons. exact IH.
Qed.

Lemma after_none (s : str) : after None s = final s.
Proof. unfold after. destruct (final s); reflexivity. Qed.

Lemma after_nil (p : option ascii) : after p [] = p.
Proof. reflexivity. Qed.

Lemma after_cons (p : option ascii) (c : ascii) (s : str) :
  after p (c :: s) = after (Some c) s.
Proof.
  unfold after. destruct s as [|d s]; [reflexivity|].
  rewrite final_cons. destruct (final_some d s) as [e ->]. reflexivity.
Qed.

Lemma after_nonempty (p : option ascii) (s : str) :
  s <> [] -> after p s = final s.
Proof.
  destruct s as [|c s]; [intros H; contradiction H; reflexivity|].
  intros _. unfold after. destruct (final_some c s) as [e ->]. reflexivity.
Qed.

Lemma starts_skipn (w s : str) :
  starts w s = true -> s = w ++ skipn (length w) s.
Proof.
  revert s. induction w as [|c w IH]; intros s H; [reflexivity|].
  destruct s as [|d s]; [discriminate H|].
  simpl in H. apply andb_true_iff in H. destruct H as [H1 H2].
  apply Ascii.eqb_eq in H1. subst d. simpl. f_equal. apply IH. exact H2.
Qed.

Lemma starts_app (w post : str) : starts w (w ++ post) = true.
Proof. apply MatchFacts.starts_spec. exists post. reflexivity. Qed.

Lemma skipn_app_exact (w post : str) : skipn (length w) (w ++ post) = post.
Proof. induction w as [|c w IH]; [reflexivity | exact IH]. Qed.

(** A literal, with the position it leaves. *)
Lemma run_Lit_at (w : str) :
  forall (k : Cont) (x : mstate),
    run false (Lit w) k x
    = if starts w (rest x)
      then k (MState (after (prev x) w) (skipn (length w) (rest x))
                     (pos x + length w) (cap x))
      else None.
Proof.
  induction w as [|c w IH]; intros k x.
  - destruct x as [p s i cp]. cbn [Lit run starts prev rest pos cap length skipn].
    rewrite after_nil, Nat.add_0_r. reflexivity.
  - destruct w as [|d w'].
    + change (Lit [c]) with (Chr (Char.is_char c)). rewrite MatchFacts.run_chr.
      destruct (rest x) as [|e s'] eqn:E; [reflexivity|].
      cbn [starts]. destruct (Ascii.eqb c e) eqn:Ece; [|reflexivity].
      apply Ascii.eqb_eq in Ece. subst e. cbn [andb length skipn].
      rewrite after_cons, after_nil, Nat.add_1_r. reflexivity.
    + rewrite MatchFacts.Lit_cons.
      change (run false (Seq (Chr (Char.is_char c)) (Lit (d :: w'))) k x)
        with (run false (Chr (Char.is_char c))
                  (run false (Lit (d :: w')) k) x).
      rewrite MatchFacts.run_chr.
      destruct (rest x) as [|e s'] eqn:E; [reflexivity|].
      change (starts (c :: d :: w') (e :: s'))
        with (Ascii.eqb c e && starts (d :: w') s').
      destruct (Ascii.eqb c e) eqn:Ece; [|reflexivity].
      cbn [andb]. apply Ascii.eqb_eq in Ece. subst e.
      rewrite IH. cbn [rest prev pos cap].
      destruct (starts (d :: w') s'); [|reflexivity].
      rewrite (after_cons (prev x) c (d :: w')).
      change (skipn (length (c :: d :: w')) (c :: s'))
        with (skipn (length (d :: w')) s').
      replace (S (pos x) + length (d :: w'))
        with (pos x + length (c :: d :: w')) by (cbn [length]; lia).
      reflexivity.
Qed.

Lemma run_Alts_some (ci : bool) (rs : list regex) :
  rs <> [] ->
  forall (k : Cont) (x y : mstate),
    run ci (Alts rs) k x = Some y ->
    exists r, In r rs /\ run ci r k x = Some y.
Proof.
  induction rs as [|r rs IH]; intros Hne k x y H;
    [contradiction Hne; reflexivity|].
  destruct rs as [|r2 rs'].
  - exists r. split; [left; reflexivity | exact H].
  - change (Alts (r :: r2 :: rs')) with (Alt r (Alts (r2 :: rs'))) in H.
    cbn [run] in H. destruct (run ci r k x) as [z|] eqn:E.
    + exists r. split; [left; reflexivity|]. rewrite E. exact H.
    + destruct (IH ltac:(discriminate) k x y H) as [r' [Hin Hr]].
      exists r'. split; [right; exact Hin | exact Hr].
Qed.

Lemma run_Alts_any (ci : bool) (rs : list regex) (r : regex) :
  In r rs ->
  forall (k : Cont) (x : mstate),
    run ci r k x <> None -> run ci (Alts rs) k x <> None.
Proof.
  induction rs as [|r1 rs IH]; intros Hin k x Hr; [destruct Hin|].
  destruct rs as [|r2 rs'].
  - destruct Hin as [-> | []]. exact Hr.
  - change (Alts (r1 :: r2 :: rs')) with (Alt r1 (Alts (r2 :: rs'))).
    cbn [run]. destruct (run ci r1 k x) as [z|] eqn:E; [discriminate|].
    destruct Hin as [-> | Hin]; [contradiction|].
    apply IH; assumption.
Qed.

(** The leftmost match, with the unit before it. *)
Lemma search_sound_at (ci : bool) (r : regex) (s : str) :
  forall p i j y,
    search ci r p s i = Some (j, y) ->
    exists pre s', s = pre ++ s' /\ attempt ci r (after p pre) s' j = Some y.
Proof.
  induction s as [|c s IH]; intros p i j y H.
  - cbn [search] in H. destruct (attempt ci r p [] i) eqn:E;
      [|discriminate H].
    injection H as <- <-. exists [], []. split; [reflexivity | exact E].
  - cbn [search] in H. destruct (attempt ci r p (c :: s) i) eqn:E.
    + injection H as <- <-. exists [], (c :: s).
      split; [reflexivity | exact E].
    + destruct (IH _ _ _ _ H) as [pre [s' [Hs Ha]]].
      exists (c :: pre), s'. split; [rewrite Hs; reflexivity|].
      rewrite after_cons. exact Ha.
Qed.

Lemma search_complete_at (ci : bool) (r : regex) (pre s : str) :
  forall p i,
    attempt ci r (after p pre) s (i + length pre) <> None ->
    search ci r p (pre ++ s) i <> None.
Proof.
  induction pre as [|c pre IH]; intros p i Ha.
  - rewrite after_nil, Nat.add_0_r in Ha. simpl.
    destruct s as [|d s']; cbn [search];
      (destruct (attempt ci r p _ i); [discriminate | contradiction]).
  - rewrite <- app_comm_cons. cbn [search].
    destruct (attempt ci r p (c :: pre ++ s) i); [discriminate|].
    apply IH. rewrite after_cons in Ha.
    replace (S i + length pre) with (i + length (c :: pre))
      by (cbn [length]; lia).
    exact Ha.
Qed.

(** A pattern [\b(w1|...|wn)\b] matches exactly the texts in which one of
    its words stands with a word boundary on either side. *)
Lemma test_words (ws : list string) (s : str) :
  ws <> [] -> Forall (fun w => lit w <> []) ws ->
  test false (words_re ws) s = true <-> has_whole ws s.
Proof.
  intros Hne Hws. unfold test, exec. split.
  - destruct (search false (words_re ws) None s 0) as [[j y]|] eqn:E;
      [intros _ | discriminate].
    destruct (search_sound_at _ _ _ _ _ _ _ E) as [pre [s' [Hs Ha]]].
    rewrite after_none in Ha.
    unfold attempt, words_re in Ha. cbn [Seqs run prev rest] in Ha.
    destruct (xorb (word_at (final pre)) (word_at (next s'))) eqn:E1;
      [|discriminate Ha].
    apply run_Alts_some in Ha;
      [|destruct ws; [contradiction Hne; reflexivity | discriminate]].
    destruct Ha as [r [Hin Hr]]. apply in_map_iff in Hin.
    destruct Hin as [w [<- Hin]].
    rewrite run_Lit_at in Hr. cbn [rest prev pos cap] in Hr.
    destruct (starts (lit w) s') eqn:Est; [|discriminate Hr].
    cbn [run prev rest] in Hr.
    destruct (xorb (word_at (after (final pre) (lit w)))
                   (word_at (next (skipn (length (lit w)) s')))) eqn:E2;
      [|discriminate Hr].
    rewrite Forall_forall in Hws. specialize (Hws w Hin).
    exists w. split; [exact Hin|].
    exists pre, (skipn (length (lit w)) s'). split; [|split].
    + rewrite Hs. f_equal. apply starts_skipn. exact Est.
    + rewrite <- (starts_skipn _ _ Est). exact E1.
    + rewrite final_app by exact Hws.
      rewrite after_nonempty in E2 by exact Hws. exact E2.
  - intros [w [Hin [pre [post [Hs [E1 E2]]]]]]. subst s.
    rewrite Forall_forall in Hws. specialize (Hws w Hin).
    destruct (search false (words_re ws) None (pre ++ lit w ++ post) 0)
      eqn:E; [reflexivity|].
    exfalso. revert E. apply search_complete_at.
    rewrite after_none. unfold attempt, words_re.
    cbn [Seqs run prev rest].
    change (xorb (word_at (final pre)) (word_at (next (lit w ++ post))))
      with (edge (final pre) (first (lit w ++ post))).
    rewrite E1.
    apply (run_Alts_any false _ (Lit (lit w)));
      [apply in_map_iff; exists w; split; [reflexivity | exact Hin]|].
    rewrite run_Lit_at. cbn [rest prev pos cap].
    rewrite starts_app, skipn_app_exact. cbn [run prev rest].
    rewrite after_nonempty by exact Hws.
    rewrite final_app in E2 by exact Hws.
    change (xorb (word_at (final (lit w))) (word_at (next post)))
      with (edge (final (lit w)) (first post)).
    rewrite E2. discriminate.
Qed.

(** What a greedy repetition has taken when the match goes through. *)
Lemma rep_sound (t : ascii -> bool) (k : Cont) (s : str) :
  forall lo hi p i cp y,
    rep t k s lo hi p i cp = Some y ->
    exists taken rest',
      s = taken ++ rest' /\ forallb t taken = true /\
      lo <= length taken /\
      k (MState (after p taken) rest' (i + length taken) cp) = Some y.
Proof.
  assert (Hstop : forall s lo p i cp y,
             (if lo =? 0 then k (MState p s i cp) else None) = Some y ->
             exists taken rest',
               s = taken ++ rest' /\ forallb t taken = true /\
               lo <= length taken /\
               k (MState (after p taken) rest' (i + length taken) cp)
               = Some y).
  { intros s0 lo p i cp y H. destruct (lo =? 0) eqn:E; [|discriminate H].
    apply Nat.eqb_eq in E. exists [], s0.
    rewrite after_nil, Nat.add_0_r. cbn [length].
    repeat split; [lia | exact H]. }
  induction s as [|c s IH]; intros lo hi p i cp y H.
  - cbn [rep] in H. apply Hstop. exact H.
  - cbn [rep] in H. destruct (may_take hi && t c) eqn:Em;
      [|apply Hstop; exact H].
    destruct (rep t k s (Nat.pred lo) (option_map Nat.pred hi) (Some c)
                  (S i) cp) as [z|] eqn:Er; [|apply Hstop; exact H].
    injection H as <-. apply IH in Er.
    destruct Er as [taken [rest' [Hs [Ht [Hlo Hk]]]]].
    exists (c :: taken), rest'. apply andb_true_iff in Em.
    rewrite after_cons. cbn [forallb length].
    replace (i + S (length taken)) with (S i + length taken) by lia.
    repeat split; [rewrite Hs; reflexivity | | lia | exact Hk].
    rewrite (proj2 Em), Ht. reflexivity.
Qed.

(** A repetition that may stop at once goes through when what follows it
    does. *)
Lemma rep_total (t : ascii -> bool) (k : Cont) (s : str) :
  (forall x, k x <> None) ->
  forall hi p i cp, rep t k s 0 hi p i cp <> None.
Proof.
  intros Hk. induction s as [|c s IH]; intros hi p i cp; cbn [rep Nat.eqb].
  - apply Hk.
  - destruct (may_take hi && t c); [|apply Hk].
    cbn [Nat.pred].
    destruct (rep t k s 0 (option_map Nat.pred hi) (Some c) (S i) cp)
      eqn:E; [discriminate|].
    exfalso. exact (IH _ _ _ _ E).
Qed.

Lemma rep_take (t : ascii -> bool) (k : Cont) (c : ascii) (s : str)
      (lo : nat) (hi : option nat) (p : option ascii) (i : nat)
      (cp : option (nat * nat)) :
  may_take hi = true -> t c = true ->
  rep t k s (Nat.pred lo) (option_map Nat.pred hi) (Some c) (S i) cp
    <> None ->
  rep t k (c :: s) lo hi p i cp <> None.
Proof.
  intros Hm Ht H. cbn [rep]. rewrite Hm, Ht. cbn [andb].
  destruct (rep t k s (Nat.pred lo) (option_map Nat.pred hi) (Some c)
                (S i) cp); [discriminate | contradiction].
Qed.

Lemma rep_halt (t : ascii -> bool) (k : Cont) (c : ascii) (s : str)
      (hi : option nat) (p : option ascii) (i : nat)
      (cp : option (nat * nat)) :
  t c = false ->
  rep t k (c :: s) 0 hi p i cp = k (MState p (c :: s) i cp).
Proof.
  intros Ht. cbn [rep Nat.eqb]. rewrite Ht, andb_false_r. reflexivity.
Qed.

Lemma run_Alt_left (ci : bool) (r1 r2 : regex) (k : Cont) (x : mstate) :
  run ci r1 k x <> None -> run ci (Alt r1 r2) k x <> None.
Proof.
  intros H. cbn [run]. destruct (run ci r1 k x); [discriminate|].
  contradiction.
Qed.

Lemma run_Alt_right (ci : bool) (r1 r2 : regex) (k : Cont) (x : mstate) :
  run ci r2 k x <> None -> run ci (Alt r1 r2) k x <> None.
Proof.
  intros H. cbn [run]. destruct (run ci r1 k x); [discriminate | exact H].
Qed.

Lemma some_total : forall x : mstate, Some x <> None.
Proof. intros x. discriminate. Qed.

(** [/\$\d+|\d+\.\d{2}/] matches exactly the texts that have a dollar sign
    and a digit, or a digit, a point and two digits. *)
Lemma test_money_iff (s : str) :
  test false Patterns.re_money s = true <-> money s.
Proof.
  unfold test, exec. split.
  - destruct (search false Patterns.re_money None s 0) as [[j y]|] eqn:E;
      [intros _ | discriminate].
    destruct (search_sound_at _ _ _ _ _ _ _ E) as [pre [s' [Hs Ha]]].
    subst s. unfold attempt, Patterns.re_money in Ha.
    cbn [run Seqs] in Ha.
    match type of Ha with
    | match ?a with _ => _ end = _ => destruct a eqn:E1
    end.
    + clear Ha. cbn [rest] in E1.
      destruct s' as [|c s'']; [discriminate E1|].
      destruct (member false (Char.is_char "$") c) eqn:Ec;
        [|discriminate E1].
      unfold member, Char.is_char in Ec.
      apply Ascii.eqb_eq in Ec. subst c.
      unfold Plus in E1. cbn [run rest prev pos cap] in E1.
      apply MatchFacts.rep_plus_head in E1.
      destruct E1 as [e [s3 [-> He]]].
      left. exists pre, e, s3. split; [reflexivity | exact He].
    + unfold Plus in Ha. cbn [run rest prev pos cap] in Ha.
      apply rep_sound in Ha.
      destruct Ha as [taken [rest1 [-> [Ht [Hlo Hk]]]]].
      cbn [rest] in Hk. destruct rest1 as [|c rest1]; [discriminate Hk|].
      destruct (member false (Char.is_char ".") c) eqn:Ec;
        [|discriminate Hk].
      unfold member, Char.is_char in Ec.
      apply Ascii.eqb_eq in Ec. subst c.
      unfold Times in Hk. cbn [run rest prev pos cap] in Hk.
      apply rep_sound in Hk.
      destruct Hk as [taken2 [rest2 [-> [Ht2 [Hlo2 _]]]]].
      destruct taken as [|a0 taken0] eqn:Et; [cbn in Hlo; lia|].
      assert (Hne : a0 :: taken0 <> []) by discriminate.
      destruct (exists_last Hne) as [init [a Ea]]. rewrite Ea in *.
      rewrite forallb_app in Ht. apply andb_true_iff in Ht.
      destruct Ht as [_ Ha]. cbn [forallb] in Ha.
      rewrite andb_true_r in Ha.
      destruct taken2 as [|b [|c taken2]]; try (cbn in Hlo2; lia).
      cbn [forallb] in Ht2. apply andb_true_iff in Ht2.
      destruct Ht2 as [Hb Ht2]. apply andb_true_iff in Ht2.
      destruct Ht2 as [Hc _].
      right. exists (pre ++ init), a, b, c, (taken2 ++ rest2).
      split; [|repeat split; assumption].
      rewrite <- !app_assoc. reflexivity.
  - intros [[pre [d [post [-> Hd]]]]
           | [pre [a [b [c [post [-> [Ha [Hb Hc]]]]]]]]].
    + destruct (search false Patterns.re_money None
                       (pre ++ "$"%char :: d :: post) 0) eqn:E;
        [reflexivity|].
      exfalso. revert E. apply search_complete_at.
      unfold attempt, Patterns.re_money. apply run_Alt_left.
      cbn [run rest prev pos cap]. unfold Plus. cbn [run rest prev pos cap].
      apply rep_take; [reflexivity | exact Hd|].
      apply rep_total. exact some_total.
    + destruct (search false Patterns.re_money None
                       (pre ++ a :: "."%char :: b :: c :: post) 0) eqn:E;
        [reflexivity|].
      exfalso. revert E. apply search_complete_at.
      unfold attempt, Patterns.re_money. apply run_Alt_right.
      cbn [Seqs run rest prev pos cap]. unfold Plus.
      cbn [run rest prev pos cap].
      apply rep_take; [reflexivity | exact Ha|].
      cbn [Nat.pred option_map]. rewrite rep_halt by reflexivity.
      cbn [run rest prev pos cap]. unfold Times.
      cbn [run rest prev pos cap].
      apply rep_take; [reflexivity | exact Hb|].
      apply rep_take; [reflexivity | exact Hc|].
      apply rep_total. exact some_total.
Qed.

Lemma both_iff (a b : bool) (A B : Prop) :
  (a = true <-> A) -> (b = true <-> B) -> (a && b = true <-> A /\ B).
Proof.
  intros Ha Hb. rewrite andb_true_iff, Ha, Hb. reflexivity.
Qed.

Lemma words_fit (d : docType) (s : str) :
  d <> document ->
  test false (words_re (words d)) s = true <-> has_whole (words d) s.
Proof.
  intros Hd. apply test_words.
  - destruct d; try discriminate. contradiction Hd. reflexivity.
  - destruct d; repeat constructor; discriminate.
Qed.

(** Each rule of the classifier matches exactly the texts that have what
    the type asks for. *)
Lemma rule_fits (d : docType) (matches : str -> bool) (s : str) :
  In (d, matches) Classifier.rules ->
  matches s = true <-> fits d s.
Proof.
  unfold Classifier.rules. intros H.
  repeat (destruct H as [H | H];
          [injection H as <- <-; cbn [fits];
           match goal with
           | |- _ <-> has_whole (words ?d) _ /\ money _ =>
               apply both_iff;
               [exact (words_fit d s ltac:(discriminate))
               | apply test_money_iff]
           | |- _ <-> has_whole (words ?d) _ /\ has_whole fields _ =>
               apply both_iff;
               [exact (words_fit d s ltac:(discriminate))
               | apply (test_words fields s);
                 [discriminate | repeat constructor; discriminate]]
           | |- _ <-> has_whole (words ?d) _ =>
               exact (words_fit d s ltac:(discriminate))
           end|]).
  destruct H.
Qed.

End WholeFacts.

(** ** The classifier *)

Module ClassifierFacts.
Import Reading.

(** A rule that does not match leaves the text without what its type asks
    for. *)
Lemma rule_misses (d : docType) (matches : str -> bool) (s : str) :
  In (d, matches) Classifier.rules -> matches s = false -> ~ fits d s.
Proof.
  intros Hin Hm Hf. apply (WholeFacts.rule_fits d matches s Hin) in Hf.
  congruence.
Qed.

Ltac listed := solve [repeat (try (left; reflexivity); right)].

(** Splits on the rule [F] speaks of, when the cascade still asks it. *)
Ltac next_rule F :=
  match type of F with
  | (?b = true <-> ?P) =>
      match goal with
      | |- context [if b then _ else _] =>
          let E := fresh "E" in
          destruct b eqn:E;
          [assert P by (apply F; first [reflexivity | exact E])
          |assert (~ P) by (intros X; apply F in X; congruence)];
          clear F E; cbv iota
      | _ => clear F
      end
  end.

(** The type of a text is the first in the order whose rule the text
    fits. *)
Lemma detect_fits (s : str) (d : docType) :
  detectDocumentType s = d <->
  fits d s /\ forall d', rank d' < rank d -> ~ fits d' s.
Proof.
  pose proof (WholeFacts.rule_fits invoice _ s ltac:(listed)) as F1.
  pose proof (WholeFacts.rule_fits receipt _ s ltac:(listed)) as F2.
  pose proof (WholeFacts.rule_fits contract _ s ltac:(listed)) as F3.
  pose proof (WholeFacts.rule_fits letter _ s ltac:(listed)) as F4.
  pose proof (WholeFacts.rule_fits report _ s ltac:(listed)) as F5.
  pose proof (WholeFacts.rule_fits certificate _ s ltac:(listed)) as F6.
  pose proof (WholeFacts.rule_fits form _ s ltac:(listed)) as F7.
  pose proof (WholeFacts.rule_fits memo _ s ltac:(listed)) as F8.
  pose proof (WholeFacts.rule_fits id_doc _ s ltac:(listed)) as F9.
  pose proof (WholeFacts.rule_fits ticket _ s ltac:(listed)) as F10.
  cbv beta in F2, F7.
  unfold detectDocumentType.
  next_rule F1; next_rule F2; next_rule F3; next_rule F4; next_rule F5;
    next_rule F6; next_rule F7; next_rule F8; next_rule F9; next_rule F10.
  all: split;
    [intros <-;
     split; [first [assumption | exact I]|];
     intros d' Hr; destruct d'; cbn [rank] in Hr; try lia; assumption
    |intros [Hf Hall]; destruct d; try reflexivity; exfalso;
     first [contradiction
           | match goal with
             | H : fits ?x _ |- _ =>
                 apply (Hall x); [cbn [rank]; lia | exact H]
             end]].
Qed.

End ClassifierFacts.

(** C2.  [detectDocumentType] is a function of the lower-cased text that
    returns the label of the first rule that matches, the rules being taken
    in the order invoice, receipt, contract, letter, report, certificate,
    form, memo, id, ticket, and [document] when none matches.  A rule
    matches exactly the texts in which a word of its vocabulary stands as a
    whole word (for a receipt with an amount of money too, for a form with
    one of the field words too), so the type of a text is the first in the
    order whose vocabulary the text has.  A text with invoice vocabulary
    and contract vocabulary is an invoice. *)
Theorem detectDocumentType_first_match (textLower : str) :
  map fst Classifier.rules =
    [invoice; receipt; contract; letter; report; certificate; form; memo;
     id_doc; ticket] /\
  detectDocumentType textLower =
    Classifier.first_match Classifier.rules textLower /\
  (forall d matches,
      In (d, matches) Classifier.rules ->
      matches textLower = true <-> Reading.fits d textLower) /\
  (forall d,
      detectDocumentType textLower = d <->
      Reading.fits d textLower /\
      forall d', Reading.rank d' < Reading.rank d ->
                 ~ Reading.fits d' textLower) /\
  (Reading.has_whole (Vocabulary.words invoice) textLower ->
   Reading.has_whole (Vocabulary.words contract) textLower ->
   detectDocumentType textLower = invoice).
Proof.
  split; [reflexivity|]. split; [|split; [|split]].
  - unfold detectDocumentType, Classifier.rules, Classifier.first_match.
    reflexivity.
  - intros d matches. apply WholeFacts.rule_fits.
  - intros d. apply ClassifierFacts.detect_fits.
  - intros Hi _. apply ClassifierFacts.detect_fits.
    split; [exact Hi|]. intros d' Hr. cbn in Hr. lia.
Qed.

(** The words [invoice] and [contract] both stand in the text; it is an
    invoice. *)
Lemma detectDocumentType_first_match_witness :
  detectDocumentType (lit "this invoice covers the contract") = invoice.
Proof.
  apply (proj2 (proj2 (proj2 (proj2 (detectDocumentType_first_match
                         (lit "this invoice covers the contract")))))).
  - exists "invoice". split; [left; reflexivity|].
    exists (lit "this "), (lit " covers the contract").
    repeat split; reflexivity.
  - exists "contract". split; [left; reflexivity|].
    exists (lit "this invoice covers the "), [].
    repeat split; reflexivity.
Defined.

(** Each rule decides some text, and the order shows: contract vocabulary
    alone gives [contract]. *)
Lemma detectDocumentType_examples :
  detectDocumentType (lit "the parties hereby agree") = contract /\
  detectDocumentType (lit "paid $30 by card") = receipt /\
  detectDocumentType (lit "paid by card") = document /\
  detectDocumentType (lit "dear john") = letter /\
  detectDocumentType (lit "annual report") = report /\
  detectDocumentType (lit "certificate of completion") = certificate /\
  detectDocumentType (lit "application form name and address") = form /\
  detectDocumentType (lit "application form") = document /\
  detectDocumentType (lit "a note for you") = memo /\
  detectDocumentType (lit "passport number") = id_doc /\
  detectDocumentType (lit "boarding pass") = ticket /\
  detectDocumentType (lit "") = document.
Proof. vm_compute. repeat split. Qed.

(** ** The invoice scenario *)

(** C9, as stated, fails: the class of the company pattern contains white
    space, so the match runs on over the line break and takes [Total] as
    well.  The company is not [Acme_Corp] and the name is not
    [invoice_Acme_Corp_01-02-2023_123.45]. *)
Lemma scenario_company_is_not_Acme_Corp :
  let text := Scenario.text in
  let textLower := toLowerCase text in
  company (extractContext text textLower (detectDocumentType textLower))
    <> Some (lit "Acme_Corp") /\
  identifyTopic (extractKeywords text) text
    <> lit "invoice_Acme_Corp_01-02-2023_123.45".
Proof.
  split; vm_compute; intros E; discriminate E.
Qed.

(** C9, amended.  For the text of the scenario the document type is
    [invoice], the company [Acme_Corp_Total], the amount [123.45], the date
    [01-02-2023], no subject is found, and the name before sanitization, the
    first 4 of type, company, subject, date and amount joined by
    underscores, is [invoice_Acme_Corp_Total_01-02-2023_123.45].  It is the
    same on the text as [generateAIFileName] cleans it, and the sanitized
    name is [invoice_Acme_Corp_Total_01-02-2023_123_45]. *)
Theorem scenario_invoice :
  let text := Scenario.text in
  let textLower := toLowerCase text in
  detectDocumentType textLower = invoice /\
  extractContext text textLower invoice =
    Context (Some (lit "Acme_Corp_Total")) None (Some (lit "01-02-2023"))
            (Some (lit "123.45")) /\
  identifyTopic (extractKeywords text) text =
    lit "invoice_Acme_Corp_Total_01-02-2023_123.45" /\
  identifyTopic (extractKeywords (cleanText text)) (cleanText text) =
    lit "invoice_Acme_Corp_Total_01-02-2023_123.45" /\
  classifyAndName text = lit "invoice_Acme_Corp_Total_01-02-2023_123_45".
Proof.
  vm_compute. repeat split.
Qed.

(** * Properties of the statistics store *)

Module DbFacts.
Import Db.

Lemma str_eqb_refl (a : str) : str_eqb a a = true.
Proof.
  induction a as [|c a IH]; [reflexivity|].
  simpl. rewrite Ascii.eqb_refl, IH. reflexivity.
Qed.

Lemma str_eqb_eq (a b : str) : str_eqb a b = true <-> a = b.
Proof.
  split; [|intros ->; apply str_eqb_refl].
  revert b. induction a as [|c a IH]; intros [|e b] H; try discriminate.
  - reflexivity.
  - simpl in H. apply andb_true_iff in H. destruct H as [H1 H2].
    apply Ascii.eqb_eq in H1. apply IH in H2. congruence.
Qed.

(** An update that keeps the key column keeps which row a key finds. *)
Lemma find_update {A : Type} (p : A -> bool) (q : A -> bool)
      (f : A -> A) (l : list A) :
  (forall x, p (f x) = p x) ->
  find p (map (fun x => if q x then f x else x) l) =
  option_map (fun x => if q x then f x else x) (find p l).
Proof.
  intros Hp. induction l as [|x l IH]; [reflexivity|].
  simpl. destruct (q x) eqn:Eq.
  - rewrite Hp. destruct (p x); [simpl; rewrite Eq; reflexivity | exact IH].
  - destruct (p x); [simpl; rewrite Eq; reflexivity | exact IH].
Qed.

Lemma user_of_update (pos : str) (f : User.t -> User.t) (d : Db.t) :
  (forall u, User.user_queue_position (f u) = User.user_queue_position u) ->
  user_of pos (update_user pos f d) = option_map f (user_of pos d).
Proof.
  intros Hf. unfold user_of, update_user. simpl.
  rewrite find_update.
  - destruct (find (is_user pos) (dbt2_user d)) as [u|] eqn:E;
      [|reflexivity].
    simpl. apply find_some in E. destruct E as [_ E]. rewrite E.
    reflexivity.
  - intros u. unfold is_user. rewrite Hf. reflexivity.
Qed.

Lemma file_of_update (fileId : nat) (f : File.t -> File.t) (d : Db.t) :
  (forall r, File.id (f r) = File.id r) ->
  file_of fileId (update_file fileId f d) = option_map f (file_of fileId d).
Proof.
  intros Hf. unfold file_of, update_file. simpl.
  rewrite find_update.
  - destruct (find (fun r => File.id r =? fileId) (dbt3_file d))
      as [r|] eqn:E; [|reflexivity].
    simpl. apply find_some in E. destruct E as [_ E]. rewrite E.
    reflexivity.
  - intros r. rewrite Hf. reflexivity.
Qed.

Lemma files_update_user (pos : str) (f : User.t -> User.t) (d : Db.t) :
  dbt3_file (update_user pos f d) = dbt3_file d.
Proof. reflexivity. Qed.


End DbFacts.

(** ** Completion of a file record *)

(** C3, as stated, fails: a record that is already complete is completed
    again.  The second call is not refused; it overwrites the language, the
    end time, the duration and the state. *)
Lemma updateFileAfterOCR_twice :
  let (d0, fileId) := Db.addFile Ledger.a_file 0%Z Ledger.one_user in
  let d1 := Db.updateFileAfterOCR fileId (lit "eng") (lit "success") 5%Z d0 in
  let d2 := Db.updateFileAfterOCR fileId (lit "unknown") (lit "failed") 9%Z
                                  d1 in
  option_map Db.File.extraction_state (Db.file_of fileId d1)
    = Some (lit "success") /\
  option_map Db.File.extraction_state (Db.file_of fileId d2)
    = Some (lit "failed") /\
  option_map Db.File.extraction_end_timestamp (Db.file_of fileId d2)
    = Some (Some 9%Z) /\
  option_map Db.File.file_processing_time (Db.file_of fileId d2)
    = Some (Some 9%Z) /\
  Db.file_of fileId d2 <> Db.file_of fileId d1.
Proof.
  vm_compute. repeat split. intros E. discriminate E.
Qed.

(** C3, amended.  Completion is repeatable.  Whatever the state of the
    record, [updateFileAfterOCR] on its id stores the language and the state
    it is given, stamps the end time and recomputes the duration from the
    start time, which it leaves as it was; and every call of
    [updateUserExtractionEnd] adds to the treated or the not-treated counter
    of the queue entry, so that two calls count twice. *)
Theorem updateFileAfterOCR_overwrites
        (d : Db.t) (fileId : nat) (detectedLanguage state : str)
        (now : Db.time) (r : Db.File.t) :
  Db.file_of fileId d = Some r ->
  (exists r',
      Db.file_of fileId
        (Db.updateFileAfterOCR fileId detectedLanguage state now d)
        = Some r' /\
      Db.File.extraction_state r' = state /\
      Db.File.detected_language r' = Some detectedLanguage /\
      Db.File.extraction_end_timestamp r' = Some now /\
      Db.File.extraction_start_timestamp r'
        = Db.File.extraction_start_timestamp r /\
      Db.File.file_processing_time r'
        = option_map (fun start => now - start)%Z
                     (Db.File.extraction_start_timestamp r)) /\
  (forall (userPosition : str) (success : bool) (t1 t2 : Db.time)
          (u : Db.User.t),
      Db.user_of userPosition d = Some u ->
      exists u',
        Db.user_of userPosition
          (Db.updateUserExtractionEnd userPosition success t2
             (Db.updateUserExtractionEnd userPosition success t1 d))
          = Some u' /\
        (Db.User.total_files_treated u' =
           Db.User.total_files_treated u + (if success then 2 else 0))%Z /\
        (Db.User.total_files_not_treated u' =
           Db.User.total_files_not_treated u + (if success then 0 else 2))%Z).
Proof.
  intros Hr. split.
  - exists (Db.complete detectedLanguage state now r).
    unfold Db.updateFileAfterOCR.
    rewrite DbFacts.file_of_update by reflexivity.
    rewrite Hr. simpl. repeat split.
  - intros pos success t1 t2 u Hu.
    unfold Db.updateUserExtractionEnd, Db.updateUserTotalProcessingTime.
    rewrite !DbFacts.user_of_update by reflexivity.
    rewrite Hu. simpl. eexists. split; [reflexivity|].
    simpl. destruct success; split; lia.
Qed.

Lemma updateFileAfterOCR_overwrites_witness :
  exists r',
    Db.file_of 1
      (Db.updateFileAfterOCR 1 (lit "unknown") (lit "failed") 9%Z
         (Db.updateFileAfterOCR 1 (lit "eng") (lit "success") 5%Z
            (fst (Db.addFile Ledger.a_file 0%Z Ledger.one_user))))
      = Some r' /\
    Db.File.extraction_state r' = lit "failed".
Proof.
  destruct (proj1 (@updateFileAfterOCR_overwrites
              (Db.updateFileAfterOCR 1 (lit "eng") (lit "success") 5%Z
                 (fst (Db.addFile Ledger.a_file 0%Z Ledger.one_user)))
              1 (lit "unknown") (lit "failed") 9%Z
              (Db.complete (lit "eng") (lit "success") 5%Z
                 (Db.File.Make 1 (Db.fd_file_name Ledger.a_file)
                    (lit "user1") (Db.fd_ai_file_name Ledger.a_file)
                    (lit "PNG") (lit "TXT") None (Some 0%Z) None None
                    (lit "processing")))
              eq_refl))
    as [r' [H1 [H2 _]]].
  exists r'. split; [exact H1 | exact H2].
Defined.

(** ** The total processing time of a queue entry *)

Module TotalFacts.
Import Db.



End TotalFacts.



(** ** The counters of a queue entry *)

Module CounterFacts.
Import Db Aggregator Ledger.

Lemma apply_counters (pos : str) (d : Db.t) (o : op) (u : User.t) :
  user_of pos d = Some u ->
  exists u',
    user_of pos (apply pos d o) = Some u' /\
    (User.total_files_uploaded u'
       = User.total_files_uploaded u + uploads [o])%Z /\
    (User.total_files_treated u'
       = User.total_files_treated u + successes [o])%Z /\
    (User.total_files_not_treated u'
       = User.total_files_not_treated u + failures [o])%Z.
Proof.
  intros Hu. destruct o as [|now|success now|s f now]; simpl.
  - unfold updateUserStats.
    rewrite DbFacts.user_of_update, Hu by reflexivity.
    eexists. split; [reflexivity|]. simpl. repeat split; lia.
  - unfold updateUserExtractionStart.
    rewrite DbFacts.user_of_update, Hu by reflexivity.
    eexists. split; [reflexivity|]. simpl. repeat split; lia.
  - unfold updateUserExtractionEnd, updateUserTotalProcessingTime.
    rewrite !DbFacts.user_of_update, Hu by reflexivity.
    eexists. split; [reflexivity|]. simpl.
    destruct success; repeat split; lia.
  - unfold updateUserExtractionEndBulk, updateUserTotalProcessingTime.
    rewrite !DbFacts.user_of_update, Hu by reflexivity.
    eexists. split; [reflexivity|]. simpl. repeat split; lia.
Qed.

Lemma uploads_cons (o : op) (ops : list op) :
  (uploads (o :: ops) = uploads [o] + uploads ops)%Z.
Proof. unfold uploads. destruct o; cbn [fold_right]; lia. Qed.

Lemma successes_cons (o : op) (ops : list op) :
  (successes (o :: ops) = successes [o] + successes ops)%Z.
Proof. unfold successes. destruct o as [| |[|]|]; cbn [fold_right]; lia. Qed.

Lemma failures_cons (o : op) (ops : list op) :
  (failures (o :: ops) = failures [o] + failures ops)%Z.
Proof. unfold failures. destruct o as [| |[|]|]; cbn [fold_right]; lia. Qed.

Lemma run_counters (pos : str) (ops : list op) :
  forall (d : Db.t) (u : User.t),
    user_of pos d = Some u ->
    exists u',
      user_of pos (run pos ops d) = Some u' /\
      (User.total_files_uploaded u'
         = User.total_files_uploaded u + uploads ops)%Z /\
      (User.total_files_treated u'
         = User.total_files_treated u + successes ops)%Z /\
      (User.total_files_not_treated u'
         = User.total_files_not_treated u + failures ops)%Z.
Proof.
  induction ops as [|o ops IH]; intros d u Hu.
  - exists u. simpl. repeat split; [exact Hu | lia | lia | lia].
  - destruct (apply_counters pos d o u Hu) as [u1 [H1 [Ha [Hb Hc]]]].
    destruct (IH _ _ H1) as [u2 [H2 [Ha2 [Hb2 Hc2]]]].
    exists u2. split; [exact H2|].
    rewrite (uploads_cons o ops), (successes_cons o ops),
      (failures_cons o ops).
    repeat split; lia.
Qed.

Lemma uploads_app (a b : list op) :
  (uploads (a ++ b) = uploads a + uploads b)%Z.
Proof.
  induction a as [|o a IH]; [simpl; lia|].
  rewrite <- app_comm_cons, uploads_cons, (uploads_cons o a), IH. lia.
Qed.

Lemma successes_app (a b : list op) :
  (successes (a ++ b) = successes a + successes b)%Z.
Proof.
  induction a as [|o a IH]; [simpl; lia|].
  rewrite <- app_comm_cons, successes_cons, (successes_cons o a), IH. lia.
Qed.

Lemma failures_app (a b : list op) :
  (failures (a ++ b) = failures a + failures b)%Z.
Proof.
  induction a as [|o a IH]; [simpl; lia|].
  rewrite <- app_comm_cons, failures_cons, (failures_cons o a), IH. lia.
Qed.

Lemma repeat_uploaded (n : nat) :
  uploads (repeat Uploaded n) = Z.of_nat n /\
  successes (repeat Uploaded n) = 0%Z /\
  failures (repeat Uploaded n) = 0%Z.
Proof.
  induction n as [|n [IH1 [IH2 IH3]]]; [repeat split|].
  change (repeat Uploaded (S n)) with (Uploaded :: repeat Uploaded n).
  rewrite uploads_cons, successes_cons, failures_cons, IH1, IH2, IH3.
  change (uploads [Uploaded]) with 1%Z.
  change (successes [Uploaded]) with 0%Z.
  change (failures [Uploaded]) with 0%Z. repeat split; lia.
Qed.

Lemma outcomes_counts (now : time) (results : list bool) :
  uploads (outcomes now results) = 0%Z /\
  successes (outcomes now results)
    = Z.of_nat (count_occ bool_dec results true) /\
  failures (outcomes now results)
    = Z.of_nat (count_occ bool_dec results false).
Proof.
  induction results as [|b results [IH1 [IH2 IH3]]]; [repeat split|].
  change (outcomes now (b :: results))
    with (Ended b now :: outcomes now results).
  rewrite uploads_cons, successes_cons, failures_cons, IH1, IH2, IH3.
  change (uploads [Ended b now]) with 0%Z.
  destruct b.
  - change (successes [Ended true now]) with 1%Z.
    change (failures [Ended true now]) with 0%Z.
    cbn [count_occ]. destruct (bool_dec true true); [|congruence].
    destruct (bool_dec true false); [discriminate|]. repeat split; lia.
  - change (successes [Ended false now]) with 0%Z.
    change (failures [Ended false now]) with 1%Z.
    cbn [count_occ]. destruct (bool_dec false false); [|congruence].
    destruct (bool_dec false true); [discriminate|]. repeat split; lia.
Qed.

Lemma createUser_fresh (pos : str) (d0 d : Db.t) (i : nat) :
  createUser pos d0 = (d, Some i) ->
  user_of pos d = Some (User.Make i pos 0 0 0 None None 0).
Proof.
  unfold createUser.
  destruct (existsb (is_user pos) (dbt2_user d0)) eqn:E; [discriminate|].
  intros H. injection H as <- <-. unfold user_of. simpl.
  assert (Hn : find (is_user pos) (dbt2_user d0) = None).
  { destruct (find (is_user pos) (dbt2_user d0)) as [v|] eqn:F;
      [|reflexivity].
    apply find_some in F. destruct F as [F1 F2].
    assert (existsb (is_user pos) (dbt2_user d0) = true)
      by (apply existsb_exists; exists v; auto).
    congruence. }
  induction (dbt2_user d0) as [|v l IH].
  - simpl. unfold is_user. simpl. rewrite DbFacts.str_eqb_refl.
    reflexivity.
  - simpl in *. destruct (is_user pos v); [discriminate|].
    apply IH; [apply orb_false_iff in E; apply E | exact Hn].
Qed.

End CounterFacts.

(** C6, as stated, fails: the aggregator's operations are not guarded.
    Recording an outcome on a fresh queue entry that has no upload makes
    treated + not treated exceed uploaded. *)
Lemma outcome_without_upload :
  let d := Aggregator.run (lit "user1") [Aggregator.Ended true 0%Z]
                          Ledger.one_user in
  exists u,
    Db.user_of (lit "user1") d = Some u /\
    Db.User.total_files_uploaded u = 0%Z /\
    Db.User.total_files_treated u = 1%Z /\
    ~ (Db.User.total_files_treated u + Db.User.total_files_not_treated u
       <= Db.User.total_files_uploaded u)%Z.
Proof.
  eexists. split; [vm_compute; reflexivity|]. simpl. repeat split. lia.
Qed.

(** C6, amended.  On a fresh queue entry the three counters record what the
    operations were: uploaded is the number of uploads, treated the number
    of successes and not treated the number of failures recorded, so that
    treated + not treated stays within uploaded exactly when no more
    outcomes than uploads have been recorded.  In particular, after [n]
    uploads and then the outcomes of a batch with [k] successes and [m]
    failures, treated is [k], not treated is [m] and uploaded is [n], which
    is at least [k + m] when [k + m <= n]. *)
Theorem counters_record_operations
        (userPosition : str) (d0 d : Db.t) (i : nat) :
  Db.createUser userPosition d0 = (d, Some i) ->
  (forall ops : list Aggregator.op,
      exists u,
        Db.user_of userPosition (Aggregator.run userPosition ops d) = Some u /\
        Db.User.total_files_uploaded u = Ledger.uploads ops /\
        Db.User.total_files_treated u = Ledger.successes ops /\
        Db.User.total_files_not_treated u = Ledger.failures ops /\
        ((Db.User.total_files_treated u + Db.User.total_files_not_treated u
          <= Db.User.total_files_uploaded u)%Z <->
         (Ledger.successes ops + Ledger.failures ops
          <= Ledger.uploads ops)%Z)) /\
  (forall (n : nat) (now : Db.time) (results : list bool),
      let k := count_occ bool_dec results true in
      let m := count_occ bool_dec results false in
      exists u,
        Db.user_of userPosition
          (Aggregator.run userPosition
             (repeat Aggregator.Uploaded n ++ Ledger.outcomes now results) d)
          = Some u /\
        Db.User.total_files_treated u = Z.of_nat k /\
        Db.User.total_files_not_treated u = Z.of_nat m /\
        Db.User.total_files_uploaded u = Z.of_nat n /\
        (k + m <= n ->
         (Z.of_nat (k + m) <= Db.User.total_files_uploaded u)%Z /\
         (Db.User.total_files_treated u + Db.User.total_files_not_treated u
          <= Db.User.total_files_uploaded u)%Z)).
Proof.
  intros Hc. pose proof (CounterFacts.createUser_fresh _ _ _ _ Hc) as Hu. split.
  - intros ops.
    destruct (CounterFacts.run_counters userPosition ops _ _ Hu)
      as [u [H [Ha [Hb Hc']]]].
    simpl in Ha, Hb, Hc'. exists u.
    split; [exact H|]. rewrite Ha, Hb, Hc'. repeat split; lia.
  - intros n now results k m.
    destruct (CounterFacts.run_counters userPosition
                (repeat Aggregator.Uploaded n ++ Ledger.outcomes now results)
                _ _ Hu) as [u [H [Ha [Hb Hc']]]].
    simpl in Ha, Hb, Hc'.
    rewrite CounterFacts.uploads_app in Ha.
    rewrite CounterFacts.successes_app in Hb.
    rewrite CounterFacts.failures_app in Hc'.
    destruct (CounterFacts.repeat_uploaded n) as [R1 [R2 R3]].
    destruct (CounterFacts.outcomes_counts now results) as [O1 [O2 O3]].
    rewrite R1, O1 in Ha. rewrite R2, O2 in Hb. rewrite R3, O3 in Hc'.
    exists u. split; [exact H|]. fold k in Hb. fold m in Hc'.
    repeat split; lia.
Qed.

(** Three uploads, then two successes and one failure. *)
Lemma counters_record_operations_witness :
  exists u,
    Db.user_of (lit "user1")
      (Aggregator.run (lit "user1")
         (repeat Aggregator.Uploaded 3
          ++ Ledger.outcomes 0%Z [true; false; true]) Ledger.one_user)
      = Some u /\
    Db.User.total_files_treated u = 2%Z /\
    Db.User.total_files_not_treated u = 1%Z /\
    Db.User.total_files_uploaded u = 3%Z.
Proof.
  destruct (proj2 (@counters_record_operations (lit "user1") Db.empty
                     Ledger.one_user 1 eq_refl)
                  3 0%Z [true; false; true])
    as [u [H [Ha [Hb [Hc _]]]]].
  exists u. repeat split; assumption.
Defined.

(** ** The life of a file record *)

Module RecordFacts.
Import Db Ledger.

(** An update by the id that the sequence gives next touches the last row
    only. *)
Lemma update_last (l : list File.t) (n : nat) (r : File.t)
      (f : File.t -> File.t) :
  Forall (fun x => File.id x <= n) l -> File.id r = S n ->
  map (fun x => if File.id x =? S n then f x else x) (l ++ [r])
  = l ++ [f r].
Proof.
  intros Hl Hr. rewrite map_app. simpl. rewrite Hr, Nat.eqb_refl.
  f_equal. induction Hl as [|x l Hx _ IH]; [reflexivity|].
  simpl. rewrite IH.
  destruct (File.id x =? S n) eqn:E; [|reflexivity].
  apply Nat.eqb_eq in E. lia.
Qed.

End RecordFacts.

(** C7, as stated, fails: the INSERT of [addFile] names the state, so a new
    record is in state ['processing'], not ['pending']. *)
Lemma addFile_state_is_processing :
  let (d, fileId) := Db.addFile Ledger.a_file 0%Z Ledger.one_user in
  option_map Db.File.extraction_state (Db.file_of fileId d)
    = Some (lit "processing") /\
  option_map Db.File.extraction_state (Db.file_of fileId d)
    <> Some (lit "pending").
Proof.
  vm_compute. split; [reflexivity|]. intros E. discriminate E.
Qed.

(** C7, amended.  [addFile] appends a record in state ['processing'], with
    the start time set and the language, the end time and the duration
    unset; its id is the next of the sequence.  The upload handler then
    completes it: when the engine fails, by one update that stores
    ['failed'], the language ['unknown'], the end time and the duration;
    when it succeeds, by that update with ['success'] and a second one that
    stores the generated file name; and when the output file can then not
    be written, by a third update, which stores ['failed'] and ['unknown']
    over the success and leaves the generated name.  The earlier records
    are left alone. *)
Theorem file_record_lifecycle
        (d : Db.t) (fd : Db.fileData) (fileExtension : str)
        (t0 t1 : Db.time) (now iso : str) :
  let fileId := S (Db.dbt3_seq d) in
  let created (ai : str) (language : option str) (finish : option Db.time)
              (elapsed : option Z) (state : str) :=
    Db.File.Make fileId (Db.fd_file_name fd) (Db.fd_user_queue_position fd)
                 ai (Db.fd_file_type fd) (Db.fd_output_file_type fd)
                 language (Some t0) finish elapsed state in
  Db.addFile fd t0 d =
    (Db.Make (Db.dbt1_developer d) (Db.dbt2_user d) (Db.dbt2_seq d)
             (Db.dbt3_file d ++
              [created (Db.fd_ai_file_name fd) None None None
                       (lit "processing")])
             fileId,
     fileId) /\
  (Ledger.ids_ok d ->
   (forall written : bool,
       Db.dbt3_file
         (fst (Server.upload fd fileExtension None written t0 t1 now iso d))
       = Db.dbt3_file d ++
         [created (Db.fd_ai_file_name fd) (Some (lit "unknown")) (Some t1)
                  (Some (t1 - t0)%Z) (lit "failed")]) /\
   forall extractedText : str,
     Db.dbt3_file
       (fst (Server.upload fd fileExtension (Some extractedText) true t0 t1
                           now iso d))
     = Db.dbt3_file d ++
       [created (generateAIFileName extractedText fileExtension now iso)
                (Some (if nonempty extractedText then lit "eng"
                       else lit "unknown"))
                (Some t1) (Some (t1 - t0)%Z) (lit "success")] /\
     Db.dbt3_file
       (fst (Server.upload fd fileExtension (Some extractedText) false t0 t1
                           now iso d))
     = Db.dbt3_file d ++
       [created (generateAIFileName extractedText fileExtension now iso)
                (Some (lit "unknown"))
                (Some t1) (Some (t1 - t0)%Z) (lit "failed")]).
Proof.
  intros fileId created. split; [reflexivity|].
  intros Hok. unfold Ledger.ids_ok in Hok. split.
  - intros written. unfold Server.upload.
    cbn -[generateAIFileName Z.sub lit].
    rewrite (@RecordFacts.update_last _ _ _ _ Hok) by reflexivity.
    reflexivity.
  - intros extractedText. split.
    + unfold Server.upload. cbn -[generateAIFileName Z.sub lit nonempty].
      rewrite (@RecordFacts.update_last _ _ _ _ Hok) by reflexivity.
      rewrite (@RecordFacts.update_last _ _ _ _ Hok) by reflexivity.
      reflexivity.
    + unfold Server.upload. cbn -[generateAIFileName Z.sub lit nonempty].
      rewrite (@RecordFacts.update_last _ _ _ _ Hok) by reflexivity.
      rewrite (@RecordFacts.update_last _ _ _ _ Hok) by reflexivity.
      rewrite (@RecordFacts.update_last _ _ _ _ Hok) by reflexivity.
      reflexivity.
Qed.

(** An upload whose text is read and whose output cannot be written: the
    record ends as failed, under the generated name. *)
Lemma file_record_lifecycle_witness :
  Db.dbt3_file
    (fst (Server.upload Ledger.a_file (lit ".png") (Some (lit "Dear John"))
            false 0%Z 4%Z (lit "1700000000000")
            (lit "2023-11-14T22:13:20.000Z") Ledger.one_user))
  = [Db.File.Make 1 (lit "scan.png") (lit "user1")
       (lit "letter_Dear_John_2023-11-14T22-13-20.png") (lit "PNG")
       (lit "TXT") (Some (lit "unknown")) (Some 0%Z) (Some 4%Z) (Some 4%Z)
       (lit "failed")].
Proof.
  apply (proj2 (proj2 (proj2 (file_record_lifecycle Ledger.one_user
                                Ledger.a_file (lit ".png") 0%Z 4%Z
                                (lit "1700000000000")
                                (lit "2023-11-14T22:13:20.000Z"))
                             (Forall_nil _))
                      (lit "Dear John"))).
Defined.

(** ** Queue positions *)

Module PositionFacts.
Import Db Server Ledger.

Lemma lit_inj (a b : string) : lit a = lit b -> a = b.
Proof.
  unfold lit. intros H.
  rewrite <- (string_of_list_ascii_of_string a),
    <- (string_of_list_ascii_of_string b), H.
  reflexivity.
Qed.

Lemma decimal_inj (i j : nat) : decimal i = decimal j -> i = j.
Proof.
  unfold decimal. intros H. apply lit_inj in H.
  assert (E : Some (Nat.to_uint i) = Some (Nat.to_uint j))
    by (rewrite <- !NilEmpty.usu, H; reflexivity).
  injection E as E.
  rewrite <- (Unsigned.of_to i), <- (Unsigned.of_to j), E. reflexivity.
Qed.

Lemma token_inj (i j : nat) : token i = token j -> i = j.
Proof.
  unfold token. intros H. apply app_inv_head in H.
  apply decimal_inj, H.
Qed.

Lemma next_is_token (d : Db.t) :
  getNextUserPosition d = token (length (dbt2_user d) + 1).
Proof. reflexivity. Qed.

(** Whether [token i] is in a table that holds user1 ... user[n]. *)
Lemma present (d : Db.t) (i : nat) :
  positions_ok d ->
  existsb (is_user (token i)) (dbt2_user d) = true
  <-> 1 <= i <= length (dbt2_user d).
Proof.
  unfold positions_ok. intros Hok.
  rewrite existsb_exists. split.
  - intros [u [Hin Hu]]. unfold is_user in Hu.
    apply DbFacts.str_eqb_eq in Hu.
    assert (Hp : In (User.user_queue_position u)
                    (map User.user_queue_position (dbt2_user d)))
      by (apply in_map, Hin).
    rewrite Hok, Hu in Hp. apply in_map_iff in Hp.
    destruct Hp as [j [Hj Hin']]. apply token_inj in Hj. subst j.
    apply in_seq in Hin'. lia.
  - intros Hi.
    assert (Hp : In (token i)
                    (map User.user_queue_position (dbt2_user d))).
    { rewrite Hok. apply in_map, in_seq. lia. }
    apply in_map_iff in Hp. destruct Hp as [u [Hu Hin]].
    exists u. split; [exact Hin|]. unfold is_user.
    rewrite Hu. apply DbFacts.str_eqb_refl.
Qed.

(** An insert of [token i], with [i] at most one beyond the table, keeps
    the table in order: it is refused unless [i] is the next one. *)
Lemma createUser_token (d : Db.t) (i : nat) :
  positions_ok d -> 1 <= i <= length (dbt2_user d) + 1 ->
  let d' := fst (createUser (token i) d) in
  positions_ok d' /\
  (i <= length (dbt2_user d) ->
   createUser (token i) d = (d, None)) /\
  (i = length (dbt2_user d) + 1 ->
   snd (createUser (token i) d) = Some (S (dbt2_seq d)) /\
   length (dbt2_user d') = length (dbt2_user d) + 1).
Proof.
  intros Hok Hi. pose proof (present d i Hok) as Hp.
  unfold createUser.
  destruct (existsb (is_user (token i)) (dbt2_user d)) eqn:E; simpl.
  - split; [exact Hok|]. split; [reflexivity|].
    intros ->. assert (H : true = true) by reflexivity.
    apply Hp in H. lia.
  - assert (Hn : i = length (dbt2_user d) + 1).
    { destruct (Nat.eq_dec i (length (dbt2_user d) + 1)) as [|Hne];
        [assumption|].
      assert (H : 1 <= i <= length (dbt2_user d)) by lia.
      apply Hp in H. discriminate H. }
    split; [|split].
    + unfold positions_ok in *. simpl.
      rewrite length_app, map_app, Hok. simpl length.
      rewrite Nat.add_1_r, seq_S, map_app. simpl.
      rewrite Hn, Nat.add_1_r. reflexivity.
    + intros Hle. lia.
    + intros _. rewrite length_app. simpl. split; [reflexivity | lia].
Qed.

Lemma getUserSession_ok (d : Db.t) :
  positions_ok d ->
  let (d', r) := getUserSession d in
  r = Some (token (length (dbt2_user d) + 1)) /\
  positions_ok d' /\
  length (dbt2_user d') = length (dbt2_user d) + 1.
Proof.
  intros Hok. unfold getUserSession. rewrite next_is_token.
  destruct (@createUser_token d (length (dbt2_user d) + 1) Hok)
    as [H1 [_ H3]]; [lia|].
  destruct (H3 eq_refl) as [H4 H5].
  destruct (createUser (token (length (dbt2_user d) + 1)) d)
    as [d' [j|]] eqn:E; simpl in *; [|discriminate].
  repeat split; assumption.
Qed.

Lemma sessions_ok (n : nat) :
  forall d : Db.t,
    positions_ok d ->
    snd (sessions n d)
      = map (fun i => Some (token i)) (seq (length (dbt2_user d) + 1) n)
    /\ positions_ok (fst (sessions n d)).
Proof.
  induction n as [|n IH]; intros d Hok; [split; [reflexivity | exact Hok]|].
  simpl. pose proof (getUserSession_ok d Hok) as H.
  destruct (getUserSession d) as [d1 r]. destruct H as [-> [Hok1 Hlen]].
  destruct (IH d1 Hok1) as [Hs Hf].
  destruct (sessions n d1) as [d2 rs]. simpl in *.
  split; [|exact Hf].
  rewrite Hs, Hlen, !Nat.add_1_r. reflexivity.
Qed.

Lemma step_ok (p : pool) (e : event) : pool_ok p -> pool_ok (step p e).
Proof.
  intros [Hok Hall]. destruct e as [c|c]; simpl.
  - split; [exact Hok|]. simpl. apply Forall_app. split; [exact Hall|].
    constructor; [|constructor]. simpl.
    exists (length (dbt2_user (store p)) + 1). split; [lia|].
    apply next_is_token.
  - unfold held.
    destruct (find (fun e => fst e =? c) (allocated p)) as [e|] eqn:F;
      [|split; assumption].
    apply find_some in F. destruct F as [Fin _].
    rewrite Forall_forall in Hall. destruct (Hall e Fin) as [i [Hi He]].
    rewrite He.
    destruct (@createUser_token (store p) i Hok Hi) as [H1 [H2 H3]].
    destruct (le_lt_dec i (length (dbt2_user (store p)))) as [Hle|Hgt].
    + rewrite (H2 Hle). split; [exact Hok|]. simpl.
      apply Forall_forall. exact Hall.
    + destruct (H3 ltac:(lia)) as [H4 H5].
      destruct (createUser (token i) (store p)) as [d' [j|]] eqn:E;
        simpl in *; [|discriminate].
      split; [exact H1|]. simpl. apply Forall_forall. intros x Hx.
      destruct (Hall x Hx) as [k [Hk Hxk]]. exists k. split; [lia|].
      exact Hxk.
Qed.

Lemma schedule_ok (es : list event) :
  forall p : pool, pool_ok p -> pool_ok (fold_left step es p).
Proof.
  induction es as [|e es IH]; intros p Hp; [exact Hp|].
  simpl. apply IH, step_ok, Hp.
Qed.

Lemma positions_NoDup (d : Db.t) :
  positions_ok d -> NoDup (map User.user_queue_position (dbt2_user d)).
Proof.
  unfold positions_ok. intros ->.
  apply NoDup_map_NoDup_ForallPairs; [|apply seq_NoDup].
  intros i j _ _. apply token_inj.
Qed.

End PositionFacts.

(** C4, as stated, fails: two callers that read the count before either has
    inserted get the same token.  The returned tokens are [user1] twice, a
    set of one element for two allocations. *)
Lemma overlapping_sessions_collide :
  let p := Server.schedule [Server.Read 1; Server.Read 2] Db.empty in
  Server.tokens p = [lit "user1"; lit "user1"] /\
  ~ NoDup (Server.tokens p) /\
  length (nodup (list_eq_dec ascii_dec) (Server.tokens p)) <> 2.
Proof.
  split; [reflexivity|]. split.
  - intros H. change (Server.tokens
                        (Server.schedule [Server.Read 1; Server.Read 2]
                                         Db.empty))
      with [lit "user1"; lit "user1"] in H.
    inversion H as [|x l Hn _]; subst. apply Hn. left. reflexivity.
  - vm_compute. intros E. discriminate E.
Qed.

(** C4, amended.  [getNextUserPosition] returns [user] followed by the
    number of rows plus one.  When the session requests are served one
    after the other on a table that holds user1 ... user[c], the [n] tokens
    handed out are user[c+1], ..., user[c+n]: increasing and pairwise
    distinct.  Under any interleaving of the reads and inserts of
    overlapping requests the positions stored in the table stay pairwise
    distinct (the UNIQUE column refuses the insert of a token that was
    handed out twice), though the tokens returned need not be. *)
Theorem positions_serial (d : Db.t) (n : nat) :
  Ledger.positions_ok d ->
  Db.getNextUserPosition d = Ledger.token (length (Db.dbt2_user d) + 1) /\
  snd (Server.sessions n d)
    = map (fun i => Some (Ledger.token i))
          (seq (length (Db.dbt2_user d) + 1) n) /\
  NoDup (snd (Server.sessions n d)) /\
  (forall es : list Server.event,
      let d' := Server.store (Server.schedule es d) in
      Ledger.positions_ok d' /\
      NoDup (map Db.User.user_queue_position (Db.dbt2_user d'))).
Proof.
  intros Hok. split; [reflexivity|].
  destruct (PositionFacts.sessions_ok n d Hok) as [Hs _].
  split; [exact Hs|]. split.
  - rewrite Hs. apply NoDup_map_NoDup_ForallPairs; [|apply seq_NoDup].
    intros i j _ _ E. apply PositionFacts.token_inj. congruence.
  - intros es d'.
    assert (Hp : Ledger.pool_ok (Server.schedule es d)).
    { apply PositionFacts.schedule_ok. split; [exact Hok|]. constructor. }
    destruct Hp as [Hp _]. split; [exact Hp|].
    apply PositionFacts.positions_NoDup, Hp.
Qed.

(** Three sessions on a new store get user1, user2 and user3. *)
Lemma positions_serial_witness :
  snd (Server.sessions 3 Db.empty)
  = [Some (lit "user1"); Some (lit "user2"); Some (lit "user3")].
Proof.
  apply (proj1 (proj2 (@positions_serial Db.empty 3 eq_refl))).
Defined.

(** * Properties of the keyword extractor *)

(** ** The tokens *)

Module TokenFacts.
Import Ranking.

Lemma lower_is_word (c : ascii) :
  Char.is_lower c = true -> Char.is_word c = true.
Proof. unfold Char.is_word. intros ->. reflexivity. Qed.

Lemma runs_skip (P : ascii -> bool) (c : ascii) (s : str) :
  P c = false -> runs P (c :: s) = runs P s.
Proof. intros H. simpl. rewrite H. reflexivity. Qed.

Lemma runs_take (P : ascii -> bool) (s : str) :
  forall c, P c = true ->
            runs P (c :: s) = (c :: leading P s) :: runs P (after P s).
Proof.
  induction s as [|d s IH]; intros c Hc.
  - simpl. rewrite Hc. reflexivity.
  - change (runs P (c :: d :: s))
      with (if P c then
              if P d then
                match runs P (d :: s) with
                | w :: ws => (c :: w) :: ws
                | [] => [[c]]
                end
              else [c] :: runs P (d :: s)
            else runs P (d :: s)).
    rewrite Hc. simpl leading. simpl after.
    destruct (P d) eqn:Hd; [|reflexivity].
    rewrite (IH d Hd). reflexivity.
Qed.

Lemma leading_after (P : ascii -> bool) (s : str) :
  s = leading P s ++ after P s.
Proof.
  induction s as [|c s IH]; [reflexivity|]. simpl.
  destruct (P c); [simpl; f_equal; exact IH | reflexivity].
Qed.

Lemma leading_all (P : ascii -> bool) (s : str) :
  forallb P (leading P s) = true.
Proof.
  induction s as [|c s IH]; [reflexivity|]. simpl.
  destruct (P c) eqn:E; [simpl; rewrite E, IH|]; reflexivity.
Qed.

Lemma after_head (P : ascii -> bool) (s : str) (c : ascii) :
  Regex.next (after P s) = Some c -> P c = false.
Proof.
  induction s as [|d s IH]; [discriminate|]. simpl.
  destruct (P d) eqn:E; [exact IH|]. simpl. intros H.
  injection H as <-. exact E.
Qed.

(** When the letters of a prefix end at a character that is not a word
    character, the word run and the letter run are the same. *)
Lemma word_run_is_letter_run (s : str) :
  Regex.word_at (Regex.next (after Char.is_lower s)) = false ->
  leading Char.is_word s = leading Char.is_lower s /\
  after Char.is_word s = after Char.is_lower s.
Proof.
  induction s as [|c s IH]; [split; reflexivity|]. simpl.
  destruct (Char.is_lower c) eqn:El.
  - rewrite (lower_is_word _ El). intros H. destruct (IH H) as [-> ->].
    split; reflexivity.
  - simpl. intros ->. split; reflexivity.
Qed.

(** When they end at a word character, the word run has a character that
    is not a lower-case letter. *)
Lemma word_run_not_letters (s : str) :
  Regex.word_at (Regex.next (after Char.is_lower s)) = true ->
  forallb Char.is_lower (leading Char.is_word s) = false.
Proof.
  induction s as [|c s IH]; [discriminate|]. simpl.
  destruct (Char.is_lower c) eqn:El.
  - rewrite (lower_is_word _ El). intros H. simpl. rewrite El, (IH H).
    reflexivity.
  - simpl. intros ->. simpl. rewrite El. reflexivity.
Qed.

Lemma after_fixed (P : ascii -> bool) (s : str) :
  match Regex.next s with Some c => P c | None => false end = false ->
  after P s = s.
Proof.
  destruct s as [|c s]; [reflexivity|]. simpl. intros ->. reflexivity.
Qed.

(** [[a-z]*] then [\b], entered after a letter: all the letters that
    follow are taken, and the match stands when no word character
    comes next. *)
Lemma rep_letters (s : str) :
  forall (p : option ascii) (i : nat),
    Regex.word_at p = true ->
    if Regex.word_at (Regex.next (after Char.is_lower s))
    then Regex.rep (Regex.member false Char.is_lower) at_boundary s 0 None
                   p i None = None
    else exists y,
        Regex.rep (Regex.member false Char.is_lower) at_boundary s 0 None
                  p i None = Some y /\
        Regex.pos y = i + length (leading Char.is_lower s).
Proof.
  induction s as [|c s IH]; intros p i Hp.
  - simpl. unfold at_boundary. simpl. rewrite Hp. simpl.
    eexists. split; [reflexivity|]. simpl. lia.
  - cbn [after leading Regex.rep Nat.eqb Regex.may_take andb Nat.pred
         option_map Regex.member].
    destruct (Char.is_lower c) eqn:El.
    + specialize (IH (Some c) (S i) (lower_is_word _ El)).
      destruct (Regex.word_at (Regex.next (after Char.is_lower s))).
      * rewrite IH. unfold at_boundary. simpl. rewrite Hp.
        rewrite (lower_is_word _ El). reflexivity.
      * destruct IH as [y [-> Hy]]. exists y. split; [reflexivity|].
        simpl. lia.
    + cbn [Regex.next Regex.word_at].
      unfold at_boundary. simpl. rewrite Hp.
      destruct (Char.is_word c); simpl.
      * reflexivity.
      * eexists. split; [reflexivity|]. simpl. lia.
Qed.

Lemma attempt_unfold (p : option ascii) (s : str) (i : nat) :
  Regex.attempt false Keywords.re_word p s i =
  if xorb (Regex.word_at p) (Regex.word_at (Regex.next s))
  then Regex.rep (Regex.member false Char.is_lower) at_boundary s 1 None
                 p i None
  else None.
Proof. reflexivity. Qed.

(** One attempt of [\b[a-z]+\b]. *)
Lemma attempt_word (p : option ascii) (s : str) (i : nat) :
  match s with
  | c :: s' =>
      if negb (Regex.word_at p) && Char.is_lower c
      then if Regex.word_at (Regex.next (after Char.is_lower s'))
           then Regex.attempt false Keywords.re_word p s i = None
           else exists y,
               Regex.attempt false Keywords.re_word p s i = Some y /\
               Regex.pos y = S i + length (leading Char.is_lower s')
      else Regex.attempt false Keywords.re_word p s i = None
  | [] => Regex.attempt false Keywords.re_word p s i = None
  end.
Proof.
  rewrite attempt_unfold.
  destruct s as [|c s'].
  - simpl. destruct (Regex.word_at p); reflexivity.
  - cbn [Regex.next Regex.word_at Regex.rep Nat.eqb Regex.may_take andb
         Nat.pred option_map Regex.member].
    destruct (Char.is_lower c) eqn:El.
    + rewrite (lower_is_word _ El).
      destruct (Regex.word_at p) eqn:Hp; cbn [negb andb xorb];
        [reflexivity|].
      pose proof (rep_letters s' (Some c) (S i) (lower_is_word _ El))
        as H.
      destruct (Regex.word_at (Regex.next (after Char.is_lower s'))).
      * rewrite H. reflexivity.
      * destruct H as [y [-> Hy]]. exists y. split; [reflexivity|].
        exact Hy.
    + rewrite andb_false_r.
      destruct (xorb (Regex.word_at p) (Char.is_word c)); reflexivity.
Qed.

Lemma scan_skip (ci : bool) (r : Regex.regex) (p : option ascii)
      (c : ascii) (s : str) (i n : nat) :
  Regex.scan ci r p (c :: s) i (S n) = Regex.scan ci r (Some c) s (S i) n.
Proof. reflexivity. Qed.

Lemma scan_none (ci : bool) (r : Regex.regex) (p : option ascii)
      (c : ascii) (s : str) (i : nat) :
  Regex.attempt ci r p (c :: s) i = None ->
  Regex.scan ci r p (c :: s) i 0 = Regex.scan ci r (Some c) s (S i) 0.
Proof. intros H. simpl. rewrite H. reflexivity. Qed.

Lemma scan_some (ci : bool) (r : Regex.regex) (p : option ascii)
      (c : ascii) (s : str) (i : nat) (y : Regex.mstate) :
  Regex.attempt ci r p (c :: s) i = Some y ->
  Regex.scan ci r p (c :: s) i 0 =
  (i, Regex.pos y)
    :: Regex.scan ci r (Some c) s (S i) (Nat.pred (Regex.pos y - i)).
Proof. intros H. simpl. rewrite H. reflexivity. Qed.

Lemma firstn_leading (P : ascii -> bool) (s : str) :
  firstn (length (leading P s)) s = leading P s.
Proof.
  induction s as [|c s IH]; [reflexivity|]. simpl.
  destruct (P c); [simpl; f_equal; exact IH | reflexivity].
Qed.

Lemma skipn_leading (P : ascii -> bool) (s : str) :
  skipn (length (leading P s)) s = after P s.
Proof.
  induction s as [|c s IH]; [reflexivity|]. simpl.
  destruct (P c); [simpl; exact IH | reflexivity].
Qed.

Lemma length_leading (P : ascii -> bool) (s : str) :
  length (leading P s) <= length s.
Proof.
  induction s as [|c s IH]; [reflexivity|]. simpl.
  destruct (P c); simpl; lia.
Qed.

Lemma slice_suffix (pre s : str) (k : nat) :
  Regex.slice (length pre) (length pre + k) (pre ++ s) = firstn k s.
Proof.
  unfold Regex.slice. replace (length pre + k - length pre) with k by lia.
  f_equal. induction pre as [|c pre IH]; [reflexivity | exact IH].
Qed.

Lemma texts_cons (s0 : str) (i j : nat) (l : list (nat * nat)) :
  texts s0 ((i, j) :: l) = Regex.slice i j s0 :: texts s0 l.
Proof. reflexivity. Qed.

Lemma bounded_skip (c : ascii) (s : str) :
  Char.is_word c = false -> bounded_words (c :: s) = bounded_words s.
Proof.
  intros H. unfold bounded_words. rewrite runs_skip by exact H.
  reflexivity.
Qed.

Lemma bounded_drop (c : ascii) (s : str) :
  Char.is_word c = true ->
  forallb Char.is_lower (c :: leading Char.is_word s) = false ->
  bounded_words (c :: s) = bounded_words (after Char.is_word s).
Proof.
  intros H Hn. unfold bounded_words. rewrite runs_take by exact H.
  cbn [filter]. rewrite Hn. reflexivity.
Qed.

Lemma bounded_take (c : ascii) (s : str) :
  Char.is_lower c = true ->
  Regex.word_at (Regex.next (after Char.is_lower s)) = false ->
  bounded_words (c :: s)
  = (c :: leading Char.is_lower s) :: bounded_words (after Char.is_lower s).
Proof.
  intros Hc Hn. unfold bounded_words.
  rewrite runs_take by (apply lower_is_word, Hc).
  destruct (word_run_is_letter_run s Hn) as [-> ->].
  cbn [filter forallb]. rewrite Hc, leading_all. reflexivity.
Qed.

(** The matches of [/\b[a-z]+\b/g], from a position that follows a
    character that is not a word character, from one that follows a word
    character, and from inside a match. *)
Lemma scan_words (s : str) :
  (forall pre p,
      Regex.word_at p = false ->
      texts (pre ++ s)
            (Regex.scan false Keywords.re_word p s (length pre) 0)
      = bounded_words s) /\
  (forall pre p,
      Regex.word_at p = true ->
      texts (pre ++ s)
            (Regex.scan false Keywords.re_word p s (length pre) 0)
      = bounded_words (after Char.is_word s)) /\
  (forall pre p n,
      Regex.word_at p = true -> n <= length s ->
      forallb Char.is_lower (firstn n s) = true ->
      Regex.word_at (Regex.next (skipn n s)) = false ->
      texts (pre ++ s)
            (Regex.scan false Keywords.re_word p s (length pre) n)
      = bounded_words (skipn n s)).
Proof.
  induction s as [|c s [IH1 [IH2 IH3]]].
  - assert (H0 : forall pre p,
               texts (pre ++ [])
                     (Regex.scan false Keywords.re_word p [] (length pre) 0)
               = []).
    { intros pre p. simpl.
      pose proof (attempt_word p [] (length pre)) as H. simpl in H.
      rewrite H. reflexivity. }
    split; [|split].
    + intros pre p _. apply H0.
    + intros pre p _. apply H0.
    + intros pre p n _ Hn _ _. simpl in Hn.
      assert (n = 0) by lia. subst n. apply H0.
  - assert (Hstep : forall pre : str,
               pre ++ c :: s = (pre ++ [c]) ++ s /\
               S (length pre) = length (pre ++ [c])).
    { intros pre. rewrite <- app_assoc, length_app. simpl.
      split; [reflexivity | lia]. }
    assert (H1 : forall pre p,
               Regex.word_at p = false ->
               texts (pre ++ c :: s)
                     (Regex.scan false Keywords.re_word p (c :: s)
                                 (length pre) 0)
               = bounded_words (c :: s)).
    { intros pre p Hp.
      pose proof (attempt_word p (c :: s) (length pre)) as Ha.
      cbn beta iota in Ha. rewrite Hp in Ha. cbn [negb andb] in Ha.
      destruct (Hstep pre) as [E1 E2].
      destruct (Char.is_lower c) eqn:El.
      - destruct (Regex.word_at (Regex.next (after Char.is_lower s)))
          eqn:Hn.
        + rewrite (scan_none _ _ _ _ _ _ Ha), E1, E2.
          rewrite IH2 by (simpl; apply lower_is_word, El).
          symmetry. apply bounded_drop; [apply lower_is_word, El|].
          cbn [forallb]. rewrite (word_run_not_letters _ Hn).
          apply andb_false_r.
        + destruct Ha as [y [Ha Hy]].
          rewrite (scan_some _ _ _ _ _ _ _ Ha), Hy.
          replace (Nat.pred (S (length pre) + length
                               (leading Char.is_lower s) - length pre))
            with (length (leading Char.is_lower s)) by lia.
          rewrite texts_cons.
          replace (S (length pre) + length (leading Char.is_lower s))
            with (length pre + S (length (leading Char.is_lower s)))
            by lia.
          rewrite slice_suffix. cbn [firstn]. rewrite firstn_leading.
          rewrite E1, E2, IH3.
          * rewrite skipn_leading. symmetry.
            apply bounded_take; assumption.
          * simpl. apply lower_is_word, El.
          * apply length_leading.
          * rewrite firstn_leading. apply leading_all.
          * rewrite skipn_leading. exact Hn.
      - rewrite (scan_none _ _ _ _ _ _ Ha), E1, E2.
        destruct (Char.is_word c) eqn:Ew.
        + rewrite IH2 by exact Ew. symmetry.
          apply bounded_drop; [exact Ew|]. cbn [forallb]. rewrite El.
          reflexivity.
        + rewrite IH1 by exact Ew. symmetry. apply bounded_skip, Ew. }
    assert (H2 : forall pre p,
               Regex.word_at p = true ->
               texts (pre ++ c :: s)
                     (Regex.scan false Keywords.re_word p (c :: s)
                                 (length pre) 0)
               = bounded_words (after Char.is_word (c :: s))).
    { intros pre p Hp.
      pose proof (attempt_word p (c :: s) (length pre)) as Ha.
      cbn beta iota in Ha. rewrite Hp in Ha. cbn [negb andb] in Ha.
      destruct (Hstep pre) as [E1 E2].
      rewrite (scan_none _ _ _ _ _ _ Ha), E1, E2. cbn [after].
      destruct (Char.is_word c) eqn:Ew.
      - apply IH2. exact Ew.
      - rewrite IH1 by exact Ew. symmetry. apply bounded_skip, Ew. }
    split; [exact H1|]. split; [exact H2|].
    intros pre p n Hp Hn Hall Hnext. destruct n as [|n].
    + rewrite H2 by exact Hp. cbn [skipn] in *.
      rewrite after_fixed; [reflexivity|].
      cbn [Regex.next Regex.word_at] in *. exact Hnext.
    + destruct (Hstep pre) as [E1 E2].
      rewrite scan_skip, E1, E2. cbn [firstn forallb skipn length] in *.
      apply andb_true_iff in Hall. destruct Hall as [Hc Hall].
      apply IH3; [apply lower_is_word, Hc | lia | exact Hall | exact Hnext].
Qed.

(** The words [extractKeywords] counts. *)
Lemma match_all_words (s : str) :
  Regex.match_all false Keywords.re_word s = bounded_words s.
Proof.
  destruct (scan_words s) as [H _]. apply (H [] None). reflexivity.
Qed.

End TokenFacts.

(** ** The count *)

Module CountFacts.
Import Keywords Ranking.

Lemma str_eqb_sym (a b : str) : str_eqb a b = str_eqb b a.
Proof.
  destruct (str_eqb a b) eqn:E1, (str_eqb b a) eqn:E2; try reflexivity.
  - apply DbFacts.str_eqb_eq in E1. subst.
    rewrite DbFacts.str_eqb_refl in E2. discriminate E2.
  - apply DbFacts.str_eqb_eq in E2. subst.
    rewrite DbFacts.str_eqb_refl in E1. discriminate E1.
Qed.

Lemma mem_In (w : str) (ws : list str) : mem w ws = true <-> In w ws.
Proof.
  unfold mem. rewrite existsb_exists. split.
  - intros [v [Hin E]]. apply DbFacts.str_eqb_eq in E. subst. exact Hin.
  - intros Hin. exists w. split; [exact Hin | apply DbFacts.str_eqb_refl].
Qed.

Lemma mem_false (w : str) (ws : list str) :
  mem w ws = false <-> ~ In w ws.
Proof.
  rewrite <- mem_In. destruct (mem w ws); split; intros H;
    try reflexivity; try discriminate; try (intros E; discriminate E).
  exfalso. apply H. reflexivity.
Qed.

Lemma distinct_In (w : str) (ws : list str) :
  In w (distinct ws) <-> In w ws.
Proof.
  induction ws as [|a ws IH]; [reflexivity|]. simpl.
  rewrite filter_In, IH. split.
  - intros [H | [H _]]; [left | right]; assumption.
  - intros [H | H]; [left; exact H|].
    destruct (str_eqb w a) eqn:E.
    + left. apply DbFacts.str_eqb_eq in E. congruence.
    + right. split; [exact H | reflexivity].
Qed.

Lemma distinct_NoDup (ws : list str) : NoDup (distinct ws).
Proof.
  induction ws as [|a ws IH]; simpl; constructor.
  - rewrite filter_In. intros [_ H].
    rewrite DbFacts.str_eqb_refl in H. discriminate H.
  - apply NoDup_filter, IH.
Qed.

Lemma mem_distinct (w : str) (ws : list str) :
  mem w (distinct ws) = mem w ws.
Proof.
  destruct (mem w ws) eqn:E.
  - apply mem_In, distinct_In, mem_In, E.
  - apply mem_false. rewrite distinct_In. apply mem_false, E.
Qed.

Lemma distinct_snoc (ws : list str) (w : str) :
  distinct (ws ++ [w]) =
  if mem w ws then distinct ws else distinct ws ++ [w].
Proof.
  induction ws as [|a ws IH]; [reflexivity|].
  simpl. rewrite IH. unfold mem in *. simpl.
  destruct (str_eqb w a) eqn:E; simpl.
  - destruct (existsb (str_eqb w) ws); [reflexivity|].
    rewrite filter_app. simpl. rewrite E. simpl.
    rewrite app_nil_r. reflexivity.
  - destruct (existsb (str_eqb w) ws); [reflexivity|].
    rewrite filter_app. simpl. rewrite E. reflexivity.
Qed.

Lemma frequency_snoc (v w : str) (ws : list str) :
  frequency v (ws ++ [w]) =
  frequency v ws + (if str_eqb v w then 1 else 0).
Proof.
  unfold frequency. rewrite filter_app, length_app. simpl.
  destruct (str_eqb v w); reflexivity.
Qed.

Lemma frequency_absent (w : str) (ws : list str) :
  mem w ws = false -> frequency w ws = 0.
Proof.
  unfold frequency, mem. induction ws as [|a ws IH]; [reflexivity|].
  simpl. destruct (str_eqb w a); [discriminate|]. exact IH.
Qed.

Lemma own_counted (f : str -> nat) (K : list str) (w : str) :
  own (counted f K) w = if mem w K then Some (Num (f w)) else None.
Proof.
  unfold counted, mem. induction K as [|k K IH]; [reflexivity|].
  simpl. rewrite (str_eqb_sym w k).
  destruct (str_eqb k w) eqn:E; [|exact IH].
  apply DbFacts.str_eqb_eq in E. subst. reflexivity.
Qed.

Lemma set_absent (f : str -> nat) (K : list str) (w : str) (x : value) :
  mem w K = false -> set (counted f K) w x = counted f K ++ [(w, x)].
Proof.
  unfold counted, mem. induction K as [|k K IH]; [reflexivity|].
  simpl. rewrite (str_eqb_sym w k).
  destruct (str_eqb k w); [discriminate|].
  simpl. intros H. rewrite (IH H). reflexivity.
Qed.

Lemma set_present (f : str -> nat) (K : list str) (w : str) (n : nat) :
  NoDup K -> mem w K = true ->
  set (counted f K) w (Num n)
  = counted (fun v => if str_eqb v w then n else f v) K.
Proof.
  unfold counted. induction 1 as [|k K Hk HK IH]; [discriminate|].
  unfold mem. simpl. rewrite (str_eqb_sym w k).
  destruct (str_eqb k w) eqn:E; simpl.
  - intros _. f_equal. apply map_ext_in. intros v Hv.
    destruct (str_eqb v w) eqn:Ev; [|reflexivity].
    apply DbFacts.str_eqb_eq in E, Ev. subst. contradiction.
  - intros H. f_equal. apply IH, H.
Qed.

Lemma tally_counted (ws : list str) :
  map entry (tally ws) = counted (fun v => frequency v ws) (distinct ws).
Proof.
  unfold tally, counted. rewrite map_map. reflexivity.
Qed.

(** One turn of the loop on a word that is kept and is not a name that
    [Object.prototype] answers for. *)
Lemma count_word_step (seen : list str) (w : str) :
  keep w = true -> inherited w = None ->
  count_word (map entry (tally seen)) w = map entry (tally (seen ++ [w])).
Proof.
  intros Hk Hi. unfold count_word. rewrite Hk, !tally_counted.
  unfold get. rewrite own_counted, mem_distinct, distinct_snoc.
  destruct (mem w seen) eqn:Hm.
  - simpl bump.
    rewrite set_present
      by (try apply distinct_NoDup; rewrite mem_distinct; exact Hm).
    unfold counted. apply map_ext. intros v.
    rewrite frequency_snoc. destruct (str_eqb v w) eqn:E.
    + apply DbFacts.str_eqb_eq in E. subst. reflexivity.
    + rewrite Nat.add_0_r. reflexivity.
  - rewrite Hi. simpl bump.
    rewrite set_absent by (rewrite mem_distinct; exact Hm).
    unfold counted. rewrite map_app. simpl. f_equal.
    + apply map_ext_in. intros v Hv. rewrite frequency_snoc.
      destruct (str_eqb v w) eqn:E.
      * apply DbFacts.str_eqb_eq in E. subst.
        apply (proj1 (distinct_In _ _)) in Hv.
        apply (proj2 (mem_In _ _)) in Hv. congruence.
      * rewrite Nat.add_0_r. reflexivity.
    + rewrite frequency_snoc, DbFacts.str_eqb_refl,
        (frequency_absent _ _ Hm).
      reflexivity.
Qed.

Lemma fold_count (ws : list str) :
  forall seen : list str,
    Forall (fun w => inherited w = None) (filter keep ws) ->
    fold_left count_word ws (map entry (tally seen))
    = map entry (tally (seen ++ filter keep ws)).
Proof.
  induction ws as [|w ws IH]; intros seen Hn.
  - simpl. rewrite app_nil_r. reflexivity.
  - simpl in *. destruct (keep w) eqn:Hk.
    + inversion Hn as [|? ? Hw Hn']; subst.
      rewrite (count_word_step seen w Hk Hw), (IH _ Hn'), <- app_assoc.
      reflexivity.
    + unfold count_word at 2. rewrite Hk. apply IH, Hn.
Qed.

(** ** The order *)

Lemma insert_entry (a : str * nat) (l : list (str * nat)) :
  Keywords.insert (entry a) (map entry l)
  = map entry (Ranking.insert a l).
Proof.
  induction l as [|b l IH]; [reflexivity|]. simpl.
  unfold goes_after. simpl.
  destruct (snd a <? snd b); [rewrite IH|]; reflexivity.
Qed.

Lemma sort_entry (l : list (str * nat)) :
  Keywords.sort (map entry l) = map entry (Ranking.sort l).
Proof.
  induction l as [|a l IH]; [reflexivity|]. simpl.
  rewrite IH. apply insert_entry.
Qed.

Lemma best_none (l : list (str * nat)) : best l = None -> l = [].
Proof.
  destruct l as [|a l]; [reflexivity|]. simpl.
  destruct (best l) as [b|]; [destruct (snd a <? snd b)|]; discriminate.
Qed.

(** The stable sort puts the best entry first and sorts the rest. *)
Lemma sort_best (l : list (str * nat)) :
  Ranking.sort l =
  match best l with
  | Some b => b :: Ranking.sort (rest_of l)
  | None => []
  end.
Proof.
  induction l as [|a l IH]; [reflexivity|].
  cbn [Ranking.sort best rest_of].
  destruct (best l) as [b|] eqn:E.
  - rewrite IH. cbn [Ranking.insert].
    destruct (snd a <? snd b); [reflexivity|]. rewrite IH. reflexivity.
  - apply best_none in E. subst l. reflexivity.
Qed.

Lemma firstn_sort (n : nat) :
  forall l, firstn n (Ranking.sort l) = top n l.
Proof.
  induction n as [|n IH]; intros l; [reflexivity|].
  rewrite sort_best. simpl. destruct (best l) as [b|]; [|reflexivity].
  simpl. rewrite IH. reflexivity.
Qed.

(** What [best] and [rest_of] pick: the entry is in the list, those before
    it count less, those after it do not count more, and the rest is the
    list without it. *)
Lemma best_spec (l : list (str * nat)) (b : str * nat) :
  best l = Some b ->
  exists l1 l2,
    l = l1 ++ b :: l2 /\ rest_of l = l1 ++ l2 /\
    Forall (fun a => snd a < snd b) l1 /\
    Forall (fun a => snd a <= snd b) l2.
Proof.
  revert b. induction l as [|a l IH]; intros b; [discriminate|].
  simpl. destruct (best l) as [b'|] eqn:E.
  - destruct (IH b' eq_refl) as [l1 [l2 [H1 [H2 [H3 H4]]]]].
    destruct (snd a <? snd b') eqn:Hlt; intros H; injection H as <-.
    + apply Nat.ltb_lt in Hlt. exists (a :: l1), l2.
      rewrite H1 at 1. rewrite H2.
      repeat split; [constructor; assumption | assumption].
    + apply Nat.ltb_ge in Hlt. exists [], l.
      repeat split; [constructor|].
      rewrite H1. apply Forall_app. split.
      * eapply Forall_impl; [|exact H3]. simpl. intros; lia.
      * constructor; [lia|].
        eapply Forall_impl; [|exact H4]. simpl. intros; lia.
  - intros H. injection H as <-. apply best_none in E. subst l.
    exists [], []. repeat split; constructor.
Qed.

Lemma best_max (l : list (str * nat)) (b x : str * nat) :
  best l = Some b -> In x l -> snd x <= snd b.
Proof.
  intros Hb Hx.
  destruct (best_spec l b Hb) as [l1 [l2 [H1 [_ [H3 H4]]]]].
  rewrite H1 in Hx. rewrite Forall_forall in H3, H4.
  apply in_app_or in Hx. destruct Hx as [Hx | [<- | Hx]].
  - specialize (H3 x Hx). lia.
  - lia.
  - apply H4, Hx.
Qed.

Lemma rest_of_incl (l : list (str * nat)) (x : str * nat) :
  In x (rest_of l) -> In x l.
Proof.
  destruct (best l) as [b|] eqn:E.
  - destruct (best_spec l b E) as [l1 [l2 [H1 [H2 _]]]].
    rewrite H2, H1. intros H. apply in_app_or in H. apply in_or_app.
    destruct H as [H | H]; [left | right; right]; exact H.
  - apply best_none in E. subst l. intros [].
Qed.

Lemma top_incl (n : nat) :
  forall l x, In x (top n l) -> In x l.
Proof.
  induction n as [|n IH]; intros l x; [intros []|]. simpl.
  destruct (best l) as [b|] eqn:E; [|intros []].
  intros [<- | H].
  - destruct (best_spec l b E) as [l1 [l2 [H1 _]]]. rewrite H1.
    apply in_or_app. right. left. reflexivity.
  - apply rest_of_incl, (IH _ _ H).
Qed.

Lemma left_over_incl (n : nat) :
  forall l x, In x (left_over n l) -> In x l.
Proof.
  induction n as [|n IH]; intros l x; [exact (fun H => H)|]. simpl.
  destruct (best l) as [b|]; [|intros []].
  intros H. apply rest_of_incl, (IH _ _ H).
Qed.

Lemma before_cons (l : list (str * nat)) (c a b : str * nat) :
  before (c :: l) a b <-> (c = a /\ In b l) \/ before l a b.
Proof.
  unfold before. split.
  - intros [l1 [l2 [l3 H]]]. destruct l1 as [|x l1].
    + simpl in H. injection H as -> ->. left. split; [reflexivity|].
      apply in_or_app. right. left. reflexivity.
    + simpl in H. injection H as _ ->. right. exists l1, l2, l3.
      reflexivity.
  - intros [[-> Hb] | [l1 [l2 [l3 ->]]]].
    + apply in_split in Hb. destruct Hb as [l2 [l3 ->]].
      exists [], l2, l3. reflexivity.
    + exists (c :: l1), l2, l3. reflexivity.
Qed.

(** Putting an entry back keeps the order of the others. *)
Lemma before_insert (l1 l2 : list (str * nat)) (c a b : str * nat) :
  before (l1 ++ l2) a b -> before (l1 ++ c :: l2) a b.
Proof.
  revert a b. induction l1 as [|x l1 IH]; intros a b H.
  - simpl in *. apply before_cons. right. exact H.
  - simpl in *. apply before_cons in H. apply before_cons.
    destruct H as [[-> Hb] | H].
    + left. split; [reflexivity|]. apply in_app_or in Hb. apply in_or_app.
      destruct Hb as [Hb | Hb]; [left | right; right]; exact Hb.
    + right. apply IH, H.
Qed.

(** The order of [top]: counts go down, and entries of the same count
    keep the order they had in the list. *)
Lemma top_order (n : nat) :
  forall l a b,
    before (top n l) a b ->
    snd b <= snd a /\ (snd a = snd b -> before l a b).
Proof.
  induction n as [|n IH]; intros l a b.
  - intros [l1 [l2 [l3 H]]]. destruct l1; discriminate H.
  - simpl. destruct (best l) as [b0|] eqn:E.
    + destruct (best_spec l b0 E) as [l1 [l2 [H1 [H2 [H3 H4]]]]].
      intros H. apply before_cons in H. destruct H as [[-> Hb] | H].
      * apply top_incl in Hb. rewrite H2 in Hb. apply in_app_or in Hb.
        rewrite Forall_forall in H3, H4. destruct Hb as [Hb | Hb].
        -- specialize (H3 b Hb). split; [lia|]. intros Heq. lia.
        -- split; [apply H4, Hb|]. intros _. rewrite H1.
           apply in_split in Hb. destruct Hb as [m1 [m2 ->]].
           exists l1, m1, m2. reflexivity.
      * destruct (IH _ _ _ H) as [Hle Hst]. split; [exact Hle|].
        intros Heq. specialize (Hst Heq). rewrite H2 in Hst. rewrite H1.
        apply before_insert, Hst.
    + intros [l1 [l2 [l3 H]]]. destruct l1; discriminate H.
Qed.

(** What [top] leaves counts no more than what it takes. *)
Lemma top_left_over (n : nat) :
  forall l x y,
    In y (top n l) -> In x (left_over n l) -> snd x <= snd y.
Proof.
  induction n as [|n IH]; intros l x y; [intros []|]. simpl.
  destruct (best l) as [b|] eqn:E; [|intros []].
  intros [<- | Hy] Hx.
  - apply (best_max l b x E). apply rest_of_incl, (left_over_incl _ _ _ Hx).
  - apply (IH _ _ _ Hy Hx).
Qed.

Lemma length_rest_of (l : list (str * nat)) :
  length (rest_of l) = Nat.pred (length l).
Proof.
  destruct (best l) as [b|] eqn:E.
  - destruct (best_spec l b E) as [l1 [l2 [H1 [H2 _]]]].
    rewrite H2, H1, !length_app. simpl. lia.
  - apply best_none in E. subst l. reflexivity.
Qed.

Lemma length_top_min (n : nat) :
  forall l, length (top n l) = Nat.min n (length l).
Proof.
  induction n as [|n IH]; intros l; [reflexivity|]. simpl.
  destruct (best l) as [b|] eqn:E.
  - simpl. rewrite IH, length_rest_of.
    destruct l as [|x l]; [discriminate E|]. simpl. reflexivity.
  - apply best_none in E. subst l. reflexivity.
Qed.

Lemma length_top (n : nat) : forall l, length (top n l) <= n.
Proof.
  induction n as [|n IH]; intros l; [reflexivity|]. simpl.
  destruct (best l); simpl; [specialize (IH (rest_of l)); lia | lia].
Qed.

(** ** White space *)

Lemma space_not_word (c : ascii) :
  Char.is_space c = true -> Char.is_word (Char.toLowerCase c) = false.
Proof.
  destruct c as [[] [] [] [] [] [] [] []]; vm_compute;
    intros H; try reflexivity; discriminate H.
Qed.

Lemma runs_none (P : ascii -> bool) (s : str) :
  Forall (fun c => P c = false) s -> runs P s = [].
Proof.
  induction 1 as [|c s Hc _ IH]; [reflexivity|].
  rewrite TokenFacts.runs_skip by exact Hc. exact IH.
Qed.

Lemma no_words_in_white_space (text : str) :
  forallb Char.is_space text = true ->
  bounded_words (toLowerCase text) = [].
Proof.
  intros H. unfold bounded_words. rewrite runs_none; [reflexivity|].
  unfold toLowerCase. apply Forall_forall. intros c Hc.
  apply in_map_iff in Hc. destruct Hc as [x [<- Hx]].
  rewrite forallb_forall in H. apply space_not_word, H, Hx.
Qed.

Lemma extractKeywords_words (text : str) :
  extractKeywords text =
  map fst (firstn 5 (Keywords.sort
                       (fold_left count_word
                                  (bounded_words (toLowerCase text)) []))).
Proof.
  unfold extractKeywords. rewrite TokenFacts.match_all_words.
  reflexivity.
Qed.

End CountFacts.

(** C8, as stated, fails: an alphabetic run that touches a digit or an
    underscore is not a token.  The text [hello123] has the alphabetic run
    [hello], of 5 letters and no stop word, and no keyword. *)
Lemma extractKeywords_skips_runs_next_to_digits :
  Ranking.alpha_runs (toLowerCase (lit "hello123")) = [lit "hello"] /\
  Ranking.stated (lit "hello123") = [lit "hello"] /\
  extractKeywords (lit "hello123") = [] /\
  extractKeywords (lit "hello123") <> Ranking.stated (lit "hello123").
Proof.
  repeat split; try (vm_compute; reflexivity).
  vm_compute. intros E. discriminate E.
Qed.

(** The word [constructor] is not counted: [wordCount] is a plain object,
    and a fresh one answers that name with the function inherited from
    [Object.prototype].  The value stored is a string and the comparator
    gives no number for it, so the word stays where it was met. *)
Lemma extractKeywords_constructor :
  extractKeywords (lit "constructor alpha alpha")
    = [lit "constructor"; lit "alpha"] /\
  Ranking.keywords_of
    (Ranking.bounded_words (toLowerCase (lit "constructor alpha alpha")))
    = [lit "alpha"; lit "constructor"].
Proof.
  split; vm_compute; reflexivity.
Qed.

(** C8, amended.  [extractKeywords] lower-cases the text and takes as
    tokens the runs of lower-case letters that no digit, underscore or
    other word character touches (the matches of [\b[a-z]+\b]).  It drops
    the tokens of length at most 3 and the stop words and, when the token
    [constructor] is not among the rest, returns the first five of the
    ranking of the remaining tokens: each distinct token once with its
    number of occurrences, by descending count, tokens of equal count in
    the order of their first occurrence, none that is left out counting
    more than one that is taken.  It returns at most 5 tokens for every
    text and none for a text of white space; it is a total function. *)
Theorem extractKeywords_ranked (text : str) :
  let tokens := Ranking.bounded_words (toLowerCase text) in
  let counts := Ranking.tally (filter Keywords.keep tokens) in
  let ranked := Ranking.top 5 counts in
  Regex.match_all false Keywords.re_word (toLowerCase text) = tokens /\
  (~ In (lit "constructor") tokens ->
   extractKeywords text = map fst ranked) /\
  (length ranked = Nat.min 5 (length counts) /\
   (forall a b,
       Ranking.before ranked a b ->
       snd b <= snd a /\ (snd a = snd b -> Ranking.before counts a b)) /\
   (forall x y,
       In y ranked -> In x (Ranking.left_over 5 counts) ->
       snd x <= snd y)) /\
  length (extractKeywords text) <= 5 /\
  (forallb Char.is_space text = true -> extractKeywords text = []).
Proof.
  intros tokens counts ranked.
  split; [apply TokenFacts.match_all_words|]. split; [|split; [|split]].
  - intros Hc. rewrite CountFacts.extractKeywords_words. fold tokens.
    assert (Hn : Forall (fun w => Keywords.inherited w = None)
                        (filter Keywords.keep tokens)).
    { apply Forall_forall. intros w Hw. apply filter_In in Hw.
      destruct Hw as [Hw _]. unfold Keywords.inherited.
      destruct (str_eqb w (lit "constructor")) eqn:E; [|reflexivity].
      apply DbFacts.str_eqb_eq in E. subst. contradiction. }
    pose proof (CountFacts.fold_count tokens [] Hn) as Hf.
    simpl in Hf. rewrite Hf, CountFacts.sort_entry, firstn_map, map_map.
    rewrite CountFacts.firstn_sort. reflexivity.
  - split; [apply CountFacts.length_top_min|]. split.
    + apply CountFacts.top_order.
    + apply CountFacts.top_left_over.
  - unfold extractKeywords. rewrite length_map, length_firstn. lia.
  - intros Hs. rewrite CountFacts.extractKeywords_words.
    rewrite (CountFacts.no_words_in_white_space text Hs). reflexivity.
Qed.

Lemma extractKeywords_ranked_witness :
  extractKeywords (lit "Beta gamma the beta GAMMA with alpha gamma x1")
  = [lit "gamma"; lit "beta"; lit "alpha"].
Proof.
  rewrite (proj1 (proj2 (extractKeywords_ranked
             (lit "Beta gamma the beta GAMMA with alpha gamma x1")))).
  - vm_compute. reflexivity.
  - vm_compute. intros H.
    repeat (destruct H as [H | H]; [discriminate H|]). exact H.
Defined.

(** * Further properties of the naming core *)

(** ** Sanitizing twice *)

Module SanitizeMore.
Import Cleaning Shape Text.

Lemma collapse_fixed (s : str) : doubled s = false -> collapse s = s.
Proof.
  induction s as [|c s IH]; intros Hd; [reflexivity|].
  pose proof (IH (SanitizeFacts.doubled_tail _ _ Hd)) as IH'.
  destruct s as [|d s'].
  - cbn [collapse]. destruct (Char.is_char Char.underscore c); reflexivity.
  - change (doubled (c :: d :: s'))
      with ((Char.is_char Char.underscore c
             && Char.is_char Char.underscore d) || doubled (d :: s')) in Hd.
    apply orb_false_iff in Hd. destruct Hd as [Hcd _].
    change (collapse (c :: d :: s'))
      with (if Char.is_char Char.underscore c
            then if Char.is_char Char.underscore d then collapse (d :: s')
                 else c :: collapse (d :: s')
            else c :: collapse (d :: s')).
    rewrite IH'.
    destruct (Char.is_char Char.underscore c); [|reflexivity].
    destruct (Char.is_char Char.underscore d); [discriminate Hcd|].
    reflexivity.
Qed.

Lemma strip_leading_headed (s : str) :
  doubled s = false -> headed (strip_leading s).
Proof.
  intros Hd rest. destruct s as [|c s]; [discriminate|].
  cbn [strip_leading].
  destruct (Char.is_char Char.underscore c) eqn:Ec.
  - intros ->. cbn [doubled] in Hd. rewrite Ec in Hd.
    rewrite (proj2 (ReplaceFacts.is_char_eq _ _) eq_refl) in Hd.
    discriminate Hd.
  - intros H. injection H as -> _.
    rewrite (proj2 (ReplaceFacts.is_char_eq _ _) eq_refl) in Ec.
    discriminate Ec.
Qed.

Lemma strip_trailing_headed (s : str) :
  headed s -> headed (strip_trailing s).
Proof.
  intros Hs rest. destruct s as [|c [|d s']].
  - discriminate.
  - cbn [strip_trailing].
    destruct (Char.is_char Char.underscore c); [discriminate|].
    apply Hs.
  - change (strip_trailing (c :: d :: s'))
      with (c :: strip_trailing (d :: s')).
    intros H. injection H as -> _. apply (Hs (d :: s')). reflexivity.
Qed.

Lemma firstn_headed (n : nat) (s : str) : headed s -> headed (firstn n s).
Proof.
  intros Hs rest. destruct n as [|n]; [discriminate|].
  destruct s as [|c s]; [discriminate|]. cbn [firstn].
  intros H. injection H as -> _. apply (Hs s). reflexivity.
Qed.

Lemma sanitize_headed (name : str) : headed (sanitizeFileName name).
Proof.
  destruct (SanitizeFacts.sanitize_cases name) as [-> | [_ ->]].
  - intros rest H. discriminate H.
  - apply firstn_headed. unfold strip_ends.
    apply strip_trailing_headed, strip_leading_headed,
      SanitizeFacts.collapse_not_doubled.
Qed.

Lemma strip_trailing_cases (s : str) :
  strip_trailing s = s \/ s = strip_trailing s ++ [Char.underscore].
Proof.
  induction s as [|c s IH]; [left; reflexivity|].
  destruct s as [|d s'].
  - cbn [strip_trailing].
    destruct (Char.is_char Char.underscore c) eqn:Ec; [|left; reflexivity].
    right. apply ReplaceFacts.is_char_eq in Ec. subst. reflexivity.
  - change (strip_trailing (c :: d :: s'))
      with (c :: strip_trailing (d :: s')).
    destruct IH as [IH | IH].
    + left. rewrite IH. reflexivity.
    + right. rewrite <- app_comm_cons, <- IH. reflexivity.
Qed.

Lemma length_strip_trailing (s : str) :
  length (strip_trailing s) <= length s.
Proof.
  destruct (strip_trailing_cases s) as [-> | H]; [lia|].
  rewrite H at 2. rewrite length_app. lia.
Qed.

(** What [sanitizeFileName] does to a name that has the shape of its own
    results. *)
Lemma sanitize_shaped (r : str) :
  well_formed r -> doubled r = false -> headed r ->
  sanitizeFileName r = strip_trailing r.
Proof.
  intros [Hne [Hlen Hall]] Hd Hh.
  unfold sanitizeFileName, substring0.
  rewrite ReplaceFacts.cleaned_eq.
  rewrite (SanitizeFacts.replace_invalid_id _ Hall), (collapse_fixed _ Hd).
  unfold strip_ends.
  assert (Hl : strip_leading r = r).
  { destruct r as [|c s]; [reflexivity|]. cbn [strip_leading].
    destruct (Char.is_char Char.underscore c) eqn:Ec; [|reflexivity].
    apply ReplaceFacts.is_char_eq in Ec. subst.
    exfalso. apply (Hh s). reflexivity. }
  rewrite Hl.
  rewrite firstn_all2
    by (pose proof (length_strip_trailing r); lia).
  destruct (strip_trailing r) as [|c s] eqn:E; [|reflexivity].
  apply SanitizeFacts.strip_trailing_empty in E.
  destruct E as [E | E]; [contradiction|].
  exfalso. apply (Hh []). exact E.
Qed.

Lemma sanitize_twice (name : str) :
  sanitizeFileName (sanitizeFileName name)
  = strip_trailing (sanitizeFileName name).
Proof.
  apply sanitize_shaped.
  - apply SanitizeFacts.sanitize_well_formed.
  - apply SanitizeFacts.sanitize_not_doubled.
  - apply sanitize_headed.
Qed.

End SanitizeMore.

(** X1.  A sanitized name never begins with an underscore.  Sanitizing it
    again leaves it as it is or takes the underscore off its end, and a
    third pass changes nothing; one pass is not always enough. *)
Theorem sanitizeFileName_again :
  (forall name : str,
      let r := sanitizeFileName name in
      (forall rest, r <> Char.underscore :: rest) /\
      (sanitizeFileName r = r \/ r = sanitizeFileName r ++ [Char.underscore])
      /\ sanitizeFileName (sanitizeFileName r) = sanitizeFileName r) /\
  (exists name : str,
      sanitizeFileName (sanitizeFileName name) <> sanitizeFileName name).
Proof.
  split.
  - intros name r. split; [apply SanitizeMore.sanitize_headed|].
    assert (H2 : sanitizeFileName r = Cleaning.strip_trailing r)
      by apply SanitizeMore.sanitize_twice.
    split.
    + rewrite H2. apply SanitizeMore.strip_trailing_cases.
    + rewrite H2 at 2. rewrite SanitizeMore.sanitize_twice. fold r.
      rewrite H2.
      destruct (SanitizeMore.strip_trailing_cases (Cleaning.strip_trailing r))
        as [H | H]; [exact H|].
      exfalso.
      apply (SanitizeFacts.strip_trailing_end r
               (SanitizeFacts.sanitize_not_doubled name) _ H).
  - exists Shape.long_name. vm_compute. intros E. discriminate E.
Qed.

(** ** What a keyword is *)

Module KeywordMore.
Import Keywords Text.

Lemma set_keys_in (o : object) (w : str) (v : value) (k : str) :
  In k (map fst (set o w v)) -> In k (map fst o) \/ k = w.
Proof.
  induction o as [|[k0 u] o IH]; simpl.
  - intros [<- | []]. right. reflexivity.
  - destruct (str_eqb k0 w); simpl.
    + intros H. left. exact H.
    + intros [<- | H]; [left; left; reflexivity|].
      destruct (IH H) as [H' | H']; [left; right; exact H' | right; exact H'].
Qed.

Lemma set_keys_NoDup (o : object) (w : str) (v : value) :
  NoDup (map fst o) -> NoDup (map fst (set o w v)).
Proof.
  induction o as [|[k0 u] o IH]; simpl; intros Hn.
  - constructor; [intros [] | constructor].
  - inversion Hn as [|? ? Hk Ho]; subst.
    destruct (str_eqb k0 w) eqn:E; simpl.
    + constructor; assumption.
    + constructor; [|apply IH, Ho].
      intros H. destruct (set_keys_in _ _ _ _ H) as [H' | H'];
        [contradiction|].
      subst. rewrite DbFacts.str_eqb_refl in E. discriminate E.
Qed.

Lemma count_word_keys (words : list str) (o : object) (w : str) :
  In w words -> keys_ok words o -> keys_ok words (count_word o w).
Proof.
  intros Hw [Hn Hf]. unfold count_word.
  destruct (keep w) eqn:Hk; [|split; assumption].
  split; [apply set_keys_NoDup, Hn|].
  apply Forall_forall. intros k Hin.
  destruct (set_keys_in _ _ _ _ Hin) as [H | ->].
  - rewrite Forall_forall in Hf. apply Hf, H.
  - split; assumption.
Qed.

Lemma fold_keys (words ws : list str) :
  forall o,
    incl ws words -> keys_ok words o ->
    keys_ok words (fold_left count_word ws o).
Proof.
  induction ws as [|w ws IH]; intros o Hi Ho; [exact Ho|].
  simpl. apply IH.
  - intros x Hx. apply Hi. right. exact Hx.
  - apply count_word_keys; [apply Hi; left; reflexivity | exact Ho].
Qed.

Lemma insert_keys (a : str * value) (l : list (str * value)) (k : str) :
  In k (map fst (insert a l)) <-> k = fst a \/ In k (map fst l).
Proof.
  induction l as [|b l IH]; simpl.
  - split; [intros [H | []]; left; congruence
           | intros [H | []]; left; congruence].
  - destruct (goes_after a b); simpl.
    + rewrite IH. split.
      * intros [H | [H | H]]; auto.
      * intros [H | [H | H]]; auto.
    + split.
      * intros [H | [H | H]]; auto.
      * intros [H | [H | H]]; auto.
Qed.

Lemma insert_NoDup (a : str * value) (l : list (str * value)) :
  ~ In (fst a) (map fst l) -> NoDup (map fst l) ->
  NoDup (map fst (insert a l)).
Proof.
  induction l as [|b l IH]; simpl; intros Ha Hn.
  - constructor; [intros [] | constructor].
  - inversion Hn as [|? ? Hb Hl]; subst.
    destruct (goes_after a b); simpl.
    + constructor.
      * rewrite insert_keys. intros [H | H]; [|contradiction].
        apply Ha. left. exact H.
      * apply IH; [|exact Hl]. intros H. apply Ha. right. exact H.
    + constructor; [exact Ha | exact Hn].
Qed.

Lemma sort_keys (l : list (str * value)) (k : str) :
  In k (map fst (sort l)) <-> In k (map fst l).
Proof.
  induction l as [|a l IH]; [reflexivity|]. simpl.
  rewrite insert_keys, IH. split; intros [H | H]; auto.
Qed.

Lemma sort_NoDup (l : list (str * value)) :
  NoDup (map fst l) -> NoDup (map fst (sort l)).
Proof.
  induction l as [|a l IH]; simpl; intros Hn; [constructor|].
  inversion Hn as [|? ? Ha Hl]; subst.
  apply insert_NoDup; [rewrite sort_keys; exact Ha | apply IH, Hl].
Qed.

Lemma firstn_NoDup (n : nat) (l : list str) : NoDup l -> NoDup (firstn n l).
Proof.
  intros H. rewrite <- (firstn_skipn n l) in H.
  apply NoDup_app_remove_r in H. exact H.
Qed.

Lemma firstn_In {A : Type} (n : nat) (l : list A) (x : A) :
  In x (firstn n l) -> In x l.
Proof.
  intros H. rewrite <- (firstn_skipn n l). apply in_or_app. left. exact H.
Qed.

Lemma keep_spec (w : str) :
  keep w = true <-> 3 < length w /\ is_stop w = false.
Proof.
  unfold keep. rewrite andb_true_iff, Nat.ltb_lt, negb_true_iff.
  reflexivity.
Qed.

End KeywordMore.

(** X2.  For every text the keywords are pairwise distinct, and each of
    them is a word that [/\b[a-z]+\b/g] finds in the lower-cased text: made
    of the letters a to z, longer than 3 characters and no stop word. *)
Theorem extractKeywords_kept (text : str) :
  NoDup (extractKeywords text) /\
  Forall (fun w =>
            In w (match_all false Keywords.re_word (toLowerCase text)) /\
            forallb Char.is_lower w = true /\
            3 < length w /\ Keywords.is_stop w = false)
         (extractKeywords text).
Proof.
  set (words := match_all false Keywords.re_word (toLowerCase text)).
  assert (Hk : Text.keys_ok words
                 (fold_left Keywords.count_word words [])).
  { apply KeywordMore.fold_keys; [apply incl_refl|].
    split; constructor. }
  destruct Hk as [Hn Hf]. unfold extractKeywords. fold words.
  rewrite <- firstn_map. split.
  - apply KeywordMore.firstn_NoDup, KeywordMore.sort_NoDup, Hn.
  - apply Forall_forall. intros w Hw.
    apply KeywordMore.firstn_In in Hw.
    apply (proj1 (KeywordMore.sort_keys _ _)) in Hw.
    rewrite Forall_forall in Hf. destruct (Hf w Hw) as [Hkeep Hin].
    apply KeywordMore.keep_spec in Hkeep.
    split; [exact Hin|]. split; [|exact Hkeep].
    unfold words in Hin. rewrite TokenFacts.match_all_words in Hin.
    apply filter_In in Hin. apply Hin.
Qed.

(** ** The text that is classified *)

Module CleanFacts.
Import Text Ranking.

Lemma attempt_chr (P : ascii -> bool) (p : option ascii) (s : str)
      (i : nat) :
  attempt false (Chr P) p s i =
  match s with
  | c :: s' => if P c then Some (MState (Some c) s' (S i) None) else None
  | [] => None
  end.
Proof. destruct s; reflexivity. Qed.

(** [.replace(/[class]/g, 'r')] for a one-character replacement. *)
Lemma replace_chr (P : ascii -> bool) (r : ascii) (s : str) :
  forall p i,
    replace_scan false (Chr P) [r] p s i 0
    = map (fun c => if P c then r else c) s.
Proof.
  induction s as [|c s IH]; intros p i; [reflexivity|].
  cbn [replace_scan map]. rewrite attempt_chr.
  destruct (P c).
  - cbn [pos]. destruct (ReplaceFacts.step_past i) as [-> ->].
    cbn [app]. f_equal. apply IH.
  - f_equal. apply IH.
Qed.

Lemma attempt_plus (P : ascii -> bool) (p : option ascii) (s : str)
      (i : nat) :
  match s with
  | c :: s' =>
      if P c
      then exists q,
          attempt false (Plus P) p s i
          = Some (MState q (after P s') (S i + length (leading P s')) None)
      else attempt false (Plus P) p s i = None
  | [] => attempt false (Plus P) p s i = None
  end.
Proof.
  pose proof (ReplaceFacts.rep_all P s 1 p i None) as H.
  change (attempt false (Plus P) p s i)
    with (rep P (fun y => Some y) s 1 None p i None).
  destruct s as [|c s']; [reflexivity|].
  cbn [leading after length] in H.
  destruct (P c).
  - destruct H as [[q Hq] _]; [cbn [length]; lia|].
    exists q. rewrite Hq. cbn [length]. f_equal. f_equal. lia.
  - apply H. cbn [length]. lia.
Qed.

Lemma squeeze_run (P : ascii -> bool) (r : ascii) (s : str) :
  forall c, P c = true ->
            squeeze P r (c :: s) = r :: squeeze P r (after P s).
Proof.
  induction s as [|d s IH]; intros c Hc.
  - cbn [squeeze after]. rewrite Hc. reflexivity.
  - change (squeeze P r (c :: d :: s))
      with (if P c
            then if P d then squeeze P r (d :: s)
                 else r :: squeeze P r (d :: s)
            else c :: squeeze P r (d :: s)).
    rewrite Hc. cbn [after].
    destruct (P d) eqn:Ed; [|reflexivity].
    apply (IH d Ed).
Qed.

Lemma squeeze_other (P : ascii -> bool) (r c : ascii) (s : str) :
  P c = false -> squeeze P r (c :: s) = c :: squeeze P r s.
Proof. intros H. cbn [squeeze]. rewrite H. reflexivity. Qed.

(** [.replace(/[class]+/g, 'r')] *)
Lemma replace_plus (P : ascii -> bool) (r : ascii) (s : str) :
  (forall p i,
      replace_scan false (Plus P) [r] p s i 0 = squeeze P r s) /\
  (forall p i,
      replace_scan false (Plus P) [r] p s i (length (leading P s))
      = squeeze P r (after P s)).
Proof.
  induction s as [|c s [IH1 IH2]].
  - split; intros p i; apply ReplaceFacts.replace_nil,
      (attempt_plus P p [] i).
  - assert (H1 : forall p i,
               replace_scan false (Plus P) [r] p (c :: s) i 0
               = squeeze P r (c :: s)).
    { intros p i. pose proof (attempt_plus P p (c :: s) i) as Ha.
      cbn beta iota in Ha. destruct (P c) eqn:Ec.
      - destruct Ha as [q Ha].
        rewrite (ReplaceFacts.replace_some _ _ _ _ _ _ _ _ _ Ha eq_refl),
          IH2.
        rewrite (squeeze_run P r s c Ec). reflexivity.
      - rewrite (ReplaceFacts.replace_none _ _ _ _ _ _ _ Ha), IH1.
        symmetry. apply squeeze_other, Ec. }
    split; [exact H1|]. intros p i. cbn [leading after].
    destruct (P c) eqn:Ec.
    + cbn [length]. rewrite ReplaceFacts.replace_skip. apply IH2.
    + apply H1.
Qed.

(** The three steps of [cleanText], on lists. *)
Lemma cleanText_eq (t : str) :
  cleanText t =
  trim (squeeze Char.is_space Char.space
          (map (fun c => if Char.is_char Char.newline c then Char.space
                         else c) t)).
Proof.
  unfold cleanText, replace_all.
  change (lit " ") with [Char.space].
  rewrite replace_chr, (proj1 (replace_plus _ _ _)). reflexivity.
Qed.

(** *** trim *)

Lemma trimStart_after (s : str) : trimStart s = after Char.is_space s.
Proof.
  induction s as [|c s IH]; [reflexivity|]. simpl.
  rewrite IH. reflexivity.
Qed.

Lemma trimStart_split (s : str) :
  exists w, s = w ++ trimStart s /\ forallb Char.is_space w = true.
Proof.
  induction s as [|c s [w [Hw Hs]]]; [exists []; split; reflexivity|].
  simpl. destruct (Char.is_space c) eqn:E.
  - exists (c :: w). split; [simpl; f_equal; exact Hw|].
    simpl. rewrite E, Hs. reflexivity.
  - exists []. split; reflexivity.
Qed.

Lemma trimStart_head (s : str) (c : ascii) (rest : str) :
  trimStart s = c :: rest -> Char.is_space c = false.
Proof.
  induction s as [|d s IH]; [discriminate|]. simpl.
  destruct (Char.is_space d) eqn:E; [exact IH|].
  intros H. injection H as <- _. exact E.
Qed.

Lemma trimStart_fixed (s : str) :
  match s with c :: _ => Char.is_space c | [] => false end = false ->
  trimStart s = s.
Proof.
  destruct s as [|c s]; [reflexivity|]. simpl. intros ->. reflexivity.
Qed.

Lemma trimStart_nil (s : str) :
  trimStart s = [] <-> forallb Char.is_space s = true.
Proof.
  induction s as [|c s IH]; [split; reflexivity|]. simpl.
  destruct (Char.is_space c); [exact IH|].
  split; intros H; discriminate H.
Qed.

Lemma forallb_rev (P : ascii -> bool) (s : str) :
  forallb P (rev s) = forallb P s.
Proof.
  induction s as [|c s IH]; [reflexivity|]. simpl.
  rewrite forallb_app, IH. simpl. rewrite andb_true_r. apply andb_comm.
Qed.

Lemma trimEnd_split (s : str) :
  exists w, s = trimEnd s ++ w /\ forallb Char.is_space w = true.
Proof.
  unfold trimEnd. destruct (trimStart_split (rev s)) as [w [Hw Hs]].
  exists (rev w). split.
  - rewrite <- rev_app_distr, <- Hw, rev_involutive. reflexivity.
  - rewrite forallb_rev. exact Hs.
Qed.

Lemma trimEnd_last (s pre : str) (c : ascii) :
  trimEnd s = pre ++ [c] -> Char.is_space c = false.
Proof.
  unfold trimEnd. intros H.
  assert (E : trimStart (rev s) = c :: rev pre).
  { rewrite <- (rev_involutive (trimStart (rev s))), H, rev_app_distr.
    reflexivity. }
  apply (trimStart_head _ _ _ E).
Qed.

Lemma trimEnd_nil (s : str) :
  trimEnd s = [] <-> forallb Char.is_space s = true.
Proof.
  unfold trimEnd. rewrite <- forallb_rev, <- trimStart_nil.
  split; intros H.
  - rewrite <- (rev_involutive (trimStart (rev s))), H. reflexivity.
  - rewrite H. reflexivity.
Qed.

(** A text is blank for [trim] when it is made of white space. *)
Lemma trim_nil (s : str) :
  trim s = [] <-> forallb Char.is_space s = true.
Proof.
  unfold trim. rewrite trimEnd_nil. split; intros H.
  - destruct (trimStart_split s) as [w [Hw Hs]]. rewrite Hw, forallb_app.
    rewrite Hs, H. reflexivity.
  - destruct (trimStart s) as [|c r] eqn:E; [reflexivity|].
    exfalso. pose proof (trimStart_head _ _ _ E) as Hc.
    destruct (trimStart_split s) as [w [Hw _]]. rewrite Hw, E in H.
    rewrite forallb_app in H. simpl in H. rewrite Hc in H.
    rewrite andb_false_r in H. discriminate H.
Qed.

Lemma blank_test (t : str) :
  negb (nonempty t) || (length (trim t) =? 0) = forallb Char.is_space t.
Proof.
  destruct (forallb Char.is_space t) eqn:E.
  - rewrite (proj2 (trim_nil t) E). apply orb_true_r.
  - destruct t as [|c t]; [discriminate E|]. simpl negb. simpl orb.
    destruct (trim (c :: t)) as [|x r] eqn:Et; [|reflexivity].
    apply trim_nil in Et. congruence.
Qed.

(** *** squeeze *)

Lemma squeeze_chars (P : ascii -> bool) (r : ascii) (s : str) :
  Forall (fun c => P c = false \/ c = r) (squeeze P r s).
Proof.
  induction s as [|c s IH]; [constructor|].
  destruct (P c) eqn:Ec.
  - destruct s as [|d s'].
    + cbn [squeeze]. rewrite Ec. constructor; [right; reflexivity|].
      constructor.
    + change (squeeze P r (c :: d :: s'))
        with (if P c
              then if P d then squeeze P r (d :: s')
                   else r :: squeeze P r (d :: s')
              else c :: squeeze P r (d :: s')).
      rewrite Ec. destruct (P d); [exact IH|].
      constructor; [right; reflexivity | exact IH].
  - rewrite squeeze_other by exact Ec.
    constructor; [left; exact Ec | exact IH].
Qed.

Lemma paired_cons (P : ascii -> bool) (c : ascii) (s : str) :
  paired P (c :: s) =
  (P c && match s with d :: _ => P d | [] => false end) || paired P s.
Proof.
  destruct s as [|d s]; [|reflexivity]. simpl. rewrite andb_false_r.
  reflexivity.
Qed.

Lemma squeeze_paired (P : ascii -> bool) (r : ascii) (s : str) :
  paired P (squeeze P r s) = false.
Proof.
  induction s as [|c s IH]; [reflexivity|].
  destruct (P c) eqn:Ec.
  - destruct s as [|d s'].
    + cbn [squeeze]. rewrite Ec. reflexivity.
    + change (squeeze P r (c :: d :: s'))
        with (if P c
              then if P d then squeeze P r (d :: s')
                   else r :: squeeze P r (d :: s')
              else c :: squeeze P r (d :: s')).
      rewrite Ec. destruct (P d) eqn:Ed; [exact IH|].
      rewrite paired_cons, IH.
      rewrite (squeeze_other P r d s' Ed). rewrite Ed, andb_false_r.
      reflexivity.
  - rewrite squeeze_other by exact Ec. rewrite paired_cons, IH, Ec.
    reflexivity.
Qed.

Lemma squeeze_ink (P : ascii -> bool) (r : ascii) (s : str) :
  P r = true ->
  filter (fun c => negb (P c)) (squeeze P r s)
  = filter (fun c => negb (P c)) s.
Proof.
  intros Hr. induction s as [|c s IH]; [reflexivity|].
  destruct (P c) eqn:Ec.
  - cbn [filter]. rewrite Ec. cbn [negb]. rewrite <- IH.
    destruct s as [|d s'].
    + cbn [squeeze filter]. rewrite Ec. cbn [filter]. rewrite Hr.
      reflexivity.
    + change (squeeze P r (c :: d :: s'))
        with (if P c
              then if P d then squeeze P r (d :: s')
                   else r :: squeeze P r (d :: s')
              else c :: squeeze P r (d :: s')).
      rewrite Ec. destruct (P d); [reflexivity|].
      cbn [filter]. rewrite Hr. reflexivity.
  - rewrite squeeze_other by exact Ec. cbn [filter]. rewrite Ec, IH.
    reflexivity.
Qed.

Lemma squeeze_fixed (P : ascii -> bool) (r : ascii) (s : str) :
  Forall (fun c => P c = false \/ c = r) s -> paired P s = false ->
  squeeze P r s = s.
Proof.
  induction 1 as [|c s Hc Hs IH]; [reflexivity|].
  rewrite paired_cons. intros Hp. apply orb_false_iff in Hp.
  destruct Hp as [Hcd Hp]. specialize (IH Hp).
  destruct (P c) eqn:Ec.
  - destruct Hc as [Hc | ->]; [discriminate Hc|].
    destruct s as [|d s'].
    + cbn [squeeze]. rewrite Ec. reflexivity.
    + change (squeeze P r (r :: d :: s'))
        with (if P r
              then if P d then squeeze P r (d :: s')
                   else r :: squeeze P r (d :: s')
              else r :: squeeze P r (d :: s')).
      rewrite Ec. cbn [andb] in Hcd. rewrite Hcd, IH. reflexivity.
  - rewrite squeeze_other by exact Ec. rewrite IH. reflexivity.
Qed.

Lemma paired_app (P : ascii -> bool) (a b : str) :
  paired P (a ++ b) = false -> paired P a = false /\ paired P b = false.
Proof.
  induction a as [|c a IH]; [intros H; split; [reflexivity | exact H]|].
  rewrite <- app_comm_cons, !paired_cons. intros H.
  apply orb_false_iff in H. destruct H as [H1 H2].
  destruct (IH H2) as [Ha Hb]. split; [|exact Hb].
  rewrite Ha, orb_false_r. destruct a as [|d a].
  - apply andb_false_r.
  - exact H1.
Qed.

(** *** trim, again *)

Lemma ink_blank (w : str) : forallb Char.is_space w = true -> ink w = [].
Proof.
  unfold ink. induction w as [|c w IH]; [reflexivity|]. simpl.
  intros H. apply andb_true_iff in H. destruct H as [-> H]. simpl.
  apply IH, H.
Qed.

Lemma ink_app (a b : str) : ink (a ++ b) = ink a ++ ink b.
Proof. apply filter_app. Qed.

Lemma trim_split (s : str) :
  exists w1 w2,
    s = w1 ++ trim s ++ w2 /\
    forallb Char.is_space w1 = true /\ forallb Char.is_space w2 = true.
Proof.
  destruct (trimStart_split s) as [w1 [H1 Hw1]].
  destruct (trimEnd_split (trimStart s)) as [w2 [H2 Hw2]].
  exists w1, w2. unfold trim. rewrite <- H2, <- H1. auto.
Qed.

Lemma trim_head (s : str) :
  match trim s with c :: _ => Char.is_space c | [] => false end = false.
Proof.
  destruct (trim s) as [|c r] eqn:E; [reflexivity|].
  unfold trim in E.
  destruct (trimEnd_split (trimStart s)) as [w [Hw _]]. rewrite E in Hw.
  apply (trimStart_head s c (r ++ w)). exact Hw.
Qed.

Lemma trim_last (s : str) :
  match rev (trim s) with c :: _ => Char.is_space c | [] => false end
  = false.
Proof.
  destruct (rev (trim s)) as [|c r] eqn:E; [reflexivity|].
  apply (trimEnd_last (trimStart s) (rev r)). unfold trim in E.
  rewrite <- (rev_involutive (trimEnd (trimStart s))), E. reflexivity.
Qed.

Lemma trim_fixed (s : str) :
  match s with c :: _ => Char.is_space c | [] => false end = false ->
  match rev s with c :: _ => Char.is_space c | [] => false end = false ->
  trim s = s.
Proof.
  intros Hh Hl. unfold trim, trimEnd.
  rewrite (trimStart_fixed s Hh), (trimStart_fixed (rev s) Hl).
  apply rev_involutive.
Qed.

Lemma space_is_space : Char.is_space Char.space = true.
Proof. reflexivity. Qed.

Lemma ink_spread (t : str) : ink (spread t) = ink t.
Proof.
  unfold spread, ink. rewrite (squeeze_ink _ _ _ space_is_space).
  induction t as [|c t IH]; [reflexivity|]. simpl.
  destruct (Char.is_char Char.newline c) eqn:E.
  - apply ReplaceFacts.is_char_eq in E. subst c. simpl. exact IH.
  - rewrite IH. reflexivity.
Qed.

Lemma cleanText_facts (t : str) :
  ink (cleanText t) = ink t /\
  Forall (fun c => Char.is_space c = false \/ c = Char.space) (cleanText t)
  /\ paired Char.is_space (cleanText t) = false.
Proof.
  rewrite cleanText_eq. fold (spread t).
  destruct (trim_split (spread t)) as [w1 [w2 [H [Hw1 Hw2]]]].
  split; [|split].
  - rewrite <- (ink_spread t). rewrite H at 2.
    rewrite !ink_app, (ink_blank _ Hw1), (ink_blank _ Hw2), app_nil_r.
    reflexivity.
  - pose proof (squeeze_chars Char.is_space Char.space
                  (map (fun c => if Char.is_char Char.newline c
                                 then Char.space else c) t)) as Hc.
    fold (spread t) in Hc. rewrite H in Hc.
    apply Forall_app in Hc. destruct Hc as [_ Hc].
    apply Forall_app in Hc. apply Hc.
  - pose proof (squeeze_paired Char.is_space Char.space
                  (map (fun c => if Char.is_char Char.newline c
                                 then Char.space else c) t)) as Hp.
    fold (spread t) in Hp. rewrite H in Hp.
    apply paired_app in Hp. destruct Hp as [_ Hp].
    apply paired_app in Hp. apply Hp.
Qed.

Lemma cleanText_again (t : str) : cleanText (cleanText t) = cleanText t.
Proof.
  destruct (cleanText_facts t) as [_ [Hc Hp]].
  assert (Hh : match cleanText t with
               | c :: _ => Char.is_space c | [] => false end = false)
    by (rewrite cleanText_eq; apply trim_head).
  assert (Hl : match rev (cleanText t) with
               | c :: _ => Char.is_space c | [] => false end = false)
    by (rewrite cleanText_eq; apply trim_last).
  rewrite (cleanText_eq (cleanText t)).
  assert (Hm : map (fun c => if Char.is_char Char.newline c
                             then Char.space else c) (cleanText t)
               = cleanText t).
  { rewrite <- (map_id (cleanText t)) at 2. apply map_ext_in.
    intros c Hin. rewrite Forall_forall in Hc.
    destruct (Char.is_char Char.newline c) eqn:E; [|reflexivity].
    apply ReplaceFacts.is_char_eq in E. subst c.
    destruct (Hc _ Hin) as [H | H]; [discriminate H | exact (eq_sym H)]. }
  rewrite Hm, (squeeze_fixed _ _ _ Hc Hp). apply trim_fixed; assumption.
Qed.

End CleanFacts.

(** X3.  The text that [generateAIFileName] classifies keeps the
    characters of the extracted text that are not white space, in their
    order; its only white space is the space character, never two in a row
    and never at either end.  Cleaning it again changes nothing. *)
Theorem cleanText_normal (extractedText : str) :
  let clean := cleanText extractedText in
  Text.ink clean = Text.ink extractedText /\
  Forall (fun c => Char.is_space c = false \/ c = Char.space) clean /\
  Text.paired Char.is_space clean = false /\
  match clean with c :: _ => Char.is_space c | [] => false end = false /\
  match rev clean with c :: _ => Char.is_space c | [] => false end = false
  /\ cleanText clean = clean.
Proof.
  intros clean. unfold clean.
  destruct (CleanFacts.cleanText_facts extractedText) as [H1 [H2 H3]].
  repeat split; try assumption.
  - rewrite CleanFacts.cleanText_eq. apply CleanFacts.trim_head.
  - rewrite CleanFacts.cleanText_eq. apply CleanFacts.trim_last.
  - apply CleanFacts.cleanText_again.
Qed.

(** ** The generated file name *)

Module NameFacts.
Import Text.

Lemma ink_nonblank (t : str) :
  forallb Char.is_space t = false -> ink t <> [].
Proof.
  unfold ink. induction t as [|c t IH]; [discriminate|]. simpl.
  destruct (Char.is_space c); simpl; [exact IH | discriminate].
Qed.

Lemma cleanText_nonblank (t : str) :
  forallb Char.is_space t = false -> cleanText t <> [].
Proof.
  intros H E. apply (ink_nonblank t H).
  rewrite <- (proj1 (CleanFacts.cleanText_facts t)), E. reflexivity.
Qed.

Lemma stamp_eq (iso : str) :
  replace_all false (Chr (any_of ":.")) (lit "-") iso
  = map (fun c => if any_of ":." c then Char.hyphen else c) iso.
Proof. apply CleanFacts.replace_chr. Qed.

Lemma stamp_chars (n : nat) (iso : str) :
  Forall (fun c => any_of ":." c = false)
         (firstn n (map (fun c => if any_of ":." c then Char.hyphen else c)
                        iso)).
Proof.
  apply Forall_forall. intros c Hc. apply KeywordMore.firstn_In in Hc.
  apply in_map_iff in Hc. destruct Hc as [x [<- _]].
  destruct (any_of ":." x) eqn:E; [reflexivity | exact E].
Qed.

Lemma classifyAndName_length (t : str) : length (classifyAndName t) <= 50.
Proof.
  unfold classifyAndName.
  destruct (negb (nonempty t) || (length (trim t) =? 0)).
  - vm_compute. lia.
  - apply SanitizeFacts.sanitize_well_formed.
Qed.

(** *** The fields *)

Lemma cut_name (n : nat) (name : str) :
  0 < n -> n <= 50 -> name_within n (substring0 n (sanitizeFileName name)).
Proof.
  intros Hn _. unfold name_within, substring0.
  destruct (SanitizeFacts.sanitize_well_formed name) as [Hne [_ Hall]].
  split; [|split].
  - destruct n as [|n]; [lia|].
    destruct (sanitizeFileName name); [contradiction | discriminate].
  - rewrite length_firstn. lia.
  - apply Forall_forall. intros c Hc. apply KeywordMore.firstn_In in Hc.
    rewrite Forall_forall in Hall. apply Hall, Hc.
Qed.

Lemma name_within_le (n m : nat) (s : str) :
  n <= m -> name_within n s -> name_within m s.
Proof.
  intros Hnm [H1 [H2 H3]]. repeat split; [exact H1 | lia | exact H3].
Qed.

Lemma dashes_eq (g : str) :
  Fields.dashes g
  = map (fun c => if Char.is_char "/" c || Char.is_space c
                     || Char.is_char "," c
                  then Char.hyphen else c) g.
Proof. apply CleanFacts.replace_chr. Qed.

Lemma dashes_chars (g : str) :
  Forall (fun c => Char.is_char "/" c = false /\ Char.is_char "," c = false
                   /\ Char.is_space c = false)
         (Fields.dashes g).
Proof.
  rewrite dashes_eq. apply Forall_forall. intros c Hc.
  apply in_map_iff in Hc. destruct Hc as [x [<- _]].
  destruct (Char.is_char "/" x || Char.is_space x || Char.is_char "," x)
    eqn:E.
  - repeat split; reflexivity.
  - apply orb_false_iff in E. destruct E as [E E3].
    apply orb_false_iff in E. destruct E as [E1 E2]. auto.
Qed.

(** *** The topic *)

Lemma join_nonempty (sep : str) (l : list str) :
  l <> [] -> Forall (fun p => p <> []) l -> join sep l <> [].
Proof.
  intros Hl Hf. destruct l as [|p l]; [contradiction|].
  inversion Hf as [|? ? Hp _]; subst.
  destruct l as [|q l]; [exact Hp|].
  cbn [join]. destruct p; [contradiction | discriminate].
Qed.

Lemma firstn_nonempty {A : Type} (n : nat) (l : list A) :
  0 < n -> l <> [] -> firstn n l <> [].
Proof.
  intros Hn Hl. destruct n; [lia|]. destruct l; [contradiction|].
  discriminate.
Qed.

Lemma part_nonempty (f : option str) : Forall (fun p => p <> []) (part f).
Proof.
  destruct f as [[|c s]|]; simpl; repeat constructor. discriminate.
Qed.

Lemma label_nonempty (d : docType) : label d <> [].
Proof. destruct d; discriminate. Qed.

Lemma nameParts_nonempty (text : str) :
  Forall (fun p => p <> []) (nameParts text).
Proof.
  unfold nameParts. repeat (apply Forall_app; split);
    try apply part_nonempty.
  destruct (detectDocumentType (toLowerCase text));
    repeat constructor; discriminate.
Qed.

Lemma identifyTopic_parts (keywords : list str) (text : str) :
  nameParts text <> [] ->
  identifyTopic keywords text = join (lit "_") (firstn 4 (nameParts text)).
Proof.
  intros H. unfold identifyTopic. fold (nameParts text).
  destruct (nameParts text) as [|p l]; [contradiction | reflexivity].
Qed.

Lemma identifyTopic_nonempty (keywords : list str) (text : str) :
  Forall (fun k => k <> []) keywords -> identifyTopic keywords text <> [].
Proof.
  intros Hk. unfold identifyTopic. fold (nameParts text).
  pose proof (nameParts_nonempty text) as Hp.
  destruct (nameParts text) as [|p l] eqn:E.
  - cbn [length Nat.ltb Nat.leb].
    destruct keywords as [|k ks].
    + cbn [length Nat.ltb Nat.leb].
      match goal with
      | |- context [nonempty ?x] => destruct x as [|c s]
      end.
      * intros H. vm_compute in H. discriminate H.
      * cbn [nonempty toLowerCase map]. discriminate.
    + change (0 <? length (k :: ks)) with true. cbn iota.
      apply join_nonempty.
      * apply firstn_nonempty; [lia | discriminate].
      * apply Forall_forall. intros x Hx. apply KeywordMore.firstn_In in Hx.
        rewrite Forall_forall in Hk. apply Hk, Hx.
  - change (0 <? length (p :: l)) with true. cbn iota.
    apply join_nonempty.
    + apply firstn_nonempty; [lia | discriminate].
    + apply Forall_forall. intros x Hx. apply KeywordMore.firstn_In in Hx.
      rewrite Forall_forall in Hp. apply Hp, Hx.
Qed.

Lemma keywords_nonempty (text : str) :
  Forall (fun k => k <> []) (extractKeywords text).
Proof.
  set (words := match_all false Keywords.re_word (toLowerCase text)).
  assert (Hk : keys_ok words (fold_left Keywords.count_word words [])).
  { apply KeywordMore.fold_keys; [apply incl_refl|]. split; constructor. }
  destruct Hk as [_ Hf]. unfold extractKeywords. fold words.
  rewrite <- firstn_map. apply Forall_forall. intros w Hw.
  apply KeywordMore.firstn_In in Hw.
  apply (proj1 (KeywordMore.sort_keys _ _)) in Hw.
  rewrite Forall_forall in Hf. destruct (Hf w Hw) as [Hkeep _].
  apply KeywordMore.keep_spec in Hkeep. destruct Hkeep as [Hlen _].
  intros ->. simpl in Hlen. lia.
Qed.

Lemma join_head (sep p : str) (l : list str) :
  exists rest, join sep (p :: l) = p ++ rest.
Proof.
  destruct l as [|q l]; [exists []; simpl; rewrite app_nil_r; reflexivity|].
  exists (sep ++ join sep (q :: l)). reflexivity.
Qed.

End NameFacts.

(** X4.  For a text made of white space (the empty text too)
    [generateAIFileName] returns [empty_document_], the clock reading and
    the extension, and nothing is classified.  For any other text it
    returns the sanitized topic of the cleaned text, which is not empty,
    then an underscore, the first 19 characters of the ISO time with [:]
    and [.] turned into hyphens, and the extension: at most 70 characters
    before the extension. *)
Theorem generateAIFileName_shape (extractedText originalExtension now iso : str) :
  let name := generateAIFileName extractedText originalExtension now iso in
  let timestamp :=
    firstn 19 (map (fun c => if any_of ":." c then Char.hyphen else c) iso) in
  if forallb Char.is_space extractedText
  then name = lit "empty_document_" ++ now ++ originalExtension
  else
    cleanText extractedText <> [] /\
    name = sanitizeFileName
             (identifyTopic (extractKeywords (cleanText extractedText))
                            (cleanText extractedText))
           ++ lit "_" ++ timestamp ++ originalExtension /\
    Forall (fun c => any_of ":." c = false) timestamp /\
    length name <= 70 + length originalExtension.
Proof.
  intros name timestamp. unfold name, generateAIFileName.
  rewrite CleanFacts.blank_test.
  destruct (forallb Char.is_space extractedText) eqn:E; [reflexivity|].
  split; [apply NameFacts.cleanText_nonblank, E|].
  unfold substring0. rewrite NameFacts.stamp_eq. fold timestamp.
  assert (Hc : classifyAndName extractedText
               = sanitizeFileName
                   (identifyTopic (extractKeywords (cleanText extractedText))
                                  (cleanText extractedText))).
  { unfold classifyAndName. rewrite CleanFacts.blank_test, E. reflexivity. }
  split; [rewrite Hc; reflexivity|].
  split; [apply NameFacts.stamp_chars|].
  rewrite !length_app.
  pose proof (NameFacts.classifyAndName_length extractedText).
  assert (length timestamp <= 19)
    by (unfold timestamp; rewrite length_firstn; lia).
  change (length (lit "_")) with 1. lia.
Qed.

(** X5.  The fields that [extractContext] sets are bounded: a company is a
    non-empty name of at most 20 letters, digits, underscores and hyphens,
    a subject one of at most 30; a date has no slash, comma or white space;
    an amount is set for an invoice or a receipt only. *)
Theorem extractContext_fields (text textLower : str) (docType : docType) :
  let context := extractContext text textLower docType in
  Text.when_set (Text.name_within 20) (company context) /\
  Text.when_set (Text.name_within 30) (subject context) /\
  Text.when_set
    (Forall (fun c => Char.is_char "/" c = false /\ Char.is_char "," c = false
                      /\ Char.is_space c = false))
    (date context) /\
  (amount context <> None -> docType = invoice \/ docType = receipt).
Proof.
  unfold extractContext. cbn zeta.
  cbn [company subject date amount].
  split; [|split; [|split]].
  - destruct (group1 true Fields.re_company text); [|exact I].
    apply NameFacts.cut_name; lia.
  - assert (Hs : Text.when_set (Text.name_within 30)
                   match group1 true Fields.re_subject text with
                   | Some g => Some (substring0 20 (sanitizeFileName (trim g)))
                   | None => None
                   end).
    { destruct (group1 true Fields.re_subject text); [|exact I].
      apply (NameFacts.name_within_le 20 30); [lia|].
      apply NameFacts.cut_name; lia. }
    match goal with
    | |- Text.when_set _ (if ?b then _ else _) => destruct b
    end; [|exact Hs].
    match goal with
    | |- Text.when_set _ (match ?l with _ :: _ => _ | [] => _ end) =>
        destruct l as [|l0 ls]
    end; [exact Hs|].
    match goal with
    | |- Text.when_set _ (if ?b then _ else _) => destruct b
    end; [|exact Hs].
    apply NameFacts.cut_name; lia.
  - destruct (group1 true Fields.re_date text); [|exact I].
    apply NameFacts.dashes_chars.
  - destruct docType; auto; intros H; contradiction.
Qed.

(** X6.  The topic built from the keywords of a text is never empty, so
    the sanitizer never has an empty string to replace: whatever the text,
    a part of the name, a keyword, a first word or [document] is there. *)
Theorem identifyTopic_never_empty (text : str) :
  identifyTopic (extractKeywords text) text <> [] /\
  identifyTopic [] text <> [].
Proof.
  split; apply NameFacts.identifyTopic_nonempty.
  - apply NameFacts.keywords_nonempty.
  - constructor.
Qed.

(** X7.  When the text has a document type other than [document], the
    topic begins with the label of the type and the keywords play no part
    in it. *)
Theorem identifyTopic_typed (text : str) (d : docType) :
  detectDocumentType (toLowerCase text) = d -> d <> document ->
  (forall keywords, exists rest,
        identifyTopic keywords text = label d ++ rest) /\
  (forall keywords keywords',
      identifyTopic keywords text = identifyTopic keywords' text).
Proof.
  intros Hd Hn.
  assert (Hp : exists l, Text.nameParts text = label d :: l).
  { unfold Text.nameParts. rewrite Hd.
    destruct d; try contradiction; eexists; reflexivity. }
  destruct Hp as [l Hp].
  assert (Hne : Text.nameParts text <> []) by (rewrite Hp; discriminate).
  split.
  - intros keywords. rewrite (NameFacts.identifyTopic_parts _ _ Hne), Hp.
    cbn [firstn]. apply NameFacts.join_head.
  - intros k1 k2. rewrite !(NameFacts.identifyTopic_parts _ _ Hne).
    reflexivity.
Qed.

Lemma identifyTopic_typed_witness :
  exists rest,
    identifyTopic [lit "anything"] (lit "Invoice 12") = lit "invoice" ++ rest.
Proof.
  apply (proj1 (identifyTopic_typed (lit "Invoice 12") invoice eq_refl
                  ltac:(discriminate))).
Defined.

(** ** The words behind a type, and the upload filter *)

(** X8.  A type other than the default is only given to a text in which a
    word of that type's rule occurs (the text is the lower-cased one the
    classifier is called on); a receipt moreover has a digit in it, and a
    form has one of the words name, address, date, signature. *)
Theorem detectDocumentType_words (textLower : str) (d : docType) :
  detectDocumentType textLower = d -> d <> document ->
  Vocabulary.has_one (Vocabulary.words d) textLower /\
  (d = receipt -> exists c, In c textLower /\ Char.is_digit c = true) /\
  (d = form -> Vocabulary.has_one Vocabulary.fields textLower).
Proof.
  intros Hd Hn.
  destruct (MatchFacts.detectDocumentType_rule _ _ Hd Hn) as [H1 [H2 H3]].
  split; [|split].
  - apply MatchFacts.test_words_sound; [|exact H1].
    destruct d; try discriminate. contradiction Hn. reflexivity.
  - intros E. apply MatchFacts.test_money. apply H2. exact E.
  - intros E. apply MatchFacts.test_words_sound; [discriminate|].
    apply H3. exact E.
Qed.

Lemma detectDocumentType_words_witness :
  Vocabulary.has_one (Vocabulary.words receipt) (lit "paid $5") /\
  (receipt = receipt ->
   exists c, In c (lit "paid $5") /\ Char.is_digit c = true) /\
  (receipt = form ->
   Vocabulary.has_one Vocabulary.fields (lit "paid $5")).
Proof.
  apply (detectDocumentType_words (lit "paid $5") receipt).
  - reflexivity.
  - discriminate.
Defined.

(** X9.  The upload filter accepts a file exactly when one of the names
    jpeg, jpg, png, gif, bmp, tiff, pdf occurs somewhere in the MIME type as
    sent and one occurs somewhere in the lower-cased extension: the
    pattern is not anchored, and the MIME type is not lower-cased. *)
Theorem fileFilter_accepts (extension mimetype : str) :
  Routes.fileFilter extension mimetype = true <->
  Vocabulary.has_one Vocabulary.types mimetype /\
  Vocabulary.has_one Vocabulary.types (toLowerCase extension).
Proof.
  unfold Routes.fileFilter, Routes.allowedTypes.
  rewrite andb_true_iff.
  change ["jpeg"; "jpg"; "png"; "gif"; "bmp"; "tiff"; "pdf"]
    with Vocabulary.types.
  rewrite !MatchFacts.test_alts by discriminate. reflexivity.
Qed.

(** ** The keys of the store *)

Module StoreFacts.
Import Db Store.

Lemma map_skip {A : Type} (q : A -> bool) (f : A -> A) (l : list A) :
  find q l = None -> map (fun x => if q x then f x else x) l = l.
Proof.
  induction l as [|x l IH]; [reflexivity|].
  simpl. destruct (q x); [discriminate|].
  intros H. rewrite IH by exact H. reflexivity.
Qed.

Lemma update_user_absent (p : str) (f : User.t -> User.t) (d : Db.t) :
  user_of p d = None -> update_user p f d = d.
Proof.
  unfold user_of, update_user. intros H.
  rewrite map_skip by exact H. destruct d; reflexivity.
Qed.

Lemma update_file_absent (i : nat) (f : File.t -> File.t) (d : Db.t) :
  file_of i d = None -> update_file i f d = d.
Proof.
  unfold file_of, update_file. intros H.
  rewrite map_skip by exact H. destruct d; reflexivity.
Qed.

Lemma find_existsb {A : Type} (q : A -> bool) (l : list A) :
  find q l = None <-> existsb q l = false.
Proof.
  induction l as [|x l IH]; [split; reflexivity|].
  simpl. destruct (q x); [split; discriminate | exact IH].
Qed.

Lemma find_snoc {A : Type} (q : A -> bool) (l : list A) (x : A) :
  find q (l ++ [x])
  = match find q l with
    | Some v => Some v
    | None => if q x then Some x else None
    end.
Proof.
  induction l as [|v l IH]; [reflexivity|].
  simpl. destruct (q v); [reflexivity | exact IH].
Qed.

Lemma absent_not_in (p : str) (l : list User.t) :
  find (is_user p) l = None -> ~ In p (map User.user_queue_position l).
Proof.
  induction l as [|u l IH]; [intros _ []|].
  simpl. destruct (is_user p u) eqn:E; [discriminate|].
  intros H [Hin | Hin]; [|exact (IH H Hin)].
  unfold is_user in E. rewrite Hin, DbFacts.str_eqb_refl in E.
  discriminate E.
Qed.

Lemma NoDup_snoc {A : Type} (l : list A) (x : A) :
  NoDup l -> ~ In x l -> NoDup (l ++ [x]).
Proof.
  induction 1 as [|y l Hy Hl IH]; intros Hx.
  - constructor; [intros [] | constructor].
  - simpl. constructor.
    + intros Hin. apply in_app_or in Hin. destruct Hin as [Hin | [E | []]].
      * exact (Hy Hin).
      * apply Hx. left. symmetry. exact E.
    + apply IH. intros Hin. apply Hx. right. exact Hin.
Qed.

Lemma rising_snoc (l : list nat) :
  forall lo n,
    rising lo l -> Forall (fun x => x <= n) l -> lo <= n ->
    rising lo (l ++ [S n]).
Proof.
  induction l as [|x l IH]; intros lo n Hr Hf Hlo.
  - simpl. split; [lia | exact I].
  - simpl in *. destruct Hr as [H1 H2]. inversion Hf as [|? ? Hx Hf']; subst.
    split; [exact H1 | apply IH; assumption].
Qed.

Lemma rising_weaken (l : list nat) (lo lo' : nat) :
  lo' <= lo -> rising lo l -> rising lo' l.
Proof.
  destruct l as [|x l]; [intros _ _; exact I|].
  simpl. intros H [H1 H2]. split; [lia | exact H2].
Qed.

Lemma rising_above (l : list nat) :
  forall lo, rising lo l -> Forall (fun x => lo < x) l.
Proof.
  induction l as [|x l IH]; intros lo Hr; [constructor|].
  simpl in Hr. destruct Hr as [H1 H2]. constructor; [exact H1|].
  apply IH. apply (rising_weaken l x lo); [lia | exact H2].
Qed.

Lemma Forall_snoc {A : Type} (P : A -> Prop) (l : list A) (x : A) :
  Forall P l -> P x -> Forall P (l ++ [x]).
Proof.
  intros Hl Hx. apply Forall_app. split; [exact Hl|].
  constructor; [exact Hx | constructor].
Qed.

Lemma Forall_le_S {A : Type} (f : A -> nat) (l : list A) (n : nat) :
  Forall (fun x => f x <= n) l -> Forall (fun x => f x <= S n) l.
Proof.
  intros H. eapply Forall_impl; [|exact H]. simpl. intros a Ha. lia.
Qed.

Lemma Forall_map_le {A : Type} (f : A -> nat) (l : list A) (n : nat) :
  Forall (fun x => f x <= n) l -> Forall (fun x => x <= n) (map f l).
Proof.
  intros H. apply Forall_map. exact H.
Qed.

(** An update that keeps a column keeps the column of the table. *)
Lemma map_update {A B : Type} (g : A -> B) (q : A -> bool) (f : A -> A)
      (l : list A) :
  (forall x, g (f x) = g x) ->
  map g (map (fun x => if q x then f x else x) l) = map g l.
Proof.
  intros Hg. rewrite map_map. apply map_ext.
  intros x. destruct (q x); [apply Hg | reflexivity].
Qed.

Lemma Forall_update {A : Type} (g : A -> nat) (q : A -> bool) (f : A -> A)
      (l : list A) (n : nat) :
  (forall x, g (f x) = g x) ->
  Forall (fun x => g x <= n) l ->
  Forall (fun x => g x <= n) (map (fun x => if q x then f x else x) l).
Proof.
  intros Hg H. apply Forall_map. eapply Forall_impl; [|exact H].
  simpl. intros x Hx. destruct (q x); [rewrite Hg|]; exact Hx.
Qed.

Lemma sound_update_user (p : str) (f : User.t -> User.t) (d : Db.t) :
  (forall u, User.id (f u) = User.id u) ->
  (forall u, User.user_queue_position (f u) = User.user_queue_position u) ->
  sound d -> sound (update_user p f d).
Proof.
  intros Hi Hp [H1 [H2 [H3 [H4 H5]]]]. unfold sound, update_user.
  cbn [dbt2_user dbt2_seq dbt3_file dbt3_seq].
  rewrite !map_update by assumption.
  repeat split; try assumption.
  apply Forall_update; assumption.
Qed.

Lemma sound_update_file (i : nat) (f : File.t -> File.t) (d : Db.t) :
  (forall r, File.id (f r) = File.id r) ->
  sound d -> sound (update_file i f d).
Proof.
  intros Hi [H1 [H2 [H3 [H4 H5]]]]. unfold sound, update_file.
  cbn [dbt2_user dbt2_seq dbt3_file dbt3_seq].
  rewrite !map_update by assumption.
  repeat split; try assumption.
  apply Forall_update; assumption.
Qed.

Lemma sound_createUser (p : str) (d : Db.t) :
  sound d -> sound (fst (createUser p d)).
Proof.
  intros Hs. unfold createUser.
  destruct (existsb (is_user p) (dbt2_user d)) eqn:E; [exact Hs|].
  destruct Hs as [H1 [H2 [H3 [H4 H5]]]]. unfold sound.
  cbn [fst dbt2_user dbt2_seq dbt3_file dbt3_seq].
  rewrite !map_app. cbn [map User.id User.user_queue_position].
  repeat split; try assumption.
  - apply NoDup_snoc; [exact H1|].
    apply absent_not_in. apply find_existsb. exact E.
  - apply rising_snoc; [exact H2 | apply Forall_map; exact H3 | lia].
  - apply Forall_snoc; [apply Forall_le_S; exact H3 | simpl; lia].
Qed.

Lemma sound_addFile (fd : fileData) (now : time) (d : Db.t) :
  sound d -> sound (fst (addFile fd now d)).
Proof.
  intros [H1 [H2 [H3 [H4 H5]]]]. unfold sound, addFile.
  cbn [fst dbt2_user dbt2_seq dbt3_file dbt3_seq].
  rewrite !map_app. cbn [map File.id].
  repeat split; try assumption.
  - apply rising_snoc; [exact H4 | apply Forall_map; exact H5 | lia].
  - apply Forall_snoc; [apply Forall_le_S; exact H5 | simpl; lia].
Qed.

Lemma sound_exec (d : Db.t) (c : Calls.call) :
  sound d -> sound (Calls.issue d c).
Proof.
  intros Hs. destruct c; cbn [Calls.issue].
  - apply sound_createUser, Hs.
  - apply sound_addFile, Hs.
  - apply sound_update_file; [reflexivity | exact Hs].
  - apply sound_update_file; [reflexivity | exact Hs].
  - apply sound_update_user; [reflexivity | reflexivity | exact Hs].
  - apply sound_update_user; [reflexivity | reflexivity | exact Hs].
  - unfold updateUserExtractionEnd, updateUserTotalProcessingTime.
    repeat apply sound_update_user; try reflexivity. exact Hs.
  - unfold updateUserExtractionEndBulk, updateUserTotalProcessingTime.
    repeat apply sound_update_user; try reflexivity. exact Hs.
  - apply sound_update_user; [reflexivity | reflexivity | exact Hs].
  - exact Hs.
  - exact Hs.
Qed.

Lemma sound_empty : sound Db.empty.
Proof.
  unfold sound. simpl. repeat split; constructor.
Qed.

Lemma sound_run (cs : list Calls.call) :
  forall d, sound d -> sound (Calls.issue_all cs d).
Proof.
  unfold Calls.issue_all. induction cs as [|c cs IH]; intros d Hs; [exact Hs|].
  simpl. apply IH. apply sound_exec. exact Hs.
Qed.

(** In a table whose ids grow, an id finds the only row that has it. *)
Lemma rising_unique (l : list File.t) :
  forall lo,
    rising lo (map File.id l) ->
    forall r r', In r l -> In r' l -> File.id r = File.id r' -> r = r'.
Proof.
  induction l as [|x l IH]; intros lo Hr r r' Hin Hin' E; [destruct Hin|].
  simpl in Hr. destruct Hr as [H1 H2].
  pose proof (rising_above _ _ H2) as Ha.
  rewrite Forall_forall in Ha.
  destruct Hin as [-> | Hin], Hin' as [-> | Hin'].
  - reflexivity.
  - specialize (Ha (File.id r') (in_map File.id _ _ Hin')). lia.
  - specialize (Ha (File.id r) (in_map File.id _ _ Hin)). lia.
  - exact (IH _ H2 r r' Hin Hin' E).
Qed.

Lemma place_last (r : File.t) (l : list File.t) :
  Forall (fun x => File.id r < File.id x) l -> place r l = l ++ [r].
Proof.
  induction 1 as [|x l Hx Hl IH]; [reflexivity|].
  simpl. apply Nat.ltb_lt in Hx. rewrite Hx, IH. reflexivity.
Qed.

Lemma rising_filter (q : File.t -> bool) (l : list File.t) :
  forall lo, rising lo (map File.id l) ->
             rising lo (map File.id (filter q l)).
Proof.
  induction l as [|x l IH]; intros lo Hr; [exact I|].
  simpl in *. destruct Hr as [H1 H2]. destruct (q x).
  - simpl. split; [exact H1 | apply IH; exact H2].
  - apply IH. apply (rising_weaken _ (File.id x) lo); [lia | exact H2].
Qed.

Lemma by_id_desc_rising (l : list File.t) :
  forall lo, rising lo (map File.id l) -> by_id_desc l = rev l.
Proof.
  induction l as [|x l IH]; intros lo Hr; [reflexivity|].
  simpl in *. destruct Hr as [H1 H2]. rewrite (IH _ H2).
  apply place_last. apply Forall_rev.
  pose proof (rising_above _ _ H2) as Ha.
  rewrite Forall_map in Ha. exact Ha.
Qed.

Lemma getUserFiles_rev (p : str) (d : Db.t) :
  sound d ->
  getUserFiles p d =
  rev (filter (fun r => str_eqb (File.user_queue_position r) p)
              (dbt3_file d)).
Proof.
  intros [_ [_ [_ [H4 _]]]]. unfold getUserFiles.
  apply (by_id_desc_rising _ 0). apply rising_filter. exact H4.
Qed.

End StoreFacts.

(** X10.  Whatever helpers of the store are called on a new database, in
    whatever order and with whatever arguments, the queue positions of
    the user table stay pairwise distinct, the ids of each table grow with
    insertion and stay within the table's sequence, and so an id names at
    most one file record. *)
Theorem store_keys_sound (cs : list Calls.call) :
  let d := Calls.issue_all cs Db.empty in
  Store.sound d /\
  (forall r r', In r (Db.dbt3_file d) -> In r' (Db.dbt3_file d) ->
                Db.File.id r = Db.File.id r' -> r = r') /\
  (forall fd now, Db.file_of (snd (Db.addFile fd now d)) d = None).
Proof.
  intros d.
  assert (Hs : Store.sound d)
    by (apply StoreFacts.sound_run, StoreFacts.sound_empty).
  split; [exact Hs|]. split.
  - destruct Hs as [_ [_ [_ [H4 _]]]].
    apply (StoreFacts.rising_unique _ 0). exact H4.
  - intros fd now. cbn [Db.addFile snd]. unfold Db.file_of.
    destruct (find (fun r => Db.File.id r =? S (Db.dbt3_seq d))
                   (Db.dbt3_file d)) as [r|] eqn:E; [|reflexivity].
    apply find_some in E. destruct E as [E1 E2].
    apply Nat.eqb_eq in E2.
    destruct Hs as [_ [_ [_ [_ H5]]]]. rewrite Forall_forall in H5.
    specialize (H5 r E1). lia.
Qed.

(** X11.  A statement for a key that is not in its table changes nothing
    and reports nothing: the helpers that write to a queue entry leave the
    store as it is when the position is unknown, and those that write to a
    file record leave it as it is when the id is unknown. *)
Theorem absent_keys_ignored (d : Db.t) (userPosition : str) (fileId : nat) :
  Db.user_of userPosition d = None ->
  Db.file_of fileId d = None ->
  (forall (now : Db.time) (success : bool) (successCount failCount : Z),
      Db.updateUserStats userPosition d = d /\
      Db.updateUserExtractionStart userPosition now d = d /\
      Db.updateUserExtractionEnd userPosition success now d = d /\
      Db.updateUserExtractionEndBulk userPosition successCount failCount
                                     now d = d /\
      Db.updateUserTotalProcessingTime userPosition d = d) /\
  (forall (detectedLanguage state aiFileName : str) (now : Db.time),
      Db.updateFileAfterOCR fileId detectedLanguage state now d = d /\
      Server.setAiFileName fileId aiFileName d = d).
Proof.
  intros Hu Hf. split.
  - intros now success s f.
    unfold Db.updateUserStats, Db.updateUserExtractionStart,
      Db.updateUserExtractionEnd, Db.updateUserExtractionEndBulk,
      Db.updateUserTotalProcessingTime.
    rewrite !(StoreFacts.update_user_absent userPosition _ d Hu).
    repeat split; reflexivity.
  - intros l st n now.
    unfold Db.updateFileAfterOCR, Server.setAiFileName.
    rewrite !(StoreFacts.update_file_absent fileId _ d Hf).
    split; reflexivity.
Qed.

Lemma absent_keys_ignored_witness :
  Db.updateUserStats (lit "user2") Ledger.two_files = Ledger.two_files /\
  Db.updateFileAfterOCR 7 (lit "eng") (lit "success") 20%Z Ledger.two_files
  = Ledger.two_files.
Proof.
  destruct (absent_keys_ignored Ledger.two_files (lit "user2") 7
              eq_refl eq_refl) as [H1 H2].
  split.
  - exact (proj1 (H1 0%Z true 0%Z 0%Z)).
  - exact (proj1 (H2 (lit "eng") (lit "success") [] 20%Z)).
Defined.

(** X12.  The newest records come first: on a store whose keys are sound,
    [getUserFiles] returns the records of the position in the reverse of
    the order of insertion, and a record that [addFile] has just inserted
    for the position is the first of the list, the others following as
    before; a record inserted for another position does not show. *)
Theorem getUserFiles_newest_first (userPosition : str) (d : Db.t) :
  Store.sound d ->
  Db.getUserFiles userPosition d
    = rev (filter (fun r => str_eqb (Db.File.user_queue_position r)
                                    userPosition)
                  (Db.dbt3_file d)) /\
  forall (fd : Db.fileData) (now : Db.time),
    Db.getUserFiles userPosition (fst (Db.addFile fd now d))
    = if str_eqb (Db.fd_user_queue_position fd) userPosition
      then Store.inserted fd now d :: Db.getUserFiles userPosition d
      else Db.getUserFiles userPosition d.
Proof.
  intros Hs. split; [apply StoreFacts.getUserFiles_rev; exact Hs|].
  intros fd now.
  rewrite (StoreFacts.getUserFiles_rev userPosition _
             (StoreFacts.sound_addFile fd now d Hs)).
  rewrite (StoreFacts.getUserFiles_rev userPosition d Hs).
  cbn [Db.addFile fst Db.dbt3_file]. rewrite filter_app.
  cbn [filter Db.File.user_queue_position].
  destruct (str_eqb (Db.fd_user_queue_position fd) userPosition).
  - rewrite rev_app_distr. reflexivity.
  - rewrite app_nil_r. reflexivity.
Qed.

Lemma getUserFiles_newest_first_witness :
  Store.sound Ledger.two_files /\
  map Db.File.id (Db.getUserFiles (lit "user1") Ledger.two_files) = [2; 1].
Proof.
  assert (Hs : Store.sound Ledger.two_files).
  { vm_compute. repeat split; repeat constructor; intros H; destruct H. }
  split; [exact Hs|].
  rewrite (proj1 (getUserFiles_newest_first (lit "user1") Ledger.two_files
                                            Hs)).
  reflexivity.
Defined.

(** ** The handlers and the counters *)

Module RouteFacts.
Import Db Server Routes Store.

Lemma update_twice {A : Type} (q : A -> bool) (f g : A -> A) (l : list A) :
  (forall x, q (f x) = q x) ->
  map (fun x => if q x then g x else x)
      (map (fun x => if q x then f x else x) l)
  = map (fun x => if q x then g (f x) else x) l.
Proof.
  intros Hq. rewrite map_map. apply map_ext. intros x.
  destruct (q x) eqn:E; [rewrite Hq, E | rewrite E]; reflexivity.
Qed.

Lemma update_ext {A : Type} (q : A -> bool) (f g : A -> A) (l : list A) :
  (forall x, q x = true -> f x = g x) ->
  map (fun x => if q x then f x else x) l
  = map (fun x => if q x then g x else x) l.
Proof.
  intros H. apply map_ext. intros x.
  destruct (q x) eqn:E; [apply H; exact E | reflexivity].
Qed.

Ltac open_handlers :=
  unfold updateUserExtractionEnd, updateUserTotalProcessingTime,
    updateUserExtractionStart, updateUserStats, incrementFileCount,
    updateFileAfterOCR, setAiFileName, update_developer;
  cbn [update_user update_file dbt2_user dbt3_file dbt2_seq dbt3_seq
       dbt1_developer].

Ltac same_entry :=
  unfold served, record_end, set_uploaded;
  cbn [User.id User.user_queue_position User.total_files_uploaded
       User.total_files_treated User.total_files_not_treated
       User.extraction_start_timestamp User.extraction_end_timestamp
       User.total_processing_time];
  f_equal; try lia; reflexivity.

(** The queue entries after one upload: a success is counted when the
    engine gave a text, a failure when the file did not go through. *)
Lemma uploadSingle_users (p fmt : str) (d : Db.t) (j : job) :
  dbt2_user (uploadSingle p fmt d j)
  = map (fun u =>
           if is_user p u
           then served 1 (if read j then 1 else 0) (if won j then 0 else 1)
                       (Some (t0 j)) (Some (t1 j))
                       (sum_success p (uploadSingle p fmt d j)) u
           else u)
        (dbt2_user d).
Proof.
  unfold uploadSingle, upload, won, read, fileData_of.
  cbn [addFile fd_user_queue_position].
  destruct (ocr j) as [text|]; destruct (written j); cbn [fst andb];
    open_handlers; rewrite !update_twice by reflexivity;
    apply update_ext; intros u _; same_entry.
Qed.

Lemma uploadSingle_files_side (p fmt : str) (d d' : Db.t) (j : job) :
  files_side d = files_side d' ->
  files_side (fst (bulk_file p fmt d j)) = files_side (uploadSingle p fmt d' j)
  /\ snd (bulk_file p fmt d j) = won j.
Proof.
  unfold files_side. intros H. injection H as H1 H2 H3.
  unfold bulk_file, uploadSingle, upload, won, read, fileData_of.
  cbn [addFile fd_user_queue_position].
  destruct (ocr j) as [text|]; destruct (written j); cbn [fst snd andb];
    open_handlers; rewrite H1, H2, H3; split; reflexivity.
Qed.

Lemma bulk_file_users (p fmt : str) (d : Db.t) (j : job) :
  dbt2_user (fst (bulk_file p fmt d j))
  = map (fun u => if is_user p u
                  then set_uploaded (User.total_files_uploaded u + 1) u
                  else u)
        (dbt2_user d).
Proof.
  unfold bulk_file. cbn [addFile].
  destruct (ocr j) as [text|]; destruct (written j); reflexivity.
Qed.

Lemma set_uploaded_twice (a b : Z) (u : User.t) :
  set_uploaded (User.total_files_uploaded (set_uploaded a u) + b)
               (set_uploaded a u)
  = set_uploaded (a + b) u.
Proof. reflexivity. Qed.

(** The loop of the bulk handler: the file statements are those of the
    single uploads, and each file adds one to the uploads of the entry. *)
Lemma bulk_loop_spec (p fmt : str) (jobs : list job) :
  forall d d' : Db.t,
    files_side d = files_side d' ->
    files_side (fst (bulk_loop p fmt d jobs))
      = files_side (one_by_one p fmt jobs d') /\
    snd (bulk_loop p fmt d jobs) = succeeded jobs /\
    dbt2_user (fst (bulk_loop p fmt d jobs))
      = map (fun u =>
               if is_user p u
               then set_uploaded (User.total_files_uploaded u
                                  + Z.of_nat (length jobs)) u
               else u)
            (dbt2_user d).
Proof.
  induction jobs as [|j jobs IH]; intros d d' H.
  - cbn [bulk_loop fst snd one_by_one fold_left succeeded map length].
    split; [exact H|]. split; [reflexivity|].
    symmetry. rewrite <- (map_id (dbt2_user d)) at 2.
    apply map_ext. intros u. destruct (is_user p u); [|reflexivity].
    destruct u. unfold set_uploaded. cbn. f_equal. lia.
  - cbn [bulk_loop].
    destruct (bulk_file p fmt d j) as [d1 success] eqn:E1.
    destruct (bulk_loop p fmt d1 jobs) as [d2 results] eqn:E2.
    destruct (uploadSingle_files_side p fmt d d' j H) as [F1 F2].
    rewrite E1 in F1, F2. cbn [fst snd] in F1, F2.
    destruct (IH d1 (uploadSingle p fmt d' j) F1) as [G1 [G2 G3]].
    rewrite E2 in G1, G2, G3. cbn [fst snd] in *.
    split; [exact G1|]. split.
    + unfold succeeded in *. cbn [map]. rewrite F2, G2. reflexivity.
    + rewrite G3. pose proof (bulk_file_users p fmt d j) as U.
      rewrite E1 in U. cbn [fst] in U. rewrite U.
      rewrite update_twice by reflexivity.
      apply update_ext. intros u _.
      rewrite set_uploaded_twice. f_equal.
      cbn [length]. lia.
Qed.

Lemma served_twice (n k m n' k' m' : Z) (s f s' f' : option time)
      (t t' : Z) (u : User.t) :
  served n' k' m' s' f' t' (served n k m s f t u)
  = served (n + n') (k + k') (m + m') s' f' t' u.
Proof.
  unfold served. cbn. f_equal; lia.
Qed.

Lemma wins_cons (j : job) (jobs : list job) :
  (wins (j :: jobs) = (if won j then 1 else 0) + wins jobs)%Z.
Proof.
  unfold wins, succeeded. cbn [map filter].
  destruct (won j); cbn [length]; lia.
Qed.

Lemma losses_cons (j : job) (jobs : list job) :
  (losses (j :: jobs) = (if won j then 0 else 1) + losses jobs)%Z.
Proof.
  unfold losses, succeeded. cbn [map filter].
  destruct (won j); cbn [negb length]; lia.
Qed.

Lemma reads_cons (j : job) (jobs : list job) :
  (reads (j :: jobs) = (if read j then 1 else 0) + reads jobs)%Z.
Proof.
  unfold reads. cbn [filter]. destruct (read j); cbn [length]; lia.
Qed.

Lemma spoils_cons (j : job) (jobs : list job) :
  (spoils (j :: jobs) = (if spoilt j then 1 else 0) + spoils jobs)%Z.
Proof.
  unfold spoils. cbn [filter]. destruct (spoilt j); cbn [length]; lia.
Qed.

Lemma wins_losses (jobs : list job) :
  (wins jobs + losses jobs = Z.of_nat (length jobs))%Z.
Proof.
  induction jobs as [|j jobs IH]; [reflexivity|].
  rewrite wins_cons, losses_cons. cbn [length].
  destruct (won j); lia.
Qed.

(** A file that was read went through or was spoilt. *)
Lemma reads_split (jobs : list job) :
  (reads jobs = wins jobs + spoils jobs)%Z.
Proof.
  induction jobs as [|j jobs IH]; [reflexivity|].
  rewrite reads_cons, wins_cons, spoils_cons, IH.
  unfold won, spoilt. destruct (read j), (written j); cbn [andb negb]; lia.
Qed.

Lemma counts_bounds (jobs : list job) :
  (0 <= wins jobs /\ 0 <= losses jobs /\ 0 <= spoils jobs /\
   spoils jobs <= losses jobs)%Z.
Proof.
  induction jobs as [|j jobs IH].
  - unfold wins, losses, spoils. cbn. lia.
  - rewrite wins_cons, losses_cons, spoils_cons.
    unfold won, spoilt. destruct (read j), (written j); cbn [andb negb]; lia.
Qed.

Lemma fail_count (jobs : list job) :
  Z.of_nat (length (succeeded jobs)
            - length (filter (fun r => r) (succeeded jobs)))
  = losses jobs.
Proof.
  pose proof (wins_losses jobs) as H. unfold wins, losses in *.
  pose proof (filter_length_le (fun r => r) (succeeded jobs)) as Hle.
  unfold succeeded in *. rewrite length_map in *. lia.
Qed.

(** The queue entries after the files of a batch were sent one request
    each: the window and the total are those of the last request. *)
Lemma one_by_one_users (p fmt : str) (jobs : list job) :
  forall d : Db.t,
    jobs <> [] ->
    exists start finish,
      dbt2_user (one_by_one p fmt jobs d)
      = map (fun u =>
               if is_user p u
               then served (Z.of_nat (length jobs)) (reads jobs)
                           (losses jobs) start finish
                           (sum_success p (one_by_one p fmt jobs d)) u
               else u)
            (dbt2_user d).
Proof.
  induction jobs as [|j jobs IH]; intros d Hne;
    [contradiction Hne; reflexivity|].
  destruct jobs as [|j2 jobs'].
  - exists (Some (t0 j)), (Some (t1 j)).
    cbn [one_by_one fold_left]. rewrite uploadSingle_users.
    apply update_ext. intros u _.
    rewrite reads_cons, losses_cons. unfold reads, losses. cbn.
    unfold served. f_equal; lia.
  - destruct (IH (uploadSingle p fmt d j) ltac:(discriminate))
      as [start [finish E]].
    exists start, finish.
    change (one_by_one p fmt (j :: j2 :: jobs') d)
      with (one_by_one p fmt (j2 :: jobs') (uploadSingle p fmt d j)).
    rewrite E, uploadSingle_users.
    rewrite update_twice by reflexivity.
    apply update_ext. intros u _.
    rewrite served_twice, (reads_cons j), (losses_cons j).
    unfold served. f_equal; cbn [length]; lia.
Qed.

(** What the bulk handler leaves when it accepts the request. *)
Lemma uploadBulk_spec (p fmt : str) (jobs : list job) (start finish : time)
      (d : Db.t) :
  jobs <> [] -> length jobs <= 10 -> p <> [] ->
  snd (uploadBulk p fmt jobs start finish d) = Some (succeeded jobs) /\
  files_side (fst (uploadBulk p fmt jobs start finish d))
    = files_side (one_by_one p fmt jobs d) /\
  dbt2_user (fst (uploadBulk p fmt jobs start finish d))
    = map (fun u =>
             if is_user p u
             then served (Z.of_nat (length jobs)) (wins jobs) (losses jobs)
                         (Some start) (Some finish)
                         (sum_success p (one_by_one p fmt jobs d)) u
             else u)
          (dbt2_user d).
Proof.
  intros Hne Hlen Hp. unfold uploadBulk.
  assert (C1 : (10 <? length jobs) = false) by (apply Nat.ltb_ge; exact Hlen).
  assert (C2 : (length jobs =? 0) = false).
  { destruct jobs; [contradiction Hne; reflexivity | reflexivity]. }
  assert (C3 : nonempty p = true).
  { destruct p; [contradiction Hp; reflexivity | reflexivity]. }
  rewrite C1, C2, C3. cbn [orb negb].
  destruct (bulk_loop_spec p fmt jobs
              (updateUserExtractionStart p start d) d eq_refl)
    as [G1 [G2 G3]].
  destruct (bulk_loop p fmt (updateUserExtractionStart p start d) jobs)
    as [d1 results].
  cbn [fst snd] in *. subst results.
  split; [reflexivity|]. split; [exact G1|].
  unfold updateUserExtractionEndBulk, updateUserTotalProcessingTime.
  cbn [update_user dbt2_user]. rewrite G3.
  unfold updateUserExtractionStart. cbn [update_user dbt2_user].
  rewrite !update_twice by reflexivity.
  apply update_ext. intros u _.
  unfold served, record_end, set_uploaded. cbn.
  rewrite fail_count. fold (wins jobs).
  unfold files_side in G1. injection G1 as _ G1 _.
  unfold sum_success. cbn [update_user dbt3_file]. rewrite G1.
  reflexivity.
Qed.

Lemma uploadSingle_sizes (p fmt : str) (d : Db.t) (j : job) :
  dbt1_developer (uploadSingle p fmt d j)
    = Developer (total_number_of_users (dbt1_developer d))
                (Db.total_files_uploaded (dbt1_developer d) + 1) /\
  map File.user_queue_position (dbt3_file (uploadSingle p fmt d j))
    = map File.user_queue_position (dbt3_file d) ++ [p].
Proof.
  unfold uploadSingle, upload, fileData_of.
  cbn [addFile fd_user_queue_position].
  destruct (ocr j) as [text|]; destruct (written j); cbn [fst];
    open_handlers; rewrite !StoreFacts.map_update by reflexivity;
    rewrite map_app; split; reflexivity.
Qed.

Lemma one_by_one_sizes (p fmt : str) (jobs : list job) :
  forall d : Db.t,
    dbt1_developer (one_by_one p fmt jobs d)
      = Developer (total_number_of_users (dbt1_developer d))
                  (Db.total_files_uploaded (dbt1_developer d)
                   + Z.of_nat (length jobs)) /\
    length (dbt3_file (one_by_one p fmt jobs d))
      = length (dbt3_file d) + length jobs.
Proof.
  induction jobs as [|j jobs IH]; intros d.
  - cbn [one_by_one fold_left length]. split; [|lia].
    destruct (dbt1_developer d). cbn. f_equal. lia.
  - change (one_by_one p fmt (j :: jobs) d)
      with (one_by_one p fmt jobs (uploadSingle p fmt d j)).
    destruct (IH (uploadSingle p fmt d j)) as [H1 H2].
    destruct (uploadSingle_sizes p fmt d j) as [S1 S2].
    rewrite H1, H2, S1. cbn [total_number_of_users Db.total_files_uploaded].
    apply (f_equal (@length str)) in S2.
    rewrite length_app, !length_map in S2. rewrite S2.
    cbn [length]. split; [f_equal; lia | lia].
Qed.

(** What a request does to the queue entries: nothing, a new entry with
    its counters at zero, or [n] uploads, [k] successes and [m] failures
    on the entries of one position, where every upload has an outcome and
    none more than a success and a failure; a request that is clean adds
    one outcome for each upload. *)
Lemma handle_users (d : Db.t) (r : request) :
  sized d ->
  sized (handle d r) /\
  (dbt2_user (handle d r) = dbt2_user d \/
   (exists i q,
       dbt2_user (handle d r)
       = dbt2_user d ++ [User.Make i q 0 0 0 None None 0]) \/
   exists p n k m s f t,
     dbt2_user (handle d r)
     = map (fun u => if is_user p u then served n k m s f t u else u)
           (dbt2_user d) /\
     (0 <= k <= n)%Z /\ (0 <= m <= n)%Z /\ (n <= k + m)%Z /\
     (clean r = true -> (k + m = n)%Z)).
Proof.
  intros [B1 B2]. destruct r as [|p fmt j|p fmt jobs start finish];
    cbn [handle].
  - unfold getUserSession, createUser.
    destruct (existsb (is_user (getNextUserPosition d)) (dbt2_user d));
      [split; [split; assumption | left; reflexivity]|].
    unfold sized, incrementUserCount, update_developer.
    cbn [fst dbt1_developer dbt2_user dbt3_file total_number_of_users
         Db.total_files_uploaded].
    rewrite length_app. cbn [length]. split; [split; [lia | exact B2]|].
    right. left. eexists. eexists. reflexivity.
  - destruct (nonempty p);
      [|split; [split; assumption | left; reflexivity]].
    destruct (uploadSingle_sizes p fmt d j) as [S1 S2].
    apply (f_equal (@length str)) in S2.
    rewrite length_app, !length_map in S2. cbn [length] in S2.
    split.
    + unfold sized. rewrite S1, S2, uploadSingle_users, length_map.
      cbn [total_number_of_users Db.total_files_uploaded].
      split; [exact B1 | lia].
    + right. right. rewrite uploadSingle_users.
      do 7 eexists. split; [reflexivity|].
      cbn [clean]. unfold won, spoilt.
      destruct (read j), (written j); cbn [andb negb];
        repeat split; try lia; discriminate.
  - destruct (Nat.leb_spec (length jobs) 10) as [Hlen | Hlen].
    + destruct jobs as [|j0 jobs'] eqn:Ej;
        [unfold uploadBulk; cbn;
         split; [split; assumption | left; reflexivity]|].
      destruct p as [|c p'] eqn:Ep;
        [unfold uploadBulk; cbn [nonempty negb];
         rewrite orb_true_r;
         split; [split; assumption | left; reflexivity]|].
      rewrite <- Ej, <- Ep in *.
      assert (Hne : jobs <> []) by (rewrite Ej; discriminate).
      assert (Hp : p <> []) by (rewrite Ep; discriminate).
      destruct (uploadBulk_spec p fmt jobs start finish d Hne Hlen Hp)
        as [_ [F U]].
      destruct (one_by_one_sizes p fmt jobs d) as [S1 S2].
      unfold files_side in F. injection F as F1 F2 _.
      split.
      * unfold sized. rewrite F1, F2, U, S1, S2, length_map.
        cbn [total_number_of_users Db.total_files_uploaded].
        split; [exact B1 | lia].
      * right. right. rewrite U. do 7 eexists. split; [reflexivity|].
        pose proof (wins_losses jobs). pose proof (counts_bounds jobs).
        repeat split; lia.
    + unfold uploadBulk. apply Nat.ltb_lt in Hlen. rewrite Hlen.
      cbn [orb fst]. split; [split; assumption | left; reflexivity].
Qed.

Lemma Forall_served (P : User.t -> Prop) (p : str) (n k m : Z)
      (s f : option time) (t : Z) (l : list User.t) :
  (forall u, P u -> P (served n k m s f t u)) ->
  Forall P l ->
  Forall P (map (fun u => if is_user p u then served n k m s f t u else u)
                l).
Proof.
  intros HP H. apply Forall_map. eapply Forall_impl; [|exact H].
  cbv beta. intros u Hu. destruct (is_user p u); [apply HP|]; exact Hu.
Qed.

Lemma bounded_handle (d : Db.t) (r : request) :
  bounded d -> bounded (handle d r).
Proof.
  intros [Hs Hb]. destruct (handle_users d r Hs) as [Hs' H].
  split; [exact Hs'|].
  destruct H as [-> | [[i [q ->]] | [p [n [k [m [s [f [t [-> [? [? [? _]]]]]]]]]]]]].
  - exact Hb.
  - apply StoreFacts.Forall_snoc; [exact Hb|]. cbn. lia.
  - apply Forall_served; [|exact Hb].
    intros u Hu. unfold served. cbn. lia.
Qed.

Lemma balanced_handle (d : Db.t) (r : request) :
  clean r = true -> balanced d -> balanced (handle d r).
Proof.
  intros Hc [Hs Hb]. destruct (handle_users d r Hs) as [Hs' H].
  split; [exact Hs'|].
  destruct H as [-> | [[i [q ->]] | [p [n [k [m [s [f [t [-> [? [? [? E]]]]]]]]]]]]].
  - exact Hb.
  - apply StoreFacts.Forall_snoc; [exact Hb | reflexivity].
  - specialize (E Hc). apply Forall_served; [|exact Hb].
    intros u Hu. unfold served. cbn. lia.
Qed.

Lemma bounded_serve (rs : list request) :
  forall d, bounded d -> bounded (serve rs d).
Proof.
  unfold serve. induction rs as [|r rs IH]; intros d H; [exact H|].
  cbn [fold_left]. apply IH. apply bounded_handle. exact H.
Qed.

Lemma balanced_serve (rs : list request) :
  forall d, forallb clean rs = true -> balanced d -> balanced (serve rs d).
Proof.
  unfold serve. induction rs as [|r rs IH]; intros d Hc H; [exact H|].
  cbn [fold_left forallb] in *. apply andb_true_iff in Hc.
  destruct Hc as [Hr Hrs]. apply IH; [exact Hrs|].
  apply balanced_handle; assumption.
Qed.

Lemma balanced_step (p : pool) (e : event) :
  balanced (store p) -> balanced (store (step p e)).
Proof.
  intros [[B1 B2] B3]. destruct e as [caller | caller]; cbn [step store];
    [repeat split; assumption|].
  destruct (held caller p) as [q|]; [|repeat split; assumption].
  cbn [store]. unfold createUser.
  destruct (existsb (is_user q) (dbt2_user (store p)));
    [repeat split; assumption|].
  unfold balanced, sized, incrementUserCount, update_developer.
  cbn [fst dbt1_developer dbt2_user dbt3_file total_number_of_users
       Db.total_files_uploaded].
  rewrite length_app. cbn [length]. repeat split; [lia | exact B2 |].
  apply StoreFacts.Forall_snoc; [exact B3 | reflexivity].
Qed.

Lemma balanced_schedule (es : list event) :
  forall p, balanced (store p) -> balanced (store (fold_left step es p)).
Proof.
  induction es as [|e es IH]; intros p H; [exact H|].
  cbn [fold_left]. apply IH. apply balanced_step. exact H.
Qed.

Lemma balanced_empty : balanced Db.empty.
Proof.
  unfold balanced, sized. cbn. repeat split. constructor.
Qed.

Lemma bounded_empty : bounded Db.empty.
Proof.
  unfold bounded, sized. cbn. repeat split. constructor.
Qed.

End RouteFacts.
(** X13.  A queue position is created once.  [createUser] refuses a
    position exactly when the table has it, and then leaves the store as it
    was; otherwise the new entry has the next id of the sequence, counters
    at zero and no window, and the lookup of every other position is as
    before.  Creating the position again is refused in either case. *)
Theorem createUser_once (userPosition : str) (d : Db.t) :
  let d' := fst (Db.createUser userPosition d) in
  (snd (Db.createUser userPosition d) = None <->
   Db.user_of userPosition d <> None) /\
  (Db.user_of userPosition d <> None -> d' = d) /\
  (Db.user_of userPosition d = None ->
   snd (Db.createUser userPosition d) = Some (S (Db.dbt2_seq d)) /\
   Db.user_of userPosition d'
   = Some (Db.User.Make (S (Db.dbt2_seq d)) userPosition 0 0 0 None None
                        0)) /\
  (forall q, q <> userPosition -> Db.user_of q d' = Db.user_of q d) /\
  Db.createUser userPosition d' = (d', None).
Proof.
  intros d'. subst d'. unfold Db.createUser, Db.user_of.
  destruct (find (Db.is_user userPosition) (Db.dbt2_user d)) as [u|] eqn:F.
  - assert (E : existsb (Db.is_user userPosition) (Db.dbt2_user d) = true).
    { destruct (existsb (Db.is_user userPosition) (Db.dbt2_user d)) eqn:E;
        [reflexivity|].
      apply StoreFacts.find_existsb in E. congruence. }
    rewrite E. cbn [fst snd]. rewrite E.
    repeat split; try reflexivity; try discriminate.
  - pose proof (proj1 (StoreFacts.find_existsb _ _) F) as E.
    rewrite E. cbn [fst snd Db.dbt2_user].
    assert (E' : existsb (Db.is_user userPosition)
                   (Db.dbt2_user d ++
                    [Db.User.Make (S (Db.dbt2_seq d)) userPosition 0 0 0
                                  None None 0]) = true).
    { rewrite existsb_app. cbn. unfold Db.is_user. cbn.
      rewrite DbFacts.str_eqb_refl. apply orb_true_r. }
    rewrite E'. repeat split; try reflexivity.
    + discriminate.
    + intros H. contradiction H. reflexivity.
    + intros H. contradiction H. reflexivity.
    + rewrite StoreFacts.find_snoc, F. unfold Db.is_user at 1.
      cbn [Db.User.user_queue_position].
      rewrite DbFacts.str_eqb_refl. reflexivity.
    + intros q Hq. rewrite StoreFacts.find_snoc.
      destruct (find (Db.is_user q) (Db.dbt2_user d)); [reflexivity|].
      unfold Db.is_user at 1. cbn [Db.User.user_queue_position].
      destruct (str_eqb userPosition q) eqn:Eq; [|reflexivity].
      apply DbFacts.str_eqb_eq in Eq. congruence.
Qed.


(** X14.  An upload writes to one queue entry.  The entry of the position
    of the request gets one more upload, one more success when the engine
    gave a text, one more failure when the engine threw or the output
    could not be written (both, then, for a text whose output is not
    written), the window of this file and the recomputed total; the entry
    of every other position reads as before; and when no entry has the
    position the user table is left as it was, while the file record is
    still added and the developer's file counter still goes up by one. *)
Theorem upload_one_entry (userPosition outputFormat : str) (d : Db.t)
        (j : Routes.job) :
  let d' := Routes.uploadSingle userPosition outputFormat d j in
  (forall q,
      Db.user_of q d'
      = option_map
          (fun u =>
             if str_eqb q userPosition
             then Store.served 1 (if Store.read j then 1 else 0)
                               (if Store.won j then 0 else 1)
                               (Some (Routes.t0 j)) (Some (Routes.t1 j))
                               (Db.sum_success userPosition d') u
             else u)
          (Db.user_of q d)) /\
  (Db.user_of userPosition d = None -> Db.dbt2_user d' = Db.dbt2_user d) /\
  map Db.File.user_queue_position (Db.dbt3_file d')
    = map Db.File.user_queue_position (Db.dbt3_file d) ++ [userPosition] /\
  Db.dbt1_developer d'
    = Db.Developer (Db.total_number_of_users (Db.dbt1_developer d))
                   (Db.total_files_uploaded (Db.dbt1_developer d) + 1).
Proof.
  intros d'. subst d'.
  destruct (RouteFacts.uploadSingle_sizes userPosition outputFormat d j)
    as [S1 S2].
  split; [|split; [|split; [exact S2 | exact S1]]].
  - intros q. unfold Db.user_of.
    rewrite RouteFacts.uploadSingle_users.
    rewrite DbFacts.find_update by reflexivity.
    destruct (find (Db.is_user q) (Db.dbt2_user d)) as [u|] eqn:F;
      [|reflexivity].
    cbn [option_map]. apply find_some in F. destruct F as [_ F].
    unfold Db.is_user in *. apply DbFacts.str_eqb_eq in F. rewrite F.
    reflexivity.
  - intros H. rewrite RouteFacts.uploadSingle_users.
    apply StoreFacts.map_skip. exact H.
Qed.

(** X15.  A batch and its files sent one by one.  When the bulk handler
    accepts a request (one to ten files, a user position), it reports a
    success for the files that were read and written and a failure for the
    others, and leaves the same file records, the same sequence and the
    same developer counters as single uploads of the same files in the
    same order.  The queue entries of the position have the same uploads,
    failures and total processing time either way; the single uploads
    leave their own window, and one more success for every file that was
    read and then not written, which the batch counts as a failure only.
    With no such file the counters are the same, and the batch stamps the
    window with its own start and end. *)
Theorem uploadBulk_as_singles (userPosition outputFormat : str)
        (jobs : list Routes.job) (start finish : Db.time) (d : Db.t) :
  jobs <> [] -> length jobs <= 10 -> userPosition <> [] ->
  let bulk := Routes.uploadBulk userPosition outputFormat jobs start finish
                                d in
  let singles := Store.one_by_one userPosition outputFormat jobs d in
  snd bulk = Some (Store.succeeded jobs) /\
  Store.files_side (fst bulk) = Store.files_side singles /\
  (exists start' finish',
      Db.dbt2_user singles
      = map (fun u =>
               if Db.is_user userPosition u
               then Store.served 0 (Store.spoils jobs) 0 start' finish'
                                 (Db.User.total_processing_time u) u
               else u)
            (Db.dbt2_user (fst bulk))) /\
  (Store.spoils jobs = 0%Z ->
   map Store.counters (Db.dbt2_user (fst bulk))
   = map Store.counters (Db.dbt2_user singles)) /\
  (forall u, Db.user_of userPosition (fst bulk) = Some u ->
             Db.User.extraction_start_timestamp u = Some start /\
             Db.User.extraction_end_timestamp u = Some finish).
Proof.
  intros Hne Hlen Hp bulk singles. subst bulk singles.
  destruct (RouteFacts.uploadBulk_spec userPosition outputFormat jobs start
              finish d Hne Hlen Hp) as [R [F U]].
  destruct (RouteFacts.one_by_one_users userPosition outputFormat jobs d
              Hne) as [s [f E]].
  pose proof (RouteFacts.reads_split jobs) as Hr.
  split; [exact R|]. split; [exact F|]. split; [|split].
  - exists s, f. rewrite U, E.
    rewrite (RouteFacts.update_twice (Db.is_user userPosition) _
               (fun u => Store.served 0 (Store.spoils jobs) 0 s f
                           (Db.User.total_processing_time u) u))
      by reflexivity.
    apply RouteFacts.update_ext. intros u _.
    unfold Store.served. cbn. f_equal; lia.
  - intros H0. rewrite U, E, !map_map. apply map_ext. intros u.
    destruct (Db.is_user userPosition u); [|reflexivity].
    unfold Store.counters, Store.served. cbn.
    repeat f_equal. lia.
  - intros u. unfold Db.user_of. rewrite U.
    rewrite DbFacts.find_update by reflexivity.
    destruct (find (Db.is_user userPosition) (Db.dbt2_user d)) as [v|] eqn:Fv;
      [|discriminate].
    cbn [option_map]. apply find_some in Fv. destruct Fv as [_ Fv].
    rewrite Fv. intros H. injection H as <-. split; reflexivity.
Qed.

(** A batch of three: one file goes through, the engine throws on one, and
    one is read and not written.  The batch counts one success and two
    failures; sent one by one the files count two successes and two
    failures. *)
Lemma uploadBulk_as_singles_witness :
  snd (Routes.uploadBulk (lit "user1") (lit "TXT") Store.a_batch 0%Z 10%Z
                         Ledger.one_user)
  = Some [true; false; false] /\
  map Store.counters
      (Db.dbt2_user
         (fst (Routes.uploadBulk (lit "user1") (lit "TXT") Store.a_batch
                                 0%Z 10%Z Ledger.one_user)))
  = [(1, lit "user1", 3%Z, 1%Z, 2%Z, 3%Z)] /\
  map Store.counters
      (Db.dbt2_user
         (Store.one_by_one (lit "user1") (lit "TXT") Store.a_batch
                           Ledger.one_user))
  = [(1, lit "user1", 3%Z, 2%Z, 2%Z, 3%Z)].
Proof.
  destruct (uploadBulk_as_singles (lit "user1") (lit "TXT") Store.a_batch
              0%Z 10%Z Ledger.one_user)
    as [H1 _].
  - discriminate.
  - simpl. lia.
  - discriminate.
  - split; [exact H1|]. split; reflexivity.
Defined.

(** X16.  The counters and the tables.  After any sequence of requests to
    the session route and the two upload routes, served one after the
    other on a new database, the developer's user counter is the number
    of queue entries and the developer's file counter the number of file
    records; in every queue entry treated and not treated are each at most
    uploaded, and together at least uploaded.  They add up to uploaded
    when no single upload was read and then not written; such an upload
    counts twice, so after a session and one of them the sum is 2 for 1
    upload.  Session requests that overlap in any way keep the counters
    in step with the tables: an insert that the UNIQUE column refuses is
    not counted. *)
Theorem counters_balance :
  (forall rs : list Routes.request,
      Store.bounded (Routes.serve rs Db.empty)) /\
  (forall rs : list Routes.request,
      forallb Store.clean rs = true ->
      Store.balanced (Routes.serve rs Db.empty)) /\
  ~ Store.balanced (Routes.serve Store.a_spoilt_upload Db.empty) /\
  (forall es : list Server.event,
      Store.balanced (Server.store (Server.schedule es Db.empty))).
Proof.
  split; [|split; [|split]].
  - intros rs. apply RouteFacts.bounded_serve, RouteFacts.bounded_empty.
  - intros rs Hc.
    apply RouteFacts.balanced_serve; [exact Hc|].
    exact RouteFacts.balanced_empty.
  - intros [_ H]. vm_compute in H.
    inversion H as [|u l H1 _]. discriminate H1.
  - intros es. unfold Server.schedule.
    apply RouteFacts.balanced_schedule. exact RouteFacts.balanced_empty.
Qed.
